(** * Node-Against-Humanity: the session and round engine of [server.js]

    A shallow embedding of the lobby registry, the card supply, the round
    state machine and the socket handlers of [server.js], followed by the
    properties of the engine that the specification states.

    Conventions of the embedding.
    - A JavaScript array is a [list] in index order: [push] appends at the
      end, [pop] removes the last element, [splice(i, 1)] deletes index [i].
    - The registry [lobbies] is a plain object used as a map; it is an
      association list kept in the enumeration order of [for ... in].
    - Every handler runs to completion; a handler that throws a [TypeError]
      ends in [Throw], otherwise in [Done] with the new world and the
      messages it emitted, oldest first.
    - [Math.random()] is an oracle: a stream of naturals carried by the
      world, read once per call.
    - Socket ids, lobby codes, player names and card ids are strings. *)

From Stdlib Require Import ssreflect ZArith String Ascii List Bool Lia.
From stdpp Require Import base list strings pretty.

#[local] Set Warnings "-rewrite-rw,-abstract-large-number".

Local Open Scope string_scope.
Local Open Scope list_scope.

(** ** Cards and the catalogue *)

(** A card of a hydrated pack, before [getPacks] gives it an id. *)
Record DeckWhite := { dw_text : string; dw_pack : nat }.
Record DeckBlack := { db_text : string; db_pick : Z; db_pack : nat }.

Record Pack := {
  pk_name : string;
  pk_official : bool;
  pk_description : string;
  pk_white : list DeckWhite;
  pk_black : list DeckBlack
}.

(** Cards of a running game: [{ ...card, id }]. *)
Record WhiteCard := { wc_text : string; wc_pack : nat; wc_id : string }.
Record BlackCard := { bc_text : string; bc_pick : Z; bc_pack : nat; bc_id : string }.

Record PackCounts := { cnt_white : nat; cnt_black : nat; cnt_total : nat }.
Record PackInfo := {
  pi_id : nat; pi_name : string; pi_official : bool;
  pi_description : string; pi_counts : PackCounts
}.

(** ** Players, submissions, lobbies *)

Inductive GameState := waiting | playing | judging | roundOver | gameOver.

Definition GameState_eqb (a b : GameState) : bool :=
  match a, b with
  | waiting, waiting | playing, playing | judging, judging
  | roundOver, roundOver | gameOver, gameOver => true
  | _, _ => false
  end.

Record Player := {
  p_id : string;
  p_name : string;
  p_score : nat;
  p_hand : list WhiteCard;
  p_submittedCards : option (list WhiteCard)
}.

Record Submission := {
  sub_playerId : string;
  sub_playerName : string;
  sub_cards : list WhiteCard
}.

Record RoundWinnerInfo := {
  winnerName : string;
  winningCardsText : list string;
  blackCardText : string
}.

Record Settings := {
  scoreToWin : Z;
  maxPlayers : Z;
  selectedPackIndexes : list nat;
  isPrivate : bool
}.

Record Lobby := {
  code : string;
  players : list Player;
  hostId : string;
  gameState : GameState;
  settings : Settings;
  whiteDeck : list WhiteCard;
  blackDeck : list BlackCard;
  whiteDiscard : list WhiteCard;
  blackDiscard : list BlackCard;
  currentBlackCard : option BlackCard;
  czarId : option string;
  roundSubmissions : list Submission;
  roundWinnerInfo : option RoundWinnerInfo
}.

(** Field assignments [lobby.f = v] and [player.f = v]. *)
Definition set_players (v : list Player) (l : Lobby) : Lobby :=
  {| code := code l; players := v; hostId := hostId l; gameState := gameState l;
     settings := settings l; whiteDeck := whiteDeck l; blackDeck := blackDeck l;
     whiteDiscard := whiteDiscard l; blackDiscard := blackDiscard l;
     currentBlackCard := currentBlackCard l; czarId := czarId l;
     roundSubmissions := roundSubmissions l; roundWinnerInfo := roundWinnerInfo l |}.
Definition set_hostId (v : string) (l : Lobby) : Lobby :=
  {| code := code l; players := players l; hostId := v; gameState := gameState l;
     settings := settings l; whiteDeck := whiteDeck l; blackDeck := blackDeck l;
     whiteDiscard := whiteDiscard l; blackDiscard := blackDiscard l;
     currentBlackCard := currentBlackCard l; czarId := czarId l;
     roundSubmissions := roundSubmissions l; roundWinnerInfo := roundWinnerInfo l |}.
Definition set_gameState (v : GameState) (l : Lobby) : Lobby :=
  {| code := code l; players := players l; hostId := hostId l; gameState := v;
     settings := settings l; whiteDeck := whiteDeck l; blackDeck := blackDeck l;
     whiteDiscard := whiteDiscard l; blackDiscard := blackDiscard l;
     currentBlackCard := currentBlackCard l; czarId := czarId l;
     roundSubmissions := roundSubmissions l; roundWinnerInfo := roundWinnerInfo l |}.
Definition set_settings (v : Settings) (l : Lobby) : Lobby :=
  {| code := code l; players := players l; hostId := hostId l; gameState := gameState l;
     settings := v; whiteDeck := whiteDeck l; blackDeck := blackDeck l;
     whiteDiscard := whiteDiscard l; blackDiscard := blackDiscard l;
     currentBlackCard := currentBlackCard l; czarId := czarId l;
     roundSubmissions := roundSubmissions l; roundWinnerInfo := roundWinnerInfo l |}.
Definition set_whiteDeck (v : list WhiteCard) (l : Lobby) : Lobby :=
  {| code := code l; players := players l; hostId := hostId l; gameState := gameState l;
     settings := settings l; whiteDeck := v; blackDeck := blackDeck l;
     whiteDiscard := whiteDiscard l; blackDiscard := blackDiscard l;
     currentBlackCard := currentBlackCard l; czarId := czarId l;
     roundSubmissions := roundSubmissions l; roundWinnerInfo := roundWinnerInfo l |}.
Definition set_blackDeck (v : list BlackCard) (l : Lobby) : Lobby :=
  {| code := code l; players := players l; hostId := hostId l; gameState := gameState l;
     settings := settings l; whiteDeck := whiteDeck l; blackDeck := v;
     whiteDiscard := whiteDiscard l; blackDiscard := blackDiscard l;
     currentBlackCard := currentBlackCard l; czarId := czarId l;
     roundSubmissions := roundSubmissions l; roundWinnerInfo := roundWinnerInfo l |}.
Definition set_whiteDiscard (v : list WhiteCard) (l : Lobby) : Lobby :=
  {| code := code l; players := players l; hostId := hostId l; gameState := gameState l;
     settings := settings l; whiteDeck := whiteDeck l; blackDeck := blackDeck l;
     whiteDiscard := v; blackDiscard := blackDiscard l;
     currentBlackCard := currentBlackCard l; czarId := czarId l;
     roundSubmissions := roundSubmissions l; roundWinnerInfo := roundWinnerInfo l |}.
Definition set_blackDiscard (v : list BlackCard) (l : Lobby) : Lobby :=
  {| code := code l; players := players l; hostId := hostId l; gameState := gameState l;
     settings := settings l; whiteDeck := whiteDeck l; blackDeck := blackDeck l;
     whiteDiscard := whiteDiscard l; blackDiscard := v;
     currentBlackCard := currentBlackCard l; czarId := czarId l;
     roundSubmissions := roundSubmissions l; roundWinnerInfo := roundWinnerInfo l |}.
Definition set_currentBlackCard (v : option BlackCard) (l : Lobby) : Lobby :=
  {| code := code l; players := players l; hostId := hostId l; gameState := gameState l;
     settings := settings l; whiteDeck := whiteDeck l; blackDeck := blackDeck l;
     whiteDiscard := whiteDiscard l; blackDiscard := blackDiscard l;
     currentBlackCard := v; czarId := czarId l;
     roundSubmissions := roundSubmissions l; roundWinnerInfo := roundWinnerInfo l |}.
Definition set_czarId (v : option string) (l : Lobby) : Lobby :=
  {| code := code l; players := players l; hostId := hostId l; gameState := gameState l;
     settings := settings l; whiteDeck := whiteDeck l; blackDeck := blackDeck l;
     whiteDiscard := whiteDiscard l; blackDiscard := blackDiscard l;
     currentBlackCard := currentBlackCard l; czarId := v;
     roundSubmissions := roundSubmissions l; roundWinnerInfo := roundWinnerInfo l |}.
Definition set_roundSubmissions (v : list Submission) (l : Lobby) : Lobby :=
  {| code := code l; players := players l; hostId := hostId l; gameState := gameState l;
     settings := settings l; whiteDeck := whiteDeck l; blackDeck := blackDeck l;
     whiteDiscard := whiteDiscard l; blackDiscard := blackDiscard l;
     currentBlackCard := currentBlackCard l; czarId := czarId l;
     roundSubmissions := v; roundWinnerInfo := roundWinnerInfo l |}.
Definition set_roundWinnerInfo (v : option RoundWinnerInfo) (l : Lobby) : Lobby :=
  {| code := code l; players := players l; hostId := hostId l; gameState := gameState l;
     settings := settings l; whiteDeck := whiteDeck l; blackDeck := blackDeck l;
     whiteDiscard := whiteDiscard l; blackDiscard := blackDiscard l;
     currentBlackCard := currentBlackCard l; czarId := czarId l;
     roundSubmissions := roundSubmissions l; roundWinnerInfo := v |}.

Definition set_score (v : nat) (p : Player) : Player :=
  {| p_id := p_id p; p_name := p_name p; p_score := v; p_hand := p_hand p;
     p_submittedCards := p_submittedCards p |}.
Definition set_hand (v : list WhiteCard) (p : Player) : Player :=
  {| p_id := p_id p; p_name := p_name p; p_score := p_score p; p_hand := v;
     p_submittedCards := p_submittedCards p |}.
Definition set_submittedCards (v : option (list WhiteCard)) (p : Player) : Player :=
  {| p_id := p_id p; p_name := p_name p; p_score := p_score p; p_hand := p_hand p;
     p_submittedCards := v |}.

(** ** Arrays *)

(** [array.findIndex(f)]; [None] stands for [-1]. *)
Fixpoint findIndex {A} (f : A -> bool) (l : list A) : option nat :=
  match l with
  | [] => None
  | x :: l' => if f x then Some 0 else S <$> findIndex f l'
  end.

(** [array.pop()] on a non-empty array: the array without its last element,
    and that element. *)
Definition pop {A} (l : list A) : option (list A * A) :=
  match last l with
  | Some x => Some (removelast l, x)
  | None => None
  end.

(** [array.splice(i, 1)]. *)
Definition splice1 {A} (i : nat) (l : list A) : list A := delete i l.

(** ** The registry object

    [lobbies] is created as [{}]. [for (const k in lobbies)] lists the keys
    that are array indices first, in ascending numeric order, and the other
    keys in the order of their creation. *)

Definition digitValue (a : ascii) : option N :=
  let n := N_of_ascii a in
  if ((48 <=? n) && (n <=? 57))%N then Some (n - 48)%N else None.

Fixpoint parseDigits (s : string) (acc : N) : option N :=
  match s with
  | EmptyString => Some acc
  | String a s' =>
      match digitValue a with
      | Some d => parseDigits s' (10 * acc + d)%N
      | None => None
      end
  end.

(** The canonical numeric strings below [2^32 - 1]. *)
Definition arrayIndex (s : string) : option N :=
  match s with
  | EmptyString => None
  | String "0"%char EmptyString => Some 0%N
  | String "0"%char _ => None
  | _ => match parseDigits s 0 with
         | Some n => if (n <? 4294967295)%N then Some n else None
         | None => None
         end
  end.

Section JsObject.
Context {V : Type}.

Definition obj_get (k : string) (o : list (string * V)) : option V :=
  snd <$> List.find (fun kv => String.eqb (fst kv) k) o.

Fixpoint obj_replace (k : string) (v : V) (o : list (string * V)) : list (string * V) :=
  match o with
  | [] => []
  | (k', v') :: o' =>
      if String.eqb k' k then (k', v) :: o' else (k', v') :: obj_replace k v o'
  end.

Fixpoint obj_insert_index (n : N) (k : string) (v : V) (o : list (string * V))
  : list (string * V) :=
  match o with
  | [] => [(k, v)]
  | (k', v') :: o' =>
      match arrayIndex k' with
      | Some m => if (m <? n)%N then (k', v') :: obj_insert_index n k v o'
                  else (k, v) :: o
      | None => (k, v) :: o
      end
  end.

Definition obj_add (k : string) (v : V) (o : list (string * V)) : list (string * V) :=
  match arrayIndex k with
  | Some n => obj_insert_index n k v o
  | None => o ++ [(k, v)]
  end.

(** [o[k] = v]. *)
Definition obj_set (k : string) (v : V) (o : list (string * V)) : list (string * V) :=
  match obj_get k o with
  | Some _ => obj_replace k v o
  | None => obj_add k v o
  end.

(** [delete o[k]]. *)
Definition obj_delete (k : string) (o : list (string * V)) : list (string * V) :=
  List.filter (fun kv => negb (String.eqb (fst kv) k)) o.
End JsObject.

(** The property names that [{}] inherits from [Object.prototype]: reading
    [lobbies[k]] for one of them yields a truthy value that is no lobby. *)
Definition objectPrototypeKeys : list string :=
  [ "constructor"; "__proto__"; "hasOwnProperty"; "isPrototypeOf";
    "propertyIsEnumerable"; "toLocaleString"; "toString"; "valueOf";
    "__defineGetter__"; "__defineSetter__"; "__lookupGetter__"; "__lookupSetter__" ].

Definition isInheritedKey (k : string) : bool :=
  existsb (String.eqb k) objectPrototypeKeys.

(** ** Randomness *)

Definition Rng := nat -> nat.

Definition rng_tail (r : Rng) : Rng := fun k => r (S k).

(** [Math.floor(Math.random() * n)], a value below [n] for [n > 0]. *)
Definition randomBelow (n : nat) (r : Rng) : nat * Rng := (r 0 mod n, rng_tail r).

(** [[array[i], array[j]] = [array[j], array[i]]]: both reads happen before
    both writes. The indices the shuffle uses are in range. *)
Definition swap {A} (i j : nat) (array : list A) : list A :=
  match array !! i, array !! j with
  | Some ai, Some aj => <[j := ai]> (<[i := aj]> array)
  | _, _ => array
  end.

(** The loop of [shuffleArray], entered with the loop variable at [i]. *)
Fixpoint shuffleFrom {A} (i : nat) (array : list A) (r : Rng) : list A * Rng :=
  match i with
  | 0 => (array, r)
  | S i' =>
      let '(j, r') := randomBelow (i + 1) r in
      shuffleFrom i' (swap i j array) r'
  end.

Definition shuffleArray {A} (array : list A) (r : Rng) : list A * Rng :=
  shuffleFrom (length array - 1) array r.

(** ** The card catalogue ([class CAHDeck])

    The server listens only after [CAHDeck.fromCompact] has succeeded, so
    [this.deck] is an array (possibly empty) whenever a handler runs. *)

Definition listPacks (deck : list Pack) : list PackInfo :=
  imap (fun id pk =>
    {| pi_id := id; pi_name := pk_name pk; pi_official := pk_official pk;
       pi_description := pk_description pk;
       pi_counts := {| cnt_white := length (pk_white pk);
                       cnt_black := length (pk_black pk);
                       cnt_total := length (pk_white pk) + length (pk_black pk) |} |}) deck.

(** [cards.map(card => ({ ...card, id: `w_${cardIdCounter++}` }))]. *)
Fixpoint numberWhite (cards : list DeckWhite) (cardIdCounter : nat) : list WhiteCard * nat :=
  match cards with
  | [] => ([], cardIdCounter)
  | c :: cards' =>
      let '(rest, n) := numberWhite cards' (S cardIdCounter) in
      ({| wc_text := dw_text c; wc_pack := dw_pack c;
          wc_id := "w_" +:+ pretty cardIdCounter |} :: rest, n)
  end.

Fixpoint numberBlack (cards : list DeckBlack) (cardIdCounter : nat) : list BlackCard * nat :=
  match cards with
  | [] => ([], cardIdCounter)
  | c :: cards' =>
      let '(rest, n) := numberBlack cards' (S cardIdCounter) in
      ({| bc_text := db_text c; bc_pick := db_pick c; bc_pack := db_pack c;
          bc_id := "b_" +:+ pretty cardIdCounter |} :: rest, n)
  end.

(** The loop of [getPacks] over [indexes]. An index is a whole number here,
    and [deck !! packNum] reads the pack at that index: this is
    [this.deck[parseInt(packIndex, 10)]] for the whole numbers JavaScript
    writes in plain decimal digits, those below 10^21, which [parseInt]
    gives back unchanged ([plainIndex] below). For a larger number
    [parseInt] reads the leading digits of its exponent notation; such
    indexes are outside what the statements about the cards dealt cover. *)
Fixpoint getPacksFrom (deck : list Pack) (indexes : list nat) (cardIdCounter : nat)
  : list WhiteCard * list BlackCard :=
  match indexes with
  | [] => ([], [])
  | packNum :: indexes' =>
      match deck !! packNum with
      | Some pk =>
          let '(w, n1) := numberWhite (pk_white pk) cardIdCounter in
          let '(b, n2) := numberBlack (pk_black pk) n1 in
          let '(ws, bs) := getPacksFrom deck indexes' n2 in
          (w ++ ws, b ++ bs)
      | None => getPacksFrom deck indexes' cardIdCounter
      end
  end.

(** [getPacks(indexes)]; an empty [indexes] selects every pack. *)
Definition getPacks (deck : list Pack) (indexes : list nat) : list WhiteCard * list BlackCard :=
  let indexes := match indexes with [] => seq 0 (length deck) | _ => indexes end in
  getPacksFrom deck indexes 0.

(** ** Messages *)

Record PublicPlayer := {
  pp_id : string; pp_name : string; pp_score : nat;
  pp_isCzar : bool; pp_hasSubmitted : bool
}.

Record PublicLobbyState := {
  pl_code : string;
  pl_players : list PublicPlayer;
  pl_hostId : string;
  pl_gameState : GameState;
  pl_settings : Settings;
  pl_currentBlackCard : option BlackCard;
  pl_roundSubmissions : option (list Submission);
  pl_roundWinnerInfo : option RoundWinnerInfo;
  pl_czarId : option string;
  pl_czarName : option string
}.

Record PublicLobbyInfo := {
  li_code : string; li_hostName : string; li_playerCount : nat;
  li_maxPlayers : Z; li_scoreToWin : Z; li_selectedPackNames : list string
}.

Record Config := { allowSameNames : bool; roomsFunctionality : bool }.

Inductive Message :=
| ServerConfig (c : Config)
| LobbyUpdate (st : PublicLobbyState)
| HandUpdate (hand : list WhiteCard)
| GameError (msg : string)
| GameMessage (msg : string)
| GameOverWinner (winner : string) (ps : list Player)
| GameOverMessage (msg : string) (ps : list Player)
| CreateReply (lobbyCode : string)
| JoinReply (lobbyCode : string) (st : Settings) (packList : list PackInfo)
| FailReply (msg : string)
| PackListReply (packs : list PackInfo)
| PublicLobbiesReply (ls : list PublicLobbyInfo).

(** [io.to(socketId)], [io.to(lobbyCode)], and the acknowledgement
    [callback] of the calling socket. *)
Inductive Target :=
| ToSocket (socketId : string)
| ToRoom (lobbyCode : string)
| Callback (socketId : string).

Record Emit := { target : Target; message : Message }.

Definition idIs (o : option string) (id : string) : bool :=
  match o with
  | Some c => String.eqb id c
  | None => false
  end.

(** [!!p.submittedCards]: an array, even an empty one, is truthy. *)
Definition hasSubmitted (p : Player) : bool :=
  match p_submittedCards p with
  | Some _ => true
  | None => false
  end.

Definition getLobbyPlayer (lobby : Lobby) (playerId : string) : option Player :=
  List.find (fun p => String.eqb (p_id p) playerId) (players lobby).

Definition publicLobbyState (lobbyCode : string) (lobby : Lobby) : PublicLobbyState :=
  {| pl_code := lobbyCode;
     pl_players := map (fun p =>
       {| pp_id := p_id p; pp_name := p_name p; pp_score := p_score p;
          pp_isCzar := idIs (czarId lobby) (p_id p);
          pp_hasSubmitted := hasSubmitted p |})
       (players lobby);
     pl_hostId := hostId lobby;
     pl_gameState := gameState lobby;
     pl_settings := settings lobby;
     pl_currentBlackCard := currentBlackCard lobby;
     pl_roundSubmissions :=
       match gameState lobby with
       | judging => Some (roundSubmissions lobby)
       | _ => None
       end;
     pl_roundWinnerInfo := roundWinnerInfo lobby;
     pl_czarId := czarId lobby;
     pl_czarName :=
       match czarId lobby with
       | Some c => if String.eqb c "" then None
                   else p_name <$> List.find (fun p => String.eqb (p_id p) c) (players lobby)
       | None => None
       end |}.

(** The message [io.to(lobbyCode).emit('lobbyUpdate', publicLobbyState)] of
    [broadcastLobbyState], for the lobby it found. *)
Definition lobbyUpdate (lobbyCode : string) (lobby : Lobby) : Emit :=
  {| target := ToRoom lobbyCode; message := LobbyUpdate (publicLobbyState lobbyCode lobby) |}.

(** ** Card supply *)

Definition MAX_HAND_SIZE : nat := 10.

(** Lines 241-246 of [dealWhiteCards]: with an empty draw pile, [None] is
    the [break] on an empty discard pile, otherwise the discard pile is
    copied into the draw pile, emptied, and the draw pile shuffled. *)
Definition refillWhiteDeck (lobby : Lobby) (r : Rng) : option (Lobby * Rng) :=
  match whiteDeck lobby with
  | [] =>
      match whiteDiscard lobby with
      | [] => None
      | _ =>
          let '(deck, r') := shuffleArray (whiteDiscard lobby) r in
          Some (set_whiteDeck deck (set_whiteDiscard [] lobby), r')
      end
  | _ => Some (lobby, r)
  end.

Fixpoint dealWhiteCards (lobby : Lobby) (player : Player) (count : nat) (r : Rng)
  {struct count} : Lobby * Player * Rng :=
  match count with
  | 0 => (lobby, player, r)
  | S count' =>
      match refillWhiteDeck lobby r with
      | None => (lobby, player, r)
      | Some (lobby1, r1) =>
          match pop (whiteDeck lobby1) with
          | Some (deck', c) =>
              dealWhiteCards (set_whiteDeck deck' lobby1)
                             (set_hand (p_hand player ++ [c]) player) count' r1
          | None => dealWhiteCards lobby1 player count' r1
          end
      end
  end.

(** Lines 265-275 of [startNextRound]: [None] when both black piles are
    empty, otherwise the draw pile, refilled from the discard pile when it
    was empty. *)
Definition refillBlackDeck (lobby : Lobby) (r : Rng) : option (Lobby * Rng) :=
  match blackDeck lobby with
  | [] =>
      match blackDiscard lobby with
      | [] => None
      | _ =>
          let '(deck, r') := shuffleArray (blackDiscard lobby) r in
          Some (set_blackDeck deck (set_blackDiscard [] lobby), r')
      end
  | _ => Some (lobby, r)
  end.

(** Lines 279-285: the [forEach] that tops every hand up. The players are
    visited in roster order against the one shared white supply. *)
Fixpoint topUpHands (ps : list Player) (lobby : Lobby) (r : Rng)
  : list Player * Lobby * Rng * list Emit :=
  match ps with
  | [] => ([], lobby, r, [])
  | player :: ps' =>
      let cardsNeeded := MAX_HAND_SIZE - length (p_hand player) in
      let '(lobby1, player1, r1) :=
        if (0 <? cardsNeeded)%nat then dealWhiteCards lobby player cardsNeeded r
        else (lobby, player, r) in
      let '(ps1, lobby2, r2, out) := topUpHands ps' lobby1 r1 in
      (player1 :: ps1, lobby2, r2,
       {| target := ToSocket (p_id player1); message := HandUpdate (p_hand player1) |} :: out)
  end.

(** The index [(currentCzarIndex + 1) % lobby.players.length]; [findIndex]
    yields [-1] when no member carries [lobby.czarId]. *)
Definition nextCzarIndex (lobby : Lobby) : nat :=
  match findIndex (fun p => idIs (czarId lobby) (p_id p)) (players lobby) with
  | Some currentCzarIndex => (currentCzarIndex + 1) mod length (players lobby)
  | None => 0
  end.

(** The body of [startNextRound] on the lobby it found. [None] is the
    [TypeError] of [lobby.players[NaN].id] on an empty roster. *)
Definition startNextRoundIn (lobbyCode : string) (lobby : Lobby) (r : Rng)
  : option (Lobby * Rng * list Emit) :=
  let lobby := set_gameState playing lobby in
  let lobby := set_roundSubmissions [] lobby in
  let lobby := set_roundWinnerInfo None lobby in
  let lobby := set_players (map (set_submittedCards None) (players lobby)) lobby in
  match players lobby !! nextCzarIndex lobby with
  | None => None
  | Some czar =>
      let lobby := set_czarId (Some (p_id czar)) lobby in
      match refillBlackDeck lobby r with
      | None =>
          let lobby' := set_gameState gameOver lobby in
          Some (lobby', r,
                [ {| target := ToRoom lobbyCode;
                     message := GameOverMessage "No more black cards!" (players lobby) |};
                  lobbyUpdate lobbyCode lobby' ])
      | Some (lobby, r1) =>
          let lobby :=
            match currentBlackCard lobby with
            | Some c => set_blackDiscard (blackDiscard lobby ++ [c]) lobby
            | None => lobby
            end in
          let lobby :=
            match pop (blackDeck lobby) with
            | Some (deck', c) => set_currentBlackCard (Some c) (set_blackDeck deck' lobby)
            | None => set_currentBlackCard None lobby
            end in
          let '(ps, lobby, r2, out) := topUpHands (players lobby) lobby r1 in
          let lobby := set_players ps lobby in
          Some (lobby, r2, out ++ [lobbyUpdate lobbyCode lobby])
      end
  end.

(** ** The world: registry, configuration, catalogue, oracle, timers *)

Record World := {
  lobbies : list (string * Lobby);
  config : Config;
  globalCAHDeck : list Pack;
  rng : Rng;
  (** lobby codes of the pending [setTimeout] callbacks, oldest first; all
      have the same delay, so they fire in this order *)
  timers : list string
}.

Definition set_lobbies (v : list (string * Lobby)) (w : World) : World :=
  {| lobbies := v; config := config w; globalCAHDeck := globalCAHDeck w;
     rng := rng w; timers := timers w |}.
Definition set_rng (v : Rng) (w : World) : World :=
  {| lobbies := lobbies w; config := config w; globalCAHDeck := globalCAHDeck w;
     rng := v; timers := timers w |}.
Definition set_timers (v : list string) (w : World) : World :=
  {| lobbies := lobbies w; config := config w; globalCAHDeck := globalCAHDeck w;
     rng := rng w; timers := v |}.

(** Writing a mutated lobby object back under its key. *)
Definition putLobby (lobbyCode : string) (lobby : Lobby) (w : World) : World :=
  set_lobbies (obj_set lobbyCode lobby (lobbies w)) w.

(** The outcome of running one handler to its end. [Throw] is an uncaught
    [TypeError]; [Spin] is [generateLobbyCode] still drawing taken codes
    after the number of attempts the model was given. *)
Inductive Result :=
| Done (w : World) (out : list Emit)
| Throw
| Spin.

(** Messages emitted before a call precede those of the call. *)
Definition emitting (out : list Emit) (res : Result) : Result :=
  match res with
  | Done w out' => Done w (out ++ out')
  | other => other
  end.

Definition broadcastLobbyState (lobbyCode : string) (w : World) : list Emit :=
  match obj_get lobbyCode (lobbies w) with
  | Some lobby => [lobbyUpdate lobbyCode lobby]
  | None => []
  end.

Definition startNextRound (lobbyCode : string) (w : World) : Result :=
  match obj_get lobbyCode (lobbies w) with
  | None => Done w []
  | Some lobby =>
      match startNextRoundIn lobbyCode lobby (rng w) with
      | None => Throw
      | Some (lobby', r', out) => Done (set_rng r' (putLobby lobbyCode lobby' w)) out
      end
  end.

(** ** Lobby codes *)

Definition codeChar (d : nat) : ascii :=
  if (d <? 10)%nat then ascii_of_nat (48 + d) else ascii_of_nat (55 + d).

(** [Math.random().toString(36).substring(2, 7).toUpperCase()]: the oracle's
    number is read as five base-36 digits. A random number whose base-36
    expansion is shorter gives a shorter code in the source; no statement
    below depends on the length of a code. *)
Definition randomCode (r : Rng) : string * Rng :=
  let k0 := r 0 in
  let k1 := k0 / 36 in
  let k2 := k1 / 36 in
  let k3 := k2 / 36 in
  let k4 := k3 / 36 in
  (String (codeChar (k4 mod 36))
  (String (codeChar (k3 mod 36))
  (String (codeChar (k2 mod 36))
  (String (codeChar (k1 mod 36))
  (String (codeChar (k0 mod 36)) EmptyString)))), rng_tail r).

(** The [do ... while (lobbies[code])] loop, for at most [attempts] draws. *)
Fixpoint generateLobbyCode (attempts : nat) (o : list (string * Lobby)) (r : Rng)
  : option (string * Rng) :=
  match attempts with
  | 0 => None
  | S attempts' =>
      let '(c, r') := randomCode r in
      match obj_get c o with
      | Some _ => generateLobbyCode attempts' o r'
      | None => Some (c, r')
      end
  end.

(** ** Handlers *)

(** The [settings] object a client sends; a field it leaves out is [None]. *)
Record SettingsPatch := {
  sp_scoreToWin : option Z;
  sp_maxPlayers : option Z;
  sp_selectedPackIndexes : option (list nat);
  sp_isPrivate : option bool
}.

Definition newPlayer (socketId playerName : string) : Player :=
  {| p_id := socketId; p_name := playerName; p_score := 0; p_hand := [];
     p_submittedCards := None |}.

Definition reply (socketId : string) (m : Message) : Emit :=
  {| target := Callback socketId; message := m |}.

Definition toSocket (socketId : string) (m : Message) : Emit :=
  {| target := ToSocket socketId; message := m |}.

Definition toRoom (lobbyCode : string) (m : Message) : Emit :=
  {| target := ToRoom lobbyCode; message := m |}.

Definition connection (w : World) (socketId : string) : Result :=
  Done w [toSocket socketId (ServerConfig (config w))].

Definition getPackList (w : World) (socketId : string) : Result :=
  Done w [reply socketId (PackListReply (listPacks (globalCAHDeck w)))].

(** [x || d] on numbers: [0] is falsy. *)
Definition orDefault (x : option Z) (d : Z) : Z :=
  match x with
  | Some v => if (v =? 0)%Z then d else v
  | None => d
  end.

Definition createLobby (attempts : nat) (w : World) (socketId playerName : string)
  (st : option SettingsPatch) : Result :=
  match generateLobbyCode attempts (lobbies w) (rng w) with
  | None => Spin
  | Some (lobbyCode, r') =>
      let lobby :=
        {| code := lobbyCode;
           players := [newPlayer socketId playerName];
           hostId := socketId;
           gameState := waiting;
           settings :=
             {| scoreToWin := orDefault (st ≫= sp_scoreToWin) 7;
                maxPlayers := orDefault (st ≫= sp_maxPlayers) 10;
                selectedPackIndexes := default [0] (st ≫= sp_selectedPackIndexes);
                isPrivate := if roomsFunctionality (config w)
                             then default false (st ≫= sp_isPrivate) else true |};
           whiteDeck := []; blackDeck := []; whiteDiscard := []; blackDiscard := [];
           currentBlackCard := None; czarId := None;
           roundSubmissions := []; roundWinnerInfo := None |} in
      Done (set_rng r' (putLobby lobbyCode lobby w))
           [reply socketId (CreateReply lobbyCode); lobbyUpdate lobbyCode lobby]
  end.

Definition lowerAscii (a : ascii) : ascii :=
  let n := nat_of_ascii a in
  if ((65 <=? n) && (n <=? 90))%nat then ascii_of_nat (n + 32) else a.

(** [String.prototype.toLowerCase] as it acts on ASCII text, where it
    changes the letters A to Z and nothing else. Names with other
    characters are outside what the statements about names cover
    ([isAscii] below). *)
Fixpoint toLowerCase (s : string) : string :=
  match s with
  | EmptyString => EmptyString
  | String a s' => String (lowerAscii a) (toLowerCase s')
  end.

Definition joinLobby (w : World) (socketId lobbyCode playerName : string) : Result :=
  match obj_get lobbyCode (lobbies w) with
  | None =>
      if isInheritedKey lobbyCode then Throw
      else Done w [reply socketId (FailReply "Lobby not found.")]
  | Some lobby =>
      if (Z.of_nat (length (players lobby)) >=? maxPlayers (settings lobby))%Z then
        Done w [reply socketId (FailReply "Lobby is full.")]
      else if negb (GameState_eqb (gameState lobby) waiting) then
        Done w [reply socketId (FailReply "Game has already started.")]
      else if negb (allowSameNames (config w)) &&
              existsb (fun p => String.eqb (toLowerCase (p_name p)) (toLowerCase playerName))
                      (players lobby) then
        Done w [reply socketId (FailReply "Player name already taken in this lobby.")]
      else
        let player := newPlayer socketId playerName in
        let lobby := set_players (players lobby ++ [player]) lobby in
        Done (putLobby lobbyCode lobby w)
             [ reply socketId (JoinReply lobbyCode (settings lobby)
                                         (listPacks (globalCAHDeck w)));
               lobbyUpdate lobbyCode lobby;
               toSocket socketId (HandUpdate (p_hand player)) ]
  end.

Definition getPublicLobbies (w : World) (socketId : string) : Result :=
  if negb (roomsFunctionality (config w)) then
    Done w [reply socketId (PublicLobbiesReply [])]
  else
    let open := List.filter (fun lobby =>
        negb (isPrivate (settings lobby)) &&
        GameState_eqb (gameState lobby) waiting &&
        (Z.of_nat (length (players lobby)) <? maxPlayers (settings lobby))%Z)
      (map snd (lobbies w)) in
    let packs := listPacks (globalCAHDeck w) in
    Done w [reply socketId (PublicLobbiesReply (map (fun lobby =>
      {| li_code := code lobby;
         li_hostName :=
           match List.find (fun p => String.eqb (p_id p) (hostId lobby)) (players lobby) with
           | Some p => if String.eqb (p_name p) "" then "Unknown Host" else p_name p
           | None => "Unknown Host"
           end;
         li_playerCount := length (players lobby);
         li_maxPlayers := maxPlayers (settings lobby);
         li_scoreToWin := scoreToWin (settings lobby);
         li_selectedPackNames := map (fun idx =>
           match List.find (fun pi => Nat.eqb (pi_id pi) idx) packs with
           | Some pi => if String.eqb (pi_name pi) "" then "Pack " +:+ pretty idx
                        else pi_name pi
           | None => "Pack " +:+ pretty idx
           end) (selectedPackIndexes (settings lobby)) |}) open))].

(** [{ ...lobby.settings, ...settings }]. *)
Definition mergeSettings (old : Settings) (patch : SettingsPatch) : Settings :=
  {| scoreToWin := default (scoreToWin old) (sp_scoreToWin patch);
     maxPlayers := default (maxPlayers old) (sp_maxPlayers patch);
     selectedPackIndexes := default (selectedPackIndexes old) (sp_selectedPackIndexes patch);
     isPrivate := default (isPrivate old) (sp_isPrivate patch) |}.

Definition updateSettings (w : World) (socketId lobbyCode : string) (patch : SettingsPatch)
  : Result :=
  match obj_get lobbyCode (lobbies w) with
  | Some lobby =>
      if String.eqb (hostId lobby) socketId && GameState_eqb (gameState lobby) waiting then
        let lobby := set_settings (mergeSettings (settings lobby) patch) lobby in
        Done (putLobby lobbyCode lobby w) [lobbyUpdate lobbyCode lobby]
      else Done w []
  | None => Done w []
  end.

(** Lines 414-419 of [startGame]: every member's score and hand are reset
    and ten cards dealt, in roster order. *)
Fixpoint dealFirstHands (ps : list Player) (lobby : Lobby) (r : Rng)
  : list Player * Lobby * Rng * list Emit :=
  match ps with
  | [] => ([], lobby, r, [])
  | player :: ps' =>
      let player := set_hand [] (set_score 0 player) in
      let '(lobby1, player1, r1) := dealWhiteCards lobby player MAX_HAND_SIZE r in
      let '(ps1, lobby2, r2, out) := dealFirstHands ps' lobby1 r1 in
      (player1 :: ps1, lobby2, r2,
       toSocket (p_id player1) (HandUpdate (p_hand player1)) :: out)
  end.

Definition startGame (w : World) (socketId lobbyCode : string) : Result :=
  match obj_get lobbyCode (lobbies w) with
  | None => Done w []
  | Some lobby =>
      if negb (String.eqb (hostId lobby) socketId) ||
         negb (GameState_eqb (gameState lobby) waiting) then Done w []
      else if (length (players lobby) <? 3)%nat then
        Done w [toSocket socketId (GameError "Need at least 3 players to start.")]
      else
        let '(white, black) :=
          getPacks (globalCAHDeck w) (selectedPackIndexes (settings lobby)) in
        let '(white, r1) := shuffleArray white (rng w) in
        let '(black, r2) := shuffleArray black r1 in
        let lobby := set_whiteDeck white lobby in
        let lobby := set_blackDeck black lobby in
        let lobby := set_whiteDiscard [] lobby in
        let lobby := set_blackDiscard [] lobby in
        let '(ps, lobby, r3, out) := dealFirstHands (players lobby) lobby r2 in
        let lobby := set_players ps lobby in
        match players lobby with
        | [] => Throw
        | first :: _ =>
            let lobby := set_czarId (Some (p_id first)) lobby in
            emitting out (startNextRound lobbyCode (set_rng r3 (putLobby lobbyCode lobby w)))
        end
  end.

(** The loop of lines 440-447: each id must be the id of a card of the
    hand; the cards found, in the order of [cardIds]. *)
Fixpoint resolveCards (hand : list WhiteCard) (cardIds : list string)
  : option (list WhiteCard) :=
  match cardIds with
  | [] => Some []
  | cardId :: cardIds' =>
      match List.find (fun c => String.eqb (wc_id c) cardId) hand with
      | None => None
      | Some c => cons c <$> resolveCards hand cardIds'
      end
  end.

(** A mutation of the player object that [getLobbyPlayer] returns: the
    first roster entry with that id. *)
Fixpoint updatePlayer (playerId : string) (f : Player -> Player) (ps : list Player)
  : list Player :=
  match ps with
  | [] => []
  | p :: ps' =>
      if String.eqb (p_id p) playerId then f p :: ps'
      else p :: updatePlayer playerId f ps'
  end.

(** [lobby.currentBlackCard.pick || 1]. *)
Definition pickCount (c : BlackCard) : Z :=
  if (bc_pick c =? 0)%Z then 1%Z else bc_pick c.

Definition nonCzars (lobby : Lobby) : list Player :=
  List.filter (fun p => negb (idIs (czarId lobby) (p_id p))) (players lobby).

Definition invalidSubmission (n : Z) : string :=
  "Invalid submission. This card requires " +:+ pretty n +:+ " card(s).".

(** [cardIds] is [None] when the client sent something that is not an
    array. *)
Definition submitCards (w : World) (socketId lobbyCode : string)
  (cardIds : option (list string)) : Result :=
  match obj_get lobbyCode (lobbies w) with
  | None => Throw
  | Some lobby =>
      match getLobbyPlayer lobby socketId with
      | None => Done w []
      | Some player =>
          if negb (GameState_eqb (gameState lobby) playing) ||
             idIs (czarId lobby) (p_id player) ||
             hasSubmitted player then Done w []
          else
            match currentBlackCard lobby with
            | None => Throw
            | Some prompt =>
                match cardIds with
                | None =>
                    Done w [toSocket socketId (GameError (invalidSubmission (pickCount prompt)))]
                | Some ids =>
                    if negb (Z.of_nat (length ids) =? pickCount prompt)%Z then
                      Done w [toSocket socketId
                                (GameError (invalidSubmission (pickCount prompt)))]
                    else
                      match resolveCards (p_hand player) ids with
                      | None =>
                          Done w [toSocket socketId (GameError "Invalid card submitted.")]
                      | Some submittedCardsObjects =>
                          let hand' := List.filter
                            (fun card => negb (existsb (String.eqb (wc_id card)) ids))
                            (p_hand player) in
                          let lobby := set_players
                            (updatePlayer socketId
                               (fun p => set_hand hand'
                                  (set_submittedCards (Some submittedCardsObjects) p))
                               (players lobby)) lobby in
                          let lobby := set_roundSubmissions
                            (roundSubmissions lobby ++
                               [{| sub_playerId := p_id player;
                                   sub_playerName := p_name player;
                                   sub_cards := submittedCardsObjects |}]) lobby in
                          let out := [ toSocket socketId (HandUpdate hand');
                                       lobbyUpdate lobbyCode lobby ] in
                          if (length (roundSubmissions lobby) =? length (nonCzars lobby))%nat
                          then
                            let lobby := set_gameState judging lobby in
                            let '(subs, r') := shuffleArray (roundSubmissions lobby) (rng w) in
                            let lobby := set_roundSubmissions subs lobby in
                            Done (set_rng r' (putLobby lobbyCode lobby w))
                                 (out ++ [lobbyUpdate lobbyCode lobby])
                          else Done (putLobby lobbyCode lobby w) out
                      end
                end
            end
      end
  end.

(** The callback of [setTimeout] in [selectWinner]. *)
Definition autoAdvance (lobbyCode : string) (w : World) : Result :=
  match obj_get lobbyCode (lobbies w) with
  | Some lobby =>
      if GameState_eqb (gameState lobby) roundOver &&
         negb (GameState_eqb (gameState lobby) gameOver)
      then startNextRound lobbyCode w
      else Done w []
  | None => Done w []
  end.

Definition selectWinner (w : World) (socketId lobbyCode winningPlayerId : string) : Result :=
  match obj_get lobbyCode (lobbies w) with
  | None => Throw
  | Some lobby =>
      match getLobbyPlayer lobby socketId with
      | None => Done w []
      | Some czar =>
          if negb (GameState_eqb (gameState lobby) judging) ||
             negb (idIs (czarId lobby) (p_id czar)) then Done w []
          else
            match List.find (fun sub => String.eqb (sub_playerId sub) winningPlayerId)
                            (roundSubmissions lobby) with
            | None => Done w []
            | Some winningSubmission =>
                match getLobbyPlayer lobby winningPlayerId with
                | None => Throw
                | Some winner =>
                    let score' := S (p_score winner) in
                    let lobby := set_players
                      (updatePlayer winningPlayerId (set_score score') (players lobby)) lobby in
                    match currentBlackCard lobby with
                    | None => Throw
                    | Some prompt =>
                        let lobby := set_roundWinnerInfo
                          (Some {| winnerName := p_name winner;
                                   winningCardsText := map wc_text (sub_cards winningSubmission);
                                   blackCardText := bc_text prompt |}) lobby in
                        let lobby := set_whiteDiscard
                          (whiteDiscard lobby ++ concat (map sub_cards (roundSubmissions lobby)))
                          lobby in
                        if (Z.of_nat score' >=? scoreToWin (settings lobby))%Z then
                          let lobby := set_gameState gameOver lobby in
                          Done (putLobby lobbyCode lobby w)
                               [ toRoom lobbyCode (GameOverWinner (p_name winner) (players lobby));
                                 lobbyUpdate lobbyCode lobby ]
                        else
                          let lobby := set_gameState roundOver lobby in
                          Done (set_timers (timers w ++ [lobbyCode]) (putLobby lobbyCode lobby w))
                               [lobbyUpdate lobbyCode lobby]
                    end
                end
            end
      end
  end.

Definition requestNextRound (w : World) (socketId lobbyCode : string) : Result :=
  match obj_get lobbyCode (lobbies w) with
  | Some lobby =>
      if (String.eqb (hostId lobby) socketId || GameState_eqb (gameState lobby) roundOver) &&
         negb (GameState_eqb (gameState lobby) gameOver)
      then startNextRound lobbyCode w
      else Done w []
  | None => Done w []
  end.

(** The first lobby, in enumeration order, that has a member with this
    socket id, with the index [findIndex] returns. *)
Fixpoint findLobbyOf (socketId : string) (o : list (string * Lobby))
  : option (string * Lobby * nat) :=
  match o with
  | [] => None
  | (lobbyCode, lobby) :: o' =>
      match findIndex (fun p => String.eqb (p_id p) socketId) (players lobby) with
      | Some playerIndex => Some (lobbyCode, lobby, playerIndex)
      | None => findLobbyOf socketId o'
      end
  end.

Definition disconnect (w : World) (socketId : string) : Result :=
  match findLobbyOf socketId (lobbies w) with
  | None => Done w []
  | Some (lobbyCode, lobby, playerIndex) =>
      let disconnectedPlayerName :=
        default "" (p_name <$> players lobby !! playerIndex) in
      let lobby := set_players (splice1 playerIndex (players lobby)) lobby in
      match players lobby with
      | [] => Done (set_lobbies (obj_delete lobbyCode (lobbies w)) w) []
      | first :: _ =>
          let lobby :=
            if String.eqb (hostId lobby) socketId then set_hostId (p_id first) lobby
            else lobby in
          if negb (GameState_eqb (gameState lobby) waiting) &&
             negb (GameState_eqb (gameState lobby) gameOver) then
            if idIs (czarId lobby) socketId then
              match startNextRound lobbyCode (putLobby lobbyCode lobby w) with
              | Done w' out =>
                  Done w' (toRoom lobbyCode
                             (GameMessage (disconnectedPlayerName +:+
                                           " (Czar) disconnected. Starting new round."))
                           :: out ++ broadcastLobbyState lobbyCode w')
              | other => other
              end
            else if (length (players lobby) <? 3)%nat &&
                    negb (GameState_eqb (gameState lobby) waiting) then
              let lobby := set_gameState gameOver lobby in
              Done (putLobby lobbyCode lobby w)
                   [ toRoom lobbyCode
                       (GameOverMessage "Not enough players to continue." (players lobby));
                     lobbyUpdate lobbyCode lobby ]
            else Done (putLobby lobbyCode lobby w) [lobbyUpdate lobbyCode lobby]
          else Done (putLobby lobbyCode lobby w) [lobbyUpdate lobbyCode lobby]
      end
  end.

(** ** Events *)

Inductive Event :=
| GetPackList
| CreateLobby (attempts : nat) (playerName : string) (st : option SettingsPatch)
| JoinLobby (lobbyCode playerName : string)
| GetPublicLobbies
| UpdateSettings (lobbyCode : string) (patch : SettingsPatch)
| StartGame (lobbyCode : string)
| SubmitCards (lobbyCode : string) (cardIds : option (list string))
| SelectWinner (lobbyCode winningPlayerId : string)
| RequestNextRound (lobbyCode : string)
| Disconnect.

(** What the event loop runs next: a message of a socket, a new connection,
    or the oldest pending timer. *)
Inductive Input :=
| Connects (socketId : string)
| Sends (socketId : string) (e : Event)
| TimerFires.

Definition handle (w : World) (socketId : string) (e : Event) : Result :=
  match e with
  | GetPackList => getPackList w socketId
  | CreateLobby attempts playerName st => createLobby attempts w socketId playerName st
  | JoinLobby lobbyCode playerName => joinLobby w socketId lobbyCode playerName
  | GetPublicLobbies => getPublicLobbies w socketId
  | UpdateSettings lobbyCode patch => updateSettings w socketId lobbyCode patch
  | StartGame lobbyCode => startGame w socketId lobbyCode
  | SubmitCards lobbyCode cardIds => submitCards w socketId lobbyCode cardIds
  | SelectWinner lobbyCode winningPlayerId => selectWinner w socketId lobbyCode winningPlayerId
  | RequestNextRound lobbyCode => requestNextRound w socketId lobbyCode
  | Disconnect => disconnect w socketId
  end.

Definition step (w : World) (i : Input) : Result :=
  match i with
  | Connects socketId => connection w socketId
  | Sends socketId e => handle w socketId e
  | TimerFires =>
      match timers w with
      | [] => Done w []
      | lobbyCode :: pending => autoAdvance lobbyCode (set_timers pending w)
      end
  end.

Fixpoint run (w : World) (inputs : list Input) : Result :=
  match inputs with
  | [] => Done w []
  | i :: inputs' =>
      match step w i with
      | Done w' out => emitting out (run w' inputs')
      | other => other
      end
  end.

(** ** Vocabulary of the statements *)

(** The cards of the white supply: draw pile and discard pile together. *)
Definition whiteSupply (lobby : Lobby) : list WhiteCard :=
  whiteDeck lobby ++ whiteDiscard lobby.

Definition blackSupply (lobby : Lobby) : list BlackCard :=
  blackDeck lobby ++ blackDiscard lobby.

(** [l'] differs from [l] in the two white piles at most. *)
Definition whiteFrame (l l' : Lobby) : Prop :=
  l' = set_whiteDeck (whiteDeck l') (set_whiteDiscard (whiteDiscard l') l).

(** [l'] differs from [l] in the two black piles at most. *)
Definition blackFrame (l l' : Lobby) : Prop :=
  l' = set_blackDeck (blackDeck l') (set_blackDiscard (blackDiscard l') l).

(** The cards a hand is short of [MAX_HAND_SIZE]. *)
Definition cardsNeeded (p : Player) : nat := MAX_HAND_SIZE - length (p_hand p).

Definition totalNeeded (ps : list Player) : nat := sum_list (cardsNeeded <$> ps).

(** [p'] is [p] with cards added at the end of the hand. *)
Definition handGrown (p p' : Player) : Prop :=
  p' = set_hand (p_hand p') p /\ exists dealt, p_hand p' = p_hand p ++ dealt.

(** The remaining fields of a lobby, which a round start leaves alone. *)
Definition sameSession (l l' : Lobby) : Prop :=
  code l' = code l /\ hostId l' = hostId l /\ settings l' = settings l.

(** A submission the handler must refuse: no array, an array of the wrong
    length, or an id that no card of the hand carries. *)
Definition badCardIds (prompt : BlackCard) (hand : list WhiteCard)
  (cardIds : option (list string)) : Prop :=
  match cardIds with
  | None => True
  | Some ids =>
      Z.of_nat (length ids) <> pickCount prompt \/
      exists cardId, cardId ∈ ids /\ Forall (fun c => wc_id c <> cardId) hand
  end.

(** ** A catalogue and games to run *)

Definition whiteCardsOfPack (n : nat) : list DeckWhite :=
  map (fun i => {| dw_text := "white " +:+ pretty i; dw_pack := 0 |}) (seq 0 n).

(** Pack 0: 45 white cards, three prompts. *)
Definition basePack : Pack :=
  {| pk_name := "Base"; pk_official := true; pk_description := "";
     pk_white := whiteCardsOfPack 45;
     pk_black := [ {| db_text := "Q1"; db_pick := 1; db_pack := 0 |};
                   {| db_text := "Q2"; db_pick := 1; db_pack := 0 |};
                   {| db_text := "Q3"; db_pick := 2; db_pack := 0 |} ] |}.

(** Pack 1: 45 white cards and a single prompt. *)
Definition tinyPack : Pack :=
  {| pk_name := "Tiny"; pk_official := false; pk_description := "";
     pk_white := whiteCardsOfPack 45;
     pk_black := [ {| db_text := "Q1"; db_pick := 1; db_pack := 1 |} ] |}.

(** Pack 2: 30 white cards, not enough for four hands. *)
Definition shortPack : Pack :=
  {| pk_name := "Short"; pk_official := false; pk_description := "";
     pk_white := whiteCardsOfPack 30;
     pk_black := [ {| db_text := "Q1"; db_pick := 1; db_pack := 2 |};
                   {| db_text := "Q2"; db_pick := 1; db_pack := 2 |};
                   {| db_text := "Q3"; db_pick := 1; db_pack := 2 |} ] |}.

(** A freshly started server whose [Math.random()] always returns [0]: the
    first lobby code is ["00000"]. *)
Definition world0 : World :=
  {| lobbies := [];
     config := {| allowSameNames := false; roomsFunctionality := true |};
     globalCAHDeck := [basePack; tinyPack; shortPack];
     rng := fun _ => 0;
     timers := [] |}.

Definition usePacks (indexes : list nat) : SettingsPatch :=
  {| sp_scoreToWin := None; sp_maxPlayers := None;
     sp_selectedPackIndexes := Some indexes; sp_isPrivate := None |}.

(** Socket [s0] creates the lobby, [s1] and [s2] join. *)
Definition lobbyOfThree (st : option SettingsPatch) : list Input :=
  [ Sends "s0" (CreateLobby 1 "Ann" st);
    Sends "s1" (JoinLobby "00000" "Bob");
    Sends "s2" (JoinLobby "00000" "Cy") ].

Definition lobbyOfFour (st : option SettingsPatch) : list Input :=
  lobbyOfThree st ++ [ Sends "s3" (JoinLobby "00000" "Di") ].

Definition gameOfThree (st : option SettingsPatch) : list Input :=
  lobbyOfThree st ++ [ Sends "s0" (StartGame "00000") ].

Definition gameOfFour (st : option SettingsPatch) : list Input :=
  lobbyOfFour st ++ [ Sends "s0" (StartGame "00000") ].

Definition submits (socketId cardId : string) : Input :=
  Sends socketId (SubmitCards "00000" (Some [cardId])).

(** In [gameOfFour None] the czar is [s1]; these are the three submissions
    of the first round. *)
Definition allSubmit : list Input :=
  [ submits "s0" "w_0"; submits "s2" "w_25"; submits "s3" "w_15" ].

Definition worldAfter (inputs : list Input) : option World :=
  match run world0 inputs with
  | Done w _ => Some w
  | _ => None
  end.

Definition lobbyAfter (inputs : list Input) : option Lobby :=
  worldAfter inputs ≫= fun w => obj_get "00000" (lobbies w).

(** The ids of the white cards a lobby holds: both piles, the hands, and
    the pending submissions. *)
Definition liveWhiteIds (lobby : Lobby) : list string :=
  wc_id <$> (whiteDeck lobby ++ whiteDiscard lobby ++
             concat (p_hand <$> players lobby) ++
             concat (sub_cards <$> roundSubmissions lobby)).

(** A lobby whose two draw piles are used up. *)
Definition spentLobby : Lobby :=
  {| code := "00000"; players := []; hostId := "s0"; gameState := roundOver;
     settings := {| scoreToWin := 7; maxPlayers := 10;
                    selectedPackIndexes := [0]; isPrivate := false |};
     whiteDeck := []; blackDeck := [];
     whiteDiscard := [ {| wc_text := "white 0"; wc_pack := 0; wc_id := "w_0" |};
                       {| wc_text := "white 1"; wc_pack := 0; wc_id := "w_1" |};
                       {| wc_text := "white 2"; wc_pack := 0; wc_id := "w_2" |} ];
     blackDiscard := [ {| bc_text := "Q1"; bc_pick := 1; bc_pack := 0; bc_id := "b_45" |};
                       {| bc_text := "Q2"; bc_pick := 1; bc_pack := 0; bc_id := "b_46" |} ];
     currentBlackCard := None; czarId := None;
     roundSubmissions := []; roundWinnerInfo := None |}.

(** The first round of [gameOfFour None], nobody has submitted yet. *)
Definition playingWorld : World := default world0 (worldAfter (gameOfFour None)).

(** The czar [s1] has picked [s3], and the host [s0] has asked for the next
    round before the timer of the pick went off. *)
Definition staleTimerWorld : World :=
  default world0 (worldAfter (gameOfFour None ++ allSubmit ++
    [ Sends "s1" (SelectWinner "00000" "s3"); Sends "s0" (RequestNextRound "00000") ])).

(** The keys of the registry are distinct, as the property names of an
    object are. *)
Definition wellKeyed (w : World) : Prop := NoDup (lobbies w).*1.



(** All three non-czar members have submitted: the lobby is in [judging]. *)
Definition judgingWorld : World :=
  default world0 (worldAfter (gameOfFour None ++ allSubmit)).


(** The worlds the server can be in: it boots with an empty registry and
    no timer, and then runs one input after the other. *)
Inductive reachable : World -> Prop :=
| reach_boot w :
    lobbies w = [] -> timers w = [] -> reachable w
| reach_step w i w' out :
    reachable w -> step w i = Done w' out -> reachable w'.

(** The timer callback as the second copy of the server in the repository
    has it (the file kept without its name): it tests
    [gameState !== 'gameOver'] only. *)
Definition autoAdvanceLegacy (lobbyCode : string) (w : World) : Result :=
  match obj_get lobbyCode (lobbies w) with
  | Some lobby =>
      if negb (GameState_eqb (gameState lobby) gameOver)
      then startNextRound lobbyCode w
      else Done w []
  | None => Done w []
  end.

(** ** Vocabulary of the further properties *)

(** The random stream after [n] calls of [Math.random()]. *)
Definition rng_drop (n : nat) (r : Rng) : Rng := fun k => r (n + k).

(** The packs an index list selects: all of them for the empty list,
    otherwise the ones that exist, in the order asked for. *)
Definition selectedPacks (deck : list Pack) (indexes : list nat) : list Pack :=
  omap (fun i => deck !! i)
       (match indexes with [] => seq 0 (length deck) | _ => indexes end).

(** A dealt card as the catalogue has it, without the id [getPacks] adds. *)
Definition whiteFace (c : WhiteCard) : DeckWhite :=
  {| dw_text := wc_text c; dw_pack := wc_pack c |}.

Definition blackFace (c : BlackCard) : DeckBlack :=
  {| db_text := bc_text c; db_pick := bc_pick c; db_pack := bc_pack c |}.

(** The code that the [k]-th turn of the loop of [generateLobbyCode] draws:
    every turn takes one number of the random stream. *)
Definition nthCode (k : nat) (r : Rng) : string := (randomCode (rng_drop k r)).1.

(** The second round of [gameOfFour None], which the host has forced: the
    czar is [s2] and the prompt asks for two cards. *)
Definition pickTwoWorld : World :=
  default world0 (worldAfter (gameOfFour None ++ [Sends "s0" (RequestNextRound "00000")])).

(** A round is on: the lobby plays, judges or shows the result. *)
Definition inRound (s : GameState) : Prop := s = playing \/ s = judging \/ s = roundOver.

(** What holds of every lobby the server has registered under [c]: it
    knows its code, has a member, its host is a member, while a round is on
    it has a prompt and a czar who is a member, and while it waits for the
    game to start it holds no cards. *)
Definition lobbySound (c : string) (lobby : Lobby) : Prop :=
  code lobby = c /\
  players lobby <> [] /\
  hostId lobby ∈ p_id <$> players lobby /\
  (inRound (gameState lobby) ->
   is_Some (currentBlackCard lobby) /\
   exists czar, czarId lobby = Some czar /\ czar ∈ p_id <$> players lobby) /\
  (gameState lobby = waiting ->
   whiteSupply lobby = [] /\ blackSupply lobby = [] /\ currentBlackCard lobby = None).

Definition worldSound (w : World) : Prop :=
  forall c lobby, obj_get c (lobbies w) = Some lobby -> lobbySound c lobby.

(** The whole numbers that [parseInt(packIndex, 10)] gives back unchanged:
    those JavaScript writes in plain decimal digits. *)
Definition plainIndex (i : nat) : Prop := (N.of_nat i < 10 ^ 21)%N.

(** ASCII text: every character code is below 128. *)
Definition isAscii (s : string) : bool :=
  forallb (fun a => (nat_of_ascii a <? 128)%nat) (list_ascii_of_string s).

(** The pick of [s3] has ended the first round of [gameOfFour None]: the
    lobby is in [roundOver] and the timer of the pick is pending. *)
Definition roundOverWorld : World :=
  default world0 (worldAfter (gameOfFour None ++ allSubmit ++
    [ Sends "s1" (SelectWinner "00000" "s3") ])).

(** The second round, played from [staleTimerWorld] to its end: the three
    members who are not the czar [s2] submit two cards each and the czar
    picks [s0]. *)
Definition secondRound : list Input :=
  [ Sends "s0" (SubmitCards "00000" (Some ["w_44"; "w_43"]));
    Sends "s1" (SubmitCards "00000" (Some ["w_35"; "w_34"]));
    Sends "s3" (SubmitCards "00000" (Some ["w_14"; "w_13"]));
    Sends "s2" (SelectWinner "00000" "s0") ].

(** The second round is over while the timer of the first is still
    pending: two timers wait, the older one first. *)
Definition twoTimersWorld : World :=
  default world0 (worldAfter (gameOfFour None ++ allSubmit ++
    [ Sends "s1" (SelectWinner "00000" "s3"); Sends "s0" (RequestNextRound "00000") ] ++
    secondRound)).

(** * Properties *)

(** ** The registry object *)

Arguments obj_get : simpl never.
Arguments obj_set : simpl never.
Arguments obj_delete : simpl never.

Section JsObjectFacts.
Context {V : Type}.
Implicit Types (o : list (string * V)) (k : string) (v : V).

Lemma obj_get_cons k k' v o :
  obj_get k ((k', v) :: o) = if String.eqb k' k then Some v else obj_get k o.
Proof. unfold obj_get; simpl. by destruct (String.eqb k' k). Qed.

Lemma obj_get_app_absent k k' v o :
  obj_get k o = None -> obj_get k (o ++ [(k', v)]) = if String.eqb k' k then Some v else None.
Proof.
  induction o as [|[k0 v0] o IH]; intros H; simpl.
  - by rewrite obj_get_cons.
  - rewrite obj_get_cons in H. rewrite obj_get_cons. destruct (String.eqb k0 k); [done | auto].
Qed.

Lemma obj_get_app_other k k' v o :
  k' <> k -> obj_get k (o ++ [(k', v)]) = obj_get k o.
Proof.
  intros Hne. induction o as [|[k0 v0] o IH]; simpl.
  - rewrite obj_get_cons. apply String.eqb_neq in Hne. by rewrite Hne.
  - rewrite !obj_get_cons. by destruct (String.eqb k0 k).
Qed.

Lemma obj_get_replace_eq k v o :
  is_Some (obj_get k o) -> obj_get k (obj_replace k v o) = Some v.
Proof.
  induction o as [|[k0 v0] o IH]; simpl; intros [x Hx]; [done|].
  rewrite obj_get_cons in Hx.
  destruct (String.eqb k0 k) eqn:E; rewrite obj_get_cons E; [done | eauto].
Qed.

Lemma obj_get_replace_ne k k' v o :
  k' <> k -> obj_get k (obj_replace k' v o) = obj_get k o.
Proof.
  intros Hne. induction o as [|[k0 v0] o IH]; simpl; [done|].
  destruct (String.eqb k0 k') eqn:E; rewrite !obj_get_cons; [|by rewrite IH].
  apply String.eqb_eq in E; subst k0.
  apply String.eqb_neq in Hne. by rewrite Hne.
Qed.

Lemma obj_get_insert_index_eq n k v o :
  obj_get k o = None -> obj_get k (obj_insert_index n k v o) = Some v.
Proof.
  induction o as [|[k0 v0] o IH]; simpl; intros H.
  - by rewrite obj_get_cons String.eqb_refl.
  - rewrite obj_get_cons in H. destruct (String.eqb k0 k) eqn:E; [done|].
    destruct (arrayIndex k0) as [m|]; [destruct (m <? n)%N|];
      rewrite obj_get_cons ?E ?String.eqb_refl; auto.
Qed.

Lemma obj_get_insert_index_ne n k k' v o :
  k' <> k -> obj_get k (obj_insert_index n k' v o) = obj_get k o.
Proof.
  intros Hne. pose proof Hne as Hb. apply String.eqb_neq in Hb.
  induction o as [|[k0 v0] o IH]; simpl.
  - by rewrite obj_get_cons Hb.
  - destruct (arrayIndex k0) as [m|]; [destruct (m <? n)%N|];
      rewrite !obj_get_cons ?Hb ?IH; done.
Qed.

Lemma obj_get_set_eq k v o : obj_get k (obj_set k v o) = Some v.
Proof.
  unfold obj_set. destruct (obj_get k o) eqn:E.
  - apply obj_get_replace_eq. by rewrite E.
  - unfold obj_add. destruct (arrayIndex k).
    + by apply obj_get_insert_index_eq.
    + by rewrite obj_get_app_absent // String.eqb_refl.
Qed.

Lemma obj_get_set_ne k k' v o : k' <> k -> obj_get k (obj_set k' v o) = obj_get k o.
Proof.
  intros Hne. unfold obj_set. destruct (obj_get k' o).
  - by apply obj_get_replace_ne.
  - unfold obj_add. destruct (arrayIndex k').
    + by apply obj_get_insert_index_ne.
    + by apply obj_get_app_other.
Qed.

Lemma obj_get_set k k' v o :
  obj_get k (obj_set k' v o) = if String.eqb k' k then Some v else obj_get k o.
Proof.
  destruct (String.eqb k' k) eqn:E.
  - apply String.eqb_eq in E; subst. apply obj_get_set_eq.
  - apply String.eqb_neq in E. by apply obj_get_set_ne.
Qed.

Lemma obj_get_delete k k' o :
  obj_get k (obj_delete k' o) = if String.eqb k' k then None else obj_get k o.
Proof.
  unfold obj_delete. induction o as [|[k0 v0] o IH]; simpl.
  - by destruct (String.eqb k' k).
  - rewrite obj_get_cons. destruct (String.eqb k0 k') eqn:E0; simpl.
    + apply String.eqb_eq in E0; subst k0. rewrite IH. by destruct (String.eqb k' k).
    + rewrite obj_get_cons IH. destruct (String.eqb k0 k) eqn:E1; [|done].
      apply String.eqb_eq in E1; subst k0.
      rewrite String.eqb_sym in E0. by rewrite E0.
Qed.

Lemma obj_get_Some_elem k v o : obj_get k o = Some v -> (k, v) ∈ o.
Proof.
  induction o as [|[k0 v0] o IH]; [done|].
  rewrite obj_get_cons. destruct (String.eqb k0 k) eqn:E.
  - apply String.eqb_eq in E; subst. intros [= ->]. left.
  - intros H. right. auto.
Qed.

Lemma obj_get_NoDup k v o : NoDup o.*1 -> (k, v) ∈ o -> obj_get k o = Some v.
Proof.
  induction o as [|[k0 v0] o IH]; simpl; [by intros _ ?%elem_of_nil|].
  intros [Hnotin Hnd]%NoDup_cons [Heq|Hin]%elem_of_cons; rewrite obj_get_cons.
  - injection Heq as -> ->. by rewrite String.eqb_refl.
  - destruct (String.eqb k0 k) eqn:E; [|auto].
    apply String.eqb_eq in E; subst k0. exfalso. apply Hnotin.
    apply list_elem_of_fmap. by exists (k, v).
Qed.
End JsObjectFacts.

(** ** Shuffling permutes *)

Lemma swap_Permutation {A} (i j : nat) (l : list A) : swap i j l ≡ₚ l.
Proof.
  unfold swap. destruct (l !! i) as [ai|] eqn:Hi; [|done].
  destruct (l !! j) as [aj|] eqn:Hj; [|done].
  by apply Permutation_insert_swap.
Qed.

Lemma shuffleFrom_Permutation {A} (i : nat) (l : list A) (r : Rng) :
  (shuffleFrom i l r).1 ≡ₚ l.
Proof.
  revert l r. induction i as [|i IH]; intros l r; simpl; [done|].
  rewrite IH. apply swap_Permutation.
Qed.

Lemma shuffleArray_Permutation {A} (l : list A) (r : Rng) : (shuffleArray l r).1 ≡ₚ l.
Proof. apply shuffleFrom_Permutation. Qed.

Lemma shuffleArray_length {A} (l : list A) (r : Rng) :
  length (shuffleArray l r).1 = length l.
Proof. apply Permutation_length, shuffleArray_Permutation. Qed.

Lemma shuffleArray_nil_inv {A} (l : list A) (r : Rng) : (shuffleArray l r).1 = [] -> l = [].
Proof.
  intros H. pose proof (shuffleArray_length l r) as Hl. rewrite H in Hl.
  by destruct l.
Qed.

(** ** The card supply *)

Lemma pop_Some {A} (l l' : list A) (x : A) : pop l = Some (l', x) <-> l = l' ++ [x].
Proof.
  unfold pop. split.
  - destruct (last l) as [y|] eqn:E; [|done].
    intros [= <- <-]. apply last_Some in E as [l0 ->]. by rewrite removelast_last.
  - intros ->. by rewrite last_snoc removelast_last.
Qed.

Lemma pop_None {A} (l : list A) : pop l = None <-> l = [].
Proof.
  unfold pop. split.
  - destruct (last l) eqn:E; [done|]. intros _. by apply last_None.
  - by intros ->.
Qed.

Lemma pop_nonempty {A} (l : list A) : l <> [] -> exists l' x, pop l = Some (l', x).
Proof.
  intros Hne. destruct (pop l) as [[l' x]|] eqn:E; [eauto|].
  by apply pop_None in E.
Qed.

Lemma refillWhiteDeck_reshuffles lobby r :
  whiteDeck lobby = [] -> whiteDiscard lobby <> [] ->
  exists lobby' r',
    refillWhiteDeck lobby r = Some (lobby', r') /\
    whiteDeck lobby' ≡ₚ whiteDiscard lobby /\
    whiteDiscard lobby' = [] /\
    lobby' = set_whiteDeck (whiteDeck lobby') (set_whiteDiscard [] lobby).
Proof.
  intros Hdeck Hdisc. unfold refillWhiteDeck. rewrite Hdeck.
  destruct (whiteDiscard lobby) as [|c cs] eqn:E; [done|].
  pose proof (shuffleArray_Permutation (c :: cs) r) as Hp.
  destruct (shuffleArray (c :: cs) r) as [deck r'].
  exists (set_whiteDeck deck (set_whiteDiscard [] lobby)), r'. by simpl in *.
Qed.

Lemma refillWhiteDeck_idle lobby r :
  whiteDeck lobby <> [] -> refillWhiteDeck lobby r = Some (lobby, r).
Proof. intros H. unfold refillWhiteDeck. by destruct (whiteDeck lobby). Qed.

Lemma refillWhiteDeck_exhausted lobby r :
  whiteDeck lobby = [] -> whiteDiscard lobby = [] -> refillWhiteDeck lobby r = None.
Proof. intros H1 H2. unfold refillWhiteDeck. by rewrite H1 H2. Qed.

Lemma refillBlackDeck_reshuffles lobby r :
  blackDeck lobby = [] -> blackDiscard lobby <> [] ->
  exists lobby' r',
    refillBlackDeck lobby r = Some (lobby', r') /\
    blackDeck lobby' ≡ₚ blackDiscard lobby /\
    blackDiscard lobby' = [] /\
    lobby' = set_blackDeck (blackDeck lobby') (set_blackDiscard [] lobby).
Proof.
  intros Hdeck Hdisc. unfold refillBlackDeck. rewrite Hdeck.
  destruct (blackDiscard lobby) as [|c cs] eqn:E; [done|].
  pose proof (shuffleArray_Permutation (c :: cs) r) as Hp.
  destruct (shuffleArray (c :: cs) r) as [deck r'].
  exists (set_blackDeck deck (set_blackDiscard [] lobby)), r'. by simpl in *.
Qed.

Lemma refillBlackDeck_idle lobby r :
  blackDeck lobby <> [] -> refillBlackDeck lobby r = Some (lobby, r).
Proof. intros H. unfold refillBlackDeck. by destruct (blackDeck lobby). Qed.

Lemma refillBlackDeck_exhausted lobby r :
  blackDeck lobby = [] -> blackDiscard lobby = [] -> refillBlackDeck lobby r = None.
Proof. intros H1 H2. unfold refillBlackDeck. by rewrite H1 H2. Qed.

(** Whatever the refill does, it leaves a non-empty draw pile holding the
    same supply, and touches nothing but the two piles. *)
Lemma refillWhiteDeck_Some lobby r lobby' r' :
  refillWhiteDeck lobby r = Some (lobby', r') ->
  whiteDeck lobby' <> [] /\
  whiteSupply lobby' ≡ₚ whiteSupply lobby /\
  lobby' = set_whiteDeck (whiteDeck lobby') (set_whiteDiscard (whiteDiscard lobby') lobby).
Proof.
  unfold whiteSupply. destruct (whiteDeck lobby) as [|c cs] eqn:Hd.
  - destruct (whiteDiscard lobby) as [|d ds] eqn:Hs.
    + by rewrite refillWhiteDeck_exhausted.
    + destruct (refillWhiteDeck_reshuffles lobby r) as (l1 & r1 & -> & Hp & Hnil & Heq);
        [done | by rewrite Hs |].
      intros [= <- <-]. rewrite Hnil app_nil_r. split_and!.
      * intros Hn. rewrite Hn Hs in Hp. by apply Permutation_nil_l in Hp.
      * by rewrite Hp Hs.
      * done.
  - rewrite refillWhiteDeck_idle; [by rewrite Hd|].
    intros [= <- <-]. rewrite Hd. split_and!; [done..|]. by destruct lobby; simpl in *; subst.
Qed.

Lemma refillBlackDeck_Some lobby r lobby' r' :
  refillBlackDeck lobby r = Some (lobby', r') ->
  blackDeck lobby' <> [] /\
  blackSupply lobby' ≡ₚ blackSupply lobby /\
  lobby' = set_blackDeck (blackDeck lobby') (set_blackDiscard (blackDiscard lobby') lobby).
Proof.
  unfold blackSupply. destruct (blackDeck lobby) as [|c cs] eqn:Hd.
  - destruct (blackDiscard lobby) as [|d ds] eqn:Hs.
    + by rewrite refillBlackDeck_exhausted.
    + destruct (refillBlackDeck_reshuffles lobby r) as (l1 & r1 & -> & Hp & Hnil & Heq);
        [done | by rewrite Hs |].
      intros [= <- <-]. rewrite Hnil app_nil_r. split_and!.
      * intros Hn. rewrite Hn Hs in Hp. by apply Permutation_nil_l in Hp.
      * by rewrite Hp Hs.
      * done.
  - rewrite refillBlackDeck_idle; [by rewrite Hd|].
    intros [= <- <-]. rewrite Hd. split_and!; [done..|]. by destruct lobby; simpl in *; subst.
Qed.

Lemma whiteFrame_refl l : whiteFrame l l.
Proof. by destruct l. Qed.

Lemma whiteFrame_trans l1 l2 l3 : whiteFrame l1 l2 -> whiteFrame l2 l3 -> whiteFrame l1 l3.
Proof.
  unfold whiteFrame, set_whiteDeck, set_whiteDiscard.
  destruct l1, l2, l3; simpl; congruence.
Qed.

Lemma whiteFrame_set_whiteDeck l d : whiteFrame l (set_whiteDeck d l).
Proof. by destruct l. Qed.

Lemma whiteFrame_fields l l' :
  whiteFrame l l' ->
  code l' = code l /\ players l' = players l /\ hostId l' = hostId l /\
  gameState l' = gameState l /\ settings l' = settings l /\
  blackDeck l' = blackDeck l /\ blackDiscard l' = blackDiscard l /\
  currentBlackCard l' = currentBlackCard l /\ czarId l' = czarId l /\
  roundSubmissions l' = roundSubmissions l /\ roundWinnerInfo l' = roundWinnerInfo l.
Proof. intros ->. by destruct l. Qed.

(** Dealing moves cards from the supply to the end of the hand: as many as
    asked for, or as many as the supply holds. *)
Lemma dealWhiteCards_spec count : forall lobby player r,
  let '(lobby', player', r') := dealWhiteCards lobby player count r in
  whiteFrame lobby lobby' /\
  player' = set_hand (p_hand player') player /\
  (exists dealt, p_hand player' = p_hand player ++ dealt /\
                 length dealt = count `min` length (whiteSupply lobby) /\
                 whiteSupply lobby' ++ dealt ≡ₚ whiteSupply lobby).
Proof.
  induction count as [|count IH]; intros lobby player r; [simpl | cbn [dealWhiteCards]].
  - split_and!; [apply whiteFrame_refl | by destruct player |].
    exists []. by rewrite !app_nil_r.
  - destruct (refillWhiteDeck lobby r) as [[lobby1 r1]|] eqn:Hre.
    + apply refillWhiteDeck_Some in Hre as (Hne & Hperm & Hfr).
      destruct (pop_nonempty _ Hne) as (deck' & c & Hpop). rewrite Hpop.
      apply pop_Some in Hpop.
      specialize (IH (set_whiteDeck deck' lobby1) (set_hand (p_hand player ++ [c]) player) r1).
      destruct (dealWhiteCards _ _ count r1) as [[lobby' player'] r'].
      destruct IH as (Hfr' & Hpl & dealt & Hhand & Hlen & Hp).
      split_and!.
      * eapply whiteFrame_trans; [exact Hfr|].
        eapply whiteFrame_trans; [apply (whiteFrame_set_whiteDeck _ deck')|exact Hfr'].
      * rewrite {1}Hpl. by destruct player.
      * exists (c :: dealt). simpl in Hhand, Hlen, Hp. unfold whiteSupply in *. simpl in *.
        rewrite Hpop in Hperm.
        assert (Hl : length (whiteDeck lobby ++ whiteDiscard lobby)
                     = S (length (deck' ++ whiteDiscard lobby1))).
        { rewrite -Hperm !length_app /=. lia. }
        split_and!.
        -- by rewrite Hhand -assoc.
        -- rewrite /= Hlen Hl. lia.
        -- rewrite -Hperm -Permutation_middle Hp. solve_Permutation.
    + split_and!; [apply whiteFrame_refl | by destruct player |].
      exists []. rewrite !app_nil_r. split_and!; [done| |done].
      unfold refillWhiteDeck, whiteSupply in *.
      destruct (whiteDeck lobby); [|done].
      destruct (whiteDiscard lobby); [by rewrite Nat.min_0_r|].
      by destruct (shuffleArray _ r).
Qed.

Lemma handGrown_fields p p' :
  handGrown p p' ->
  p_id p' = p_id p /\ p_name p' = p_name p /\ p_score p' = p_score p /\
  p_submittedCards p' = p_submittedCards p.
Proof. intros [-> _]. by destruct p. Qed.

Lemma topUpHands_spec ps : forall lobby r,
  let '(ps', lobby', r', out) := topUpHands ps lobby r in
  whiteFrame lobby lobby' /\
  Forall2 handGrown ps ps' /\
  whiteSupply lobby' ++ concat (p_hand <$> ps') ≡ₚ whiteSupply lobby ++ concat (p_hand <$> ps) /\
  (totalNeeded ps <= length (whiteSupply lobby) ->
   Forall (fun p' => MAX_HAND_SIZE <= length (p_hand p')) ps').
Proof.
  induction ps as [|p ps IH]; intros lobby r; cbn [topUpHands].
  - split_and!; [apply whiteFrame_refl | constructor | done | constructor].
  - set (n := MAX_HAND_SIZE - length (p_hand p)).
    assert (Hdeal : exists lobby1 p1 r1,
      (if (0 <? n)%nat then dealWhiteCards lobby p n r else (lobby, p, r)) = (lobby1, p1, r1) /\
      whiteFrame lobby lobby1 /\ handGrown p p1 /\
      (exists dealt, p_hand p1 = p_hand p ++ dealt /\
                     length dealt = n `min` length (whiteSupply lobby) /\
                     whiteSupply lobby1 ++ dealt ≡ₚ whiteSupply lobby)).
    { destruct (0 <? n)%nat eqn:Hn.
      - pose proof (dealWhiteCards_spec n lobby p r) as H.
        destruct (dealWhiteCards lobby p n r) as [[lobby1 p1] r1].
        destruct H as (Hfr & Hp1 & dealt & Hh & Hl & Hperm).
        exists lobby1, p1, r1. split_and!; [done..| |]; [by split; eauto | eauto].
      - apply Nat.ltb_ge in Hn. exists lobby, p, r.
        split_and!; [done | apply whiteFrame_refl | | ].
        + split; [by destruct p | exists []; by rewrite app_nil_r].
        + exists []. rewrite !app_nil_r. split_and!; [done | | done].
          assert (n = 0) as -> by lia. done. }
    destruct Hdeal as (lobby1 & p1 & r1 & -> & Hfr1 & Hg1 & dealt & Hh & Hl & Hperm).
    specialize (IH lobby1 r1).
    destruct (topUpHands ps lobby1 r1) as [[[ps' lobby'] r'] out].
    destruct IH as (Hfr & Hall & Hcons & Hfull).
    split_and!.
    + by eapply whiteFrame_trans.
    + by constructor.
    + rewrite !fmap_cons /= Hh. rewrite -Hperm.
      trans ((p_hand p ++ dealt) ++ (whiteSupply lobby' ++ concat (p_hand <$> ps')));
        [solve_Permutation|].
      rewrite Hcons. solve_Permutation.
    + unfold totalNeeded. rewrite fmap_cons /=. fold (totalNeeded ps).
      unfold cardsNeeded at 1. fold n. intros Hle.
      apply Permutation_length in Hperm. rewrite length_app in Hperm.
      constructor.
      * rewrite Hh length_app Hl. unfold n in *. lia.
      * apply Hfull. lia.
Qed.

(** Where the white supply has the cards, each hand gets exactly what it
    is short of. *)
Lemma topUpHands_exact ps : forall lobby r,
  totalNeeded ps <= length (whiteSupply lobby) ->
  Forall2 (fun p p' => exists dealt, p_hand p' = p_hand p ++ dealt /\
                                     length dealt = cardsNeeded p)
          ps (topUpHands ps lobby r).1.1.1.
Proof.
  induction ps as [|p ps IH]; intros lobby r Hle; cbn [topUpHands]; [constructor|].
  unfold totalNeeded in Hle. rewrite fmap_cons /= in Hle. fold (totalNeeded ps) in Hle.
  unfold cardsNeeded at 1 in Hle.
  set (n := MAX_HAND_SIZE - length (p_hand p)) in *.
  assert (Hdeal : exists lobby1 p1 r1,
    (if (0 <? n)%nat then dealWhiteCards lobby p n r else (lobby, p, r)) = (lobby1, p1, r1) /\
    (exists dealt, p_hand p1 = p_hand p ++ dealt /\ length dealt = n /\
                   length (whiteSupply lobby1) + n = length (whiteSupply lobby))).
  { destruct (0 <? n)%nat eqn:Hn.
    - pose proof (dealWhiteCards_spec n lobby p r) as H.
      destruct (dealWhiteCards lobby p n r) as [[lobby1 p1] r1].
      destruct H as (_ & _ & dealt & Hh & Hl & Hperm).
      exists lobby1, p1, r1. split; [done|]. exists dealt.
      apply Permutation_length in Hperm. rewrite length_app in Hperm.
      split_and!; [done|lia|lia].
    - apply Nat.ltb_ge in Hn. exists lobby, p, r. split; [done|].
      exists []. rewrite app_nil_r. split_and!; [done|simpl; lia|lia]. }
  destruct Hdeal as (lobby1 & p1 & r1 & -> & dealt & Hh & Hl & Hsup).
  specialize (IH lobby1 r1).
  destruct (topUpHands ps lobby1 r1) as [[[ps' lobby'] r'] out]. simpl in *.
  constructor; [by exists dealt|]. apply IH. lia.
Qed.

(** ** Starting a round *)

Lemma findIndex_fmap {A B} (f : B -> bool) (g : A -> B) (l : list A) :
  findIndex f (g <$> l) = findIndex (fun x => f (g x)) l.
Proof. induction l as [|x l IH]; simpl; [done|]. by rewrite IH. Qed.

Lemma findIndex_Some {A} (f : A -> bool) (l : list A) (i : nat) :
  findIndex f l = Some i ->
  exists x, l !! i = Some x /\ f x = true /\ Forall (fun y => f y = false) (take i l).
Proof.
  revert i. induction l as [|y l IH]; intros i; simpl; [done|].
  destruct (f y) eqn:E.
  - intros [= <-]. exists y. by split_and!; [..|constructor].
  - destruct (findIndex f l) as [j|]; [|done]. intros [= <-].
    destruct (IH j eq_refl) as (x & ? & ? & ?). exists x. split_and!; [done..|].
    simpl. by constructor.
Qed.

Lemma findIndex_None {A} (f : A -> bool) (l : list A) :
  findIndex f l = None <-> Forall (fun y => f y = false) l.
Proof.
  induction l as [|y l IH]; simpl; [by split; [constructor|]|].
  destruct (f y) eqn:E.
  - split; [done|]. intros [? _]%Forall_cons. congruence.
  - destruct (findIndex f l); split.
    + done.
    + intros [_ H]%Forall_cons. by apply IH in H.
    + intros _. constructor; [done|]. by apply IH.
    + done.
Qed.

Lemma find_findIndex {A} (f : A -> bool) (l : list A) :
  List.find f l = (findIndex f l ≫= fun i => l !! i).
Proof.
  induction l as [|y l IH]; simpl; [done|].
  destruct (f y); [done|]. rewrite IH. by destruct (findIndex f l).
Qed.

Lemma nextCzarIndex_lt lobby :
  players lobby <> [] -> nextCzarIndex lobby < length (players lobby).
Proof.
  intros Hne. unfold nextCzarIndex.
  assert (0 < length (players lobby)) by (destruct (players lobby); [done | simpl; lia]).
  destruct (findIndex _ _); [|done].
  apply Nat.mod_upper_bound. lia.
Qed.

Lemma nextCzarIndex_cleared lobby gs subs info :
  nextCzarIndex
    (set_players (set_submittedCards None <$> players lobby)
       (set_roundWinnerInfo info (set_roundSubmissions subs (set_gameState gs lobby))))
  = nextCzarIndex lobby.
Proof.
  unfold nextCzarIndex. simpl. by rewrite findIndex_fmap length_fmap.
Qed.

Lemma blackFrame_fields l l' :
  blackFrame l l' ->
  code l' = code l /\ players l' = players l /\ hostId l' = hostId l /\
  gameState l' = gameState l /\ settings l' = settings l /\
  whiteDeck l' = whiteDeck l /\ whiteDiscard l' = whiteDiscard l /\
  currentBlackCard l' = currentBlackCard l /\ czarId l' = czarId l /\
  roundSubmissions l' = roundSubmissions l /\ roundWinnerInfo l' = roundWinnerInfo l.
Proof. intros ->. by destruct l. Qed.

(** What [startNextRound] does to a lobby with a non-empty roster. *)
Lemma startNextRoundIn_spec lobbyCode lobby r :
  players lobby <> [] ->
  exists lobby' r' out czar,
    startNextRoundIn lobbyCode lobby r = Some (lobby', r', out) /\
    players lobby !! nextCzarIndex lobby = Some czar /\
    czarId lobby' = Some (p_id czar) /\
    roundSubmissions lobby' = [] /\
    roundWinnerInfo lobby' = None /\
    sameSession lobby lobby' /\
    Forall2 handGrown (set_submittedCards None <$> players lobby) (players lobby') /\
    ((blackSupply lobby = [] /\
      gameState lobby' = gameOver /\
      players lobby' = (set_submittedCards None <$> players lobby) /\
      whiteDeck lobby' = whiteDeck lobby /\ whiteDiscard lobby' = whiteDiscard lobby /\
      blackDeck lobby' = [] /\ blackDiscard lobby' = [] /\
      currentBlackCard lobby' = currentBlackCard lobby)
     \/
     (blackSupply lobby <> [] /\
      gameState lobby' = playing /\
      (exists c, currentBlackCard lobby' = Some c /\
                 c :: blackSupply lobby' ≡ₚ
                   blackSupply lobby ++ option_list (currentBlackCard lobby)) /\
      (forall c, currentBlackCard lobby = Some c -> last (blackDiscard lobby') = Some c) /\
      whiteSupply lobby' ++ concat (p_hand <$> players lobby') ≡ₚ
        whiteSupply lobby ++ concat (p_hand <$> players lobby) /\
      (totalNeeded (players lobby) <= length (whiteSupply lobby) ->
       Forall (fun p => MAX_HAND_SIZE <= length (p_hand p)) (players lobby')))).
Proof.
  intros Hne. unfold startNextRoundIn.
  rewrite nextCzarIndex_cleared. cbn [players set_players].
  pose proof (nextCzarIndex_lt lobby Hne) as Hlt.
  destruct (lookup_lt_is_Some_2 (players lobby) _ Hlt) as [czar Hczar].
  rewrite list_lookup_fmap Hczar /=.
  match goal with |- context [refillBlackDeck ?l r] => set (l0 := l) end.
  assert (Hhands : concat (p_hand <$> (set_submittedCards None <$> players lobby))
                   = concat (p_hand <$> players lobby)).
  { by rewrite -list_fmap_compose. }
  assert (Hneed : totalNeeded (set_submittedCards None <$> players lobby)
                  = totalNeeded (players lobby)).
  { by rewrite /totalNeeded -list_fmap_compose. }
  destruct (refillBlackDeck l0 r) as [[l1 r1]|] eqn:Hre.
  - apply refillBlackDeck_Some in Hre as (Hdeck & Hsup & Hl1).
    apply blackFrame_fields in Hl1 as (H1code & H1pl & H1host & H1gs & H1set & H1wd & H1wdis
                                       & H1cur & H1cz & H1subs & H1info).
    cbn in H1code, H1pl, H1host, H1gs, H1set, H1wd, H1wdis, H1cur, H1cz, H1subs, H1info.
    change (blackSupply l0) with (blackSupply lobby) in Hsup.
    destruct (pop_nonempty _ Hdeck) as (deck' & c & Hpop).
    assert (Hl2deck : forall l2,
      l2 = match currentBlackCard l1 with
           | Some c0 => set_blackDiscard (blackDiscard l1 ++ [c0]) l1
           | None => l1 end -> pop (blackDeck l2) = Some (deck', c)).
    { intros l2 ->. by destruct (currentBlackCard l1). }
    rewrite (Hl2deck _ eq_refl). clear Hl2deck.
    match goal with |- context [topUpHands (players ?l) ?l r1] => set (l3 := l) end.
    assert (Hpl3 : players l3 = (set_submittedCards None <$> players lobby)).
    { unfold l3. by destruct (currentBlackCard l1); cbn; rewrite H1pl. }
    assert (Hw3 : whiteSupply l3 = whiteSupply lobby).
    { unfold l3, whiteSupply. by destruct (currentBlackCard l1); cbn; rewrite H1wd H1wdis. }
    pose proof (topUpHands_spec (players l3) l3 r1) as Htop.
    destruct (topUpHands (players l3) l3 r1) as [[[ps l4] r2] out].
    destruct Htop as (Hfr & Hall & Hcons & Hfull).
    apply whiteFrame_fields in Hfr as (Hcode & _ & Hhost & Hgs & Hset & Hbd & Hbdis & Hcur & Hcz
                                        & Hsubs & Hinfo).
    apply pop_Some in Hpop.
    eexists _, r2, _, czar. split_and!; [reflexivity | done | ..].
    + cbn. rewrite Hcz. unfold l3. by destruct (currentBlackCard l1); cbn; rewrite H1cz.
    + cbn. rewrite Hsubs. unfold l3. by destruct (currentBlackCard l1); cbn; rewrite H1subs.
    + cbn. rewrite Hinfo. unfold l3. by destruct (currentBlackCard l1); cbn; rewrite H1info.
    + unfold sameSession. cbn. rewrite Hcode Hhost Hset. unfold l3.
      by destruct (currentBlackCard l1); cbn; rewrite H1code H1host H1set.
    + cbn. by rewrite -Hpl3.
    + right. split_and!.
      * intros Hnil. rewrite Hnil in Hsup. apply Permutation_nil_r in Hsup.
        unfold blackSupply in Hsup. rewrite Hpop in Hsup. by destruct deck'.
      * cbn. rewrite Hgs. unfold l3. by destruct (currentBlackCard l1); cbn; rewrite H1gs.
      * exists c. split.
        -- cbn. rewrite Hcur. unfold l3. by destruct (currentBlackCard l1).
        -- unfold blackSupply in *. cbn. rewrite Hbd Hbdis -Hsup Hpop -H1cur. unfold l3.
           destruct (currentBlackCard l1); cbn; solve_Permutation.
      * intros c0 Hc0. cbn. rewrite Hbdis. unfold l3. rewrite H1cur Hc0. cbn.
        apply last_snoc.
      * cbn. change (whiteSupply (set_players ps l4)) with (whiteSupply l4).
        by rewrite Hcons Hw3 Hpl3 Hhands.
      * cbn. rewrite -Hneed -Hw3 -Hpl3. apply Hfull.
  - assert (Hd : blackDeck lobby = [] /\ blackDiscard lobby = []).
    { unfold refillBlackDeck in Hre. change (blackDeck l0) with (blackDeck lobby) in Hre.
      change (blackDiscard l0) with (blackDiscard lobby) in Hre.
      destruct (blackDeck lobby); [|done]. destruct (blackDiscard lobby); [done|].
      by destruct (shuffleArray _ r). }
    destruct Hd as [Hd1 Hd2].
    eexists _, r, _, czar. split_and!; [reflexivity | done..| |].
    + cbn. apply Forall_Forall2_diag, Forall_forall.
      intros p _. split; [by destruct p | exists []; by rewrite app_nil_r].
    + left. unfold blackSupply. rewrite Hd1 Hd2. by split_and!.
Qed.

(** The prompt a round start draws comes from the black supply, and the
    top-up hands each member exactly the cards the hand is short of when
    the white supply has them. *)
Lemma startNextRoundIn_draws lobbyCode lobby r :
  players lobby <> [] ->
  blackSupply lobby <> [] ->
  exists lobby' r' out prompt,
    startNextRoundIn lobbyCode lobby r = Some (lobby', r', out) /\
    currentBlackCard lobby' = Some prompt /\
    prompt ∈ blackSupply lobby /\
    (totalNeeded (players lobby) <= length (whiteSupply lobby) ->
     Forall2 (fun p p' => exists dealt, p_hand p' = p_hand p ++ dealt /\
                                        length dealt = cardsNeeded p)
             (players lobby) (players lobby')).
Proof.
  intros Hne Hsome. unfold startNextRoundIn.
  rewrite nextCzarIndex_cleared. cbn [players set_players].
  pose proof (nextCzarIndex_lt lobby Hne) as Hlt.
  destruct (lookup_lt_is_Some_2 (players lobby) _ Hlt) as [czar Hczar].
  rewrite list_lookup_fmap Hczar /=.
  match goal with |- context [refillBlackDeck ?l r] => set (l0 := l) end.
  destruct (refillBlackDeck l0 r) as [[l1 r1]|] eqn:Hre; cycle 1.
  { exfalso. apply Hsome. unfold refillBlackDeck in Hre.
    change (blackDeck l0) with (blackDeck lobby) in Hre.
    change (blackDiscard l0) with (blackDiscard lobby) in Hre.
    unfold blackSupply.
    destruct (blackDeck lobby); [|done]. destruct (blackDiscard lobby); [done|].
    by destruct (shuffleArray _ r). }
  apply refillBlackDeck_Some in Hre as (Hdeck & Hsup & Hl1).
  apply blackFrame_fields in Hl1 as (_ & H1pl & _ & _ & _ & H1wd & H1wdis & _).
  cbn in H1pl, H1wd, H1wdis.
  change (blackSupply l0) with (blackSupply lobby) in Hsup.
  destruct (pop_nonempty _ Hdeck) as (deck' & c & Hpop).
  assert (Hl2deck : forall l2,
    l2 = match currentBlackCard l1 with
         | Some c0 => set_blackDiscard (blackDiscard l1 ++ [c0]) l1
         | None => l1 end -> pop (blackDeck l2) = Some (deck', c)).
  { intros l2 ->. by destruct (currentBlackCard l1). }
  rewrite (Hl2deck _ eq_refl). clear Hl2deck.
  match goal with |- context [topUpHands (players ?l) ?l r1] => set (l3 := l) end.
  assert (Hpl3 : players l3 = (set_submittedCards None <$> players lobby)).
  { unfold l3. by destruct (currentBlackCard l1); cbn; rewrite H1pl. }
  assert (Hw3 : whiteSupply l3 = whiteSupply lobby).
  { unfold l3, whiteSupply. by destruct (currentBlackCard l1); cbn; rewrite H1wd H1wdis. }
  pose proof (topUpHands_spec (players l3) l3 r1) as Htop.
  pose proof (topUpHands_exact (players l3) l3 r1) as Hexact.
  destruct (topUpHands (players l3) l3 r1) as [[[ps l4] r2] out].
  destruct Htop as (Hfr & _).
  apply whiteFrame_fields in Hfr as (_ & _ & _ & _ & _ & _ & _ & Hcur & _).
  apply pop_Some in Hpop.
  eexists _, r2, _, c. split_and!; [reflexivity | ..].
  - cbn. rewrite Hcur. unfold l3. by destruct (currentBlackCard l1).
  - rewrite -Hsup. unfold blackSupply. rewrite Hpop.
    apply elem_of_app. left. apply elem_of_app. right. by apply list_elem_of_singleton.
  - intros Hle. cbn [players set_players]. simpl in Hexact.
    rewrite Hpl3 Hw3 in Hexact.
    assert (Hneed : totalNeeded (set_submittedCards None <$> players lobby)
                    = totalNeeded (players lobby)).
    { by rewrite /totalNeeded -list_fmap_compose. }
    rewrite Hneed in Hexact. specialize (Hexact Hle).
    by apply (proj1 (Forall2_fmap_l (set_submittedCards None) _ _ _)) in Hexact.
Qed.

(** ** Submitting cards *)

Lemma resolveCards_None hand cardIds :
  resolveCards hand cardIds = None <->
  exists cardId, cardId ∈ cardIds /\ Forall (fun c => wc_id c <> cardId) hand.
Proof.
  induction cardIds as [|cardId cardIds IH]; simpl.
  - split; [done|]. by intros (? & ?%elem_of_nil & _).
  - destruct (List.find _ hand) as [c|] eqn:Hfind.
    + apply find_some in Hfind as [Hin Heq]. apply String.eqb_eq in Heq.
      destruct (resolveCards hand cardIds) as [cs|]; simpl.
      * split; [done|]. intros (x & [->|Hx]%elem_of_cons & Hall).
        -- rewrite Forall_forall in Hall. apply list_elem_of_In in Hin. by apply Hall in Hin.
        -- assert (Some cs = None) as Hn; [|done]. apply IH. eauto.
      * split; [|done]. intros _. destruct (proj1 IH eq_refl) as (x & Hx & Hall).
        exists x. split; [by right | done].
    + split; [|done]. intros _. exists cardId. split; [by left|].
      apply Forall_forall. intros c Hc Heq. apply list_elem_of_In in Hc.
      apply (find_none _ _ Hfind) in Hc. apply String.eqb_neq in Hc. done.
Qed.

Lemma getLobbyPlayer_id lobby playerId p :
  getLobbyPlayer lobby playerId = Some p -> p_id p = playerId.
Proof. intros [_ H]%find_some. by apply String.eqb_eq. Qed.

(** ** Reshuffling *)

(** C6. A reshuffle, of the white supply in [dealWhiteCards] and of the
    black supply in [startNextRound], fires exactly when the draw pile is
    empty and the discard pile is not. It makes the draw pile a permutation
    of the discard pile and empties the discard pile, so the cards of draw
    pile and discard pile together are the same multiset before and after,
    and it touches no other field. With a non-empty draw pile nothing
    changes, and with both piles empty there is nothing to reshuffle. *)
Theorem reshuffle_conserves_cards (lobby : Lobby) (r : Rng) :
  ((whiteDeck lobby = [] -> whiteDiscard lobby <> [] ->
    exists lobby' r',
      refillWhiteDeck lobby r = Some (lobby', r') /\
      whiteDeck lobby' ≡ₚ whiteDiscard lobby /\
      whiteDiscard lobby' = [] /\
      whiteSupply lobby' ≡ₚ whiteSupply lobby /\
      whiteFrame lobby lobby') /\
   (whiteDeck lobby <> [] -> refillWhiteDeck lobby r = Some (lobby, r)) /\
   (whiteDeck lobby = [] -> whiteDiscard lobby = [] -> refillWhiteDeck lobby r = None))
  /\
  ((blackDeck lobby = [] -> blackDiscard lobby <> [] ->
    exists lobby' r',
      refillBlackDeck lobby r = Some (lobby', r') /\
      blackDeck lobby' ≡ₚ blackDiscard lobby /\
      blackDiscard lobby' = [] /\
      blackSupply lobby' ≡ₚ blackSupply lobby /\
      blackFrame lobby lobby') /\
   (blackDeck lobby <> [] -> refillBlackDeck lobby r = Some (lobby, r)) /\
   (blackDeck lobby = [] -> blackDiscard lobby = [] -> refillBlackDeck lobby r = None)).
Proof.
  split; split_and!.
  - intros Hd Hs.
    destruct (refillWhiteDeck_reshuffles lobby r Hd Hs) as (l' & r' & Heq & Hp & Hnil & Hfr).
    exists l', r'. split_and!; [done..| |].
    + by rewrite /whiteSupply Hnil Hd app_nil_r.
    + by rewrite /whiteFrame Hnil.
  - apply refillWhiteDeck_idle.
  - apply refillWhiteDeck_exhausted.
  - intros Hd Hs.
    destruct (refillBlackDeck_reshuffles lobby r Hd Hs) as (l' & r' & Heq & Hp & Hnil & Hfr).
    exists l', r'. split_and!; [done..| |].
    + by rewrite /blackSupply Hnil Hd app_nil_r.
    + by rewrite /blackFrame Hnil.
  - apply refillBlackDeck_idle.
  - apply refillBlackDeck_exhausted.
Qed.

Lemma reshuffle_conserves_cards_witness :
  (exists lobby' r',
     refillWhiteDeck spentLobby (fun _ => 0) = Some (lobby', r') /\
     whiteDeck lobby' ≡ₚ whiteDiscard spentLobby /\
     whiteDiscard lobby' = [] /\
     whiteSupply lobby' ≡ₚ whiteSupply spentLobby /\
     whiteFrame spentLobby lobby') /\
  (exists lobby' r',
     refillBlackDeck spentLobby (fun _ => 0) = Some (lobby', r') /\
     blackDeck lobby' ≡ₚ blackDiscard spentLobby /\
     blackDiscard lobby' = [] /\
     blackSupply lobby' ≡ₚ blackSupply spentLobby /\
     blackFrame spentLobby lobby').
Proof.
  destruct (reshuffle_conserves_cards spentLobby (fun _ => 0)) as [[Hw _] [Hb _]].
  split; [apply Hw | apply Hb]; (reflexivity || discriminate).
Defined.

(** The supply and the hand together keep their cards through a deal. *)
Lemma dealWhiteCards_conserves lobby player count r :
  whiteSupply (dealWhiteCards lobby player count r).1.1 ++
    p_hand (dealWhiteCards lobby player count r).1.2
  ≡ₚ whiteSupply lobby ++ p_hand player.
Proof.
  pose proof (dealWhiteCards_spec count lobby player r) as H.
  destruct (dealWhiteCards lobby player count r) as [[lobby' player'] r'].
  destruct H as (_ & _ & dealt & Hh & _ & Hp). simpl.
  rewrite Hh -Hp. solve_Permutation.
Qed.

(** ** The round timer *)

Lemma autoAdvance_fires w lobbyCode lobby :
  obj_get lobbyCode (lobbies w) = Some lobby -> gameState lobby = roundOver ->
  autoAdvance lobbyCode w = startNextRound lobbyCode w.
Proof. intros Hl Hs. unfold autoAdvance. by rewrite Hl Hs. Qed.

(** ** Refused submissions *)

Lemma idIs_Some o id : idIs o id = true <-> o = Some id.
Proof.
  destruct o as [c|]; simpl; [|done].
  rewrite String.eqb_eq. split; [by intros -> | by intros [= ->]].
Qed.

Lemma idIs_false o id : o <> Some id -> idIs o id = false.
Proof. intros H. destruct (idIs o id) eqn:E; [|done]. by apply idIs_Some in E. Qed.

(** C2. A [submitCards] in state [playing] from a member who is not the
    czar and has not submitted, with [cardIds] that is no array, has not
    exactly the length of the prompt's pick count ([pick || 1]), or names
    an id that no card of the hand carries, is refused: the handler ends
    with the world it started with (hand, submission slot, round
    submissions, piles and game state included) and emits one [gameError],
    to the sender's socket only. *)
Theorem submitCards_rejects_invalid (w : World) (socketId lobbyCode : string)
  (cardIds : option (list string)) (lobby : Lobby) (player : Player) (prompt : BlackCard) :
  obj_get lobbyCode (lobbies w) = Some lobby ->
  gameState lobby = playing ->
  getLobbyPlayer lobby socketId = Some player ->
  czarId lobby <> Some socketId ->
  p_submittedCards player = None ->
  currentBlackCard lobby = Some prompt ->
  badCardIds prompt (p_hand player) cardIds ->
  exists msg,
    submitCards w socketId lobbyCode cardIds = Done w [toSocket socketId (GameError msg)].
Proof.
  intros Hl Hs Hp Hcz Hsub Hprompt Hbad. unfold submitCards.
  rewrite Hl Hp Hs /=.
  rewrite (getLobbyPlayer_id _ _ _ Hp) (idIs_false _ _ Hcz) /hasSubmitted Hsub Hprompt /=.
  destruct cardIds as [ids|]; [|by eexists].
  destruct (Z.of_nat (length ids) =? pickCount prompt)%Z eqn:Hlen; simpl; [|by eexists].
  apply Z.eqb_eq in Hlen. destruct Hbad as [Hbad|Hbad]; [done|].
  apply resolveCards_None in Hbad. rewrite Hbad. by eexists.
Qed.

Lemma submitCards_rejects_invalid_witness :
  exists msg,
    submitCards playingWorld "s0" "00000" (Some ["w_0"; "w_44"])
    = Done playingWorld [toSocket "s0" (GameError msg)].
Proof.
  eapply submitCards_rejects_invalid.
  - by vm_compute.
  - reflexivity.
  - by vm_compute.
  - discriminate.
  - reflexivity.
  - reflexivity.
  - left. by vm_compute.
Defined.

(** ** Accepted submissions and the move to [judging] *)

Lemma lobbies_putLobby lobbyCode lobby w :
  obj_get lobbyCode (lobbies (putLobby lobbyCode lobby w)) = Some lobby.
Proof. apply obj_get_set_eq. Qed.

Lemma lobbies_putLobby_other lobbyCode lobbyCode' lobby w :
  lobbyCode' <> lobbyCode ->
  obj_get lobbyCode (lobbies (putLobby lobbyCode' lobby w)) = obj_get lobbyCode (lobbies w).
Proof. apply obj_get_set_ne. Qed.

Lemma find_updatePlayer playerId f ps p :
  List.find (fun q => String.eqb (p_id q) playerId) ps = Some p ->
  p_id (f p) = playerId ->
  List.find (fun q => String.eqb (p_id q) playerId) (updatePlayer playerId f ps) = Some (f p).
Proof.
  intros Hfind Hid. induction ps as [|q ps IH]; [done|]. simpl in *.
  destruct (String.eqb (p_id q) playerId) eqn:E; simpl.
  - injection Hfind as ->. by rewrite Hid String.eqb_refl.
  - rewrite E. auto.
Qed.

Lemma updatePlayer_ids playerId f ps :
  (forall p, p_id (f p) = p_id p) ->
  p_id <$> updatePlayer playerId f ps = p_id <$> ps.
Proof.
  intros Hf. induction ps as [|q ps IH]; [done|]. simpl.
  destruct (String.eqb (p_id q) playerId); simpl; [by rewrite Hf | by f_equal].
Qed.

Lemma updatePlayer_length playerId f ps : length (updatePlayer playerId f ps) = length ps.
Proof.
  induction ps as [|q ps IH]; [done|]. simpl.
  destruct (String.eqb (p_id q) playerId); simpl; by rewrite ?IH.
Qed.

Lemma filter_by_id (g : string -> bool) ps :
  length (List.filter (fun p => g (p_id p)) ps) = length (List.filter g (p_id <$> ps)).
Proof.
  induction ps as [|q ps IH]; [done|]. simpl.
  destruct (g (p_id q)); simpl; by rewrite IH.
Qed.

(** The number of non-czar members depends on the ids of the roster and
    on the czar only. *)
Lemma nonCzars_length_ids l l' :
  p_id <$> players l' = p_id <$> players l -> czarId l' = czarId l ->
  length (nonCzars l') = length (nonCzars l).
Proof.
  intros Hids Hcz. unfold nonCzars.
  rewrite (filter_by_id (fun id => negb (idIs (czarId l') id))).
  rewrite (filter_by_id (fun id => negb (idIs (czarId l) id))).
  by rewrite Hids Hcz.
Qed.

(** A submission that passes the checks is recorded; the lobby moves to
    [judging], with the submissions shuffled, exactly when the new
    submission makes their number equal to that of the non-czar members. *)
Lemma submitCards_accepted w socketId lobbyCode ids lobby player prompt cards :
  obj_get lobbyCode (lobbies w) = Some lobby ->
  gameState lobby = playing ->
  getLobbyPlayer lobby socketId = Some player ->
  czarId lobby <> Some socketId ->
  p_submittedCards player = None ->
  currentBlackCard lobby = Some prompt ->
  Z.of_nat (length ids) = pickCount prompt ->
  resolveCards (p_hand player) ids = Some cards ->
  exists w' out lobby',
    submitCards w socketId lobbyCode (Some ids) = Done w' out /\
    obj_get lobbyCode (lobbies w') = Some lobby' /\
    roundSubmissions lobby' ≡ₚ
      roundSubmissions lobby ++
        [{| sub_playerId := socketId; sub_playerName := p_name player; sub_cards := cards |}] /\
    getLobbyPlayer lobby' socketId =
      Some (set_hand (List.filter (fun card => negb (existsb (String.eqb (wc_id card)) ids))
                                  (p_hand player))
              (set_submittedCards (Some cards) player)) /\
    gameState lobby' =
      (if (S (length (roundSubmissions lobby)) =? length (nonCzars lobby))%nat
       then judging else playing).
Proof.
  intros Hl Hs Hp Hcz Hsub Hprompt Hlen Hres. unfold submitCards.
  destruct (S (length (roundSubmissions lobby)) =? length (nonCzars lobby))%nat eqn:Hall.
  all: rewrite Hl Hp Hs /=.
  all: pose proof (getLobbyPlayer_id _ _ _ Hp) as Hid.
  all: rewrite Hid (idIs_false _ _ Hcz) /hasSubmitted Hsub Hprompt /=.
  all: rewrite Hlen Z.eqb_refl Hres /=.
  all: set (f := fun p => set_hand _ (set_submittedCards (Some cards) p)).
  all: set (lobby1 := set_roundSubmissions _
                     (set_players (updatePlayer socketId f (players lobby)) lobby)).
  all: assert (Hnc : length (nonCzars lobby1) = length (nonCzars lobby))
    by (apply nonCzars_length_ids; [|done]; by apply updatePlayer_ids).
  all: assert (Hfind : getLobbyPlayer lobby1 socketId = Some (f player))
    by (by apply find_updatePlayer).
  all: rewrite Hnc length_app Nat.add_1_r Hall.
  - match goal with |- context [shuffleArray ?x ?r] =>
      pose proof (shuffleArray_Permutation x r) as Hperm;
      destruct (shuffleArray x r) as [subs r'] end.
    eexists _, _, _; split_and!;
      [reflexivity | apply lobbies_putLobby | exact Hperm | exact Hfind | reflexivity].
  - eexists _, _, _; split_and!;
      [reflexivity | apply lobbies_putLobby | reflexivity | exact Hfind | by rewrite /= Hs].
Qed.

(** A member who has submitted cannot submit again, the czar cannot submit,
    and neither can a socket that is no member. *)
Lemma submitCards_ignored w socketId lobbyCode cardIds lobby :
  obj_get lobbyCode (lobbies w) = Some lobby ->
  forallb (fun p => idIs (czarId lobby) (p_id p) || hasSubmitted p) (players lobby) = true ->
  submitCards w socketId lobbyCode cardIds = Done w [].
Proof.
  intros Hl Hall. unfold submitCards. rewrite Hl.
  destruct (getLobbyPlayer lobby socketId) as [p|] eqn:Hp; [|done].
  apply find_some in Hp as [Hin _].
  rewrite forallb_forall in Hall. apply Hall in Hin.
  apply orb_true_iff in Hin as [-> | ->]; by rewrite ?orb_true_r.
Qed.

Lemma submitCards_twice w socketId lobbyCode cardIds lobby player :
  obj_get lobbyCode (lobbies w) = Some lobby ->
  getLobbyPlayer lobby socketId = Some player ->
  is_Some (p_submittedCards player) ->
  submitCards w socketId lobbyCode cardIds = Done w [].
Proof.
  intros Hl Hp [cs Hcs]. unfold submitCards. rewrite Hl Hp /hasSubmitted Hcs.
  by rewrite !orb_true_r.
Qed.

(** ** Picking the winner *)

(** When the player picked is still a member, the pick does what the
    handler is for: one point, the round's cards discarded, the winner
    recorded, and [gameOver] or [roundOver] by the score. *)
Lemma selectWinner_scores w socketId lobbyCode winningPlayerId lobby czar sub winner prompt :
  obj_get lobbyCode (lobbies w) = Some lobby ->
  gameState lobby = judging ->
  getLobbyPlayer lobby socketId = Some czar ->
  czarId lobby = Some socketId ->
  List.find (fun s => String.eqb (sub_playerId s) winningPlayerId) (roundSubmissions lobby)
    = Some sub ->
  getLobbyPlayer lobby winningPlayerId = Some winner ->
  currentBlackCard lobby = Some prompt ->
  exists w' out lobby',
    selectWinner w socketId lobbyCode winningPlayerId = Done w' out /\
    obj_get lobbyCode (lobbies w') = Some lobby' /\
    players lobby' = updatePlayer winningPlayerId (set_score (S (p_score winner))) (players lobby) /\
    getLobbyPlayer lobby' winningPlayerId = Some (set_score (S (p_score winner)) winner) /\
    whiteDiscard lobby' = whiteDiscard lobby ++ concat (sub_cards <$> roundSubmissions lobby) /\
    roundWinnerInfo lobby' =
      Some {| winnerName := p_name winner;
              winningCardsText := wc_text <$> sub_cards sub;
              blackCardText := bc_text prompt |} /\
    gameState lobby' =
      (if (Z.of_nat (S (p_score winner)) >=? scoreToWin (settings lobby))%Z
       then gameOver else roundOver) /\
    timers w' =
      (if (Z.of_nat (S (p_score winner)) >=? scoreToWin (settings lobby))%Z
       then timers w else timers w ++ [lobbyCode]).
Proof.
  intros Hl Hs Hczar Hcz Hsub Hwin Hprompt. unfold selectWinner.
  rewrite Hl Hczar Hs (getLobbyPlayer_id _ _ _ Hczar) Hcz /= String.eqb_refl /=.
  rewrite Hsub Hwin /= Hprompt.
  assert (Hfind : List.find (fun q => String.eqb (p_id q) winningPlayerId)
            (updatePlayer winningPlayerId (set_score (S (p_score winner))) (players lobby))
          = Some (set_score (S (p_score winner)) winner)).
  { apply find_updatePlayer; [done|]. by apply getLobbyPlayer_id in Hwin. }
  destruct (Z.of_nat (S (p_score winner)) >=? scoreToWin (settings lobby))%Z;
    eexists _, _, _; (split_and!; [reflexivity | apply lobbies_putLobby | done..]).
Qed.

(** ** The first czar *)

Lemma dealFirstHands_ids ps : forall lobby r,
  p_id <$> (dealFirstHands ps lobby r).1.1.1 = p_id <$> ps.
Proof.
  induction ps as [|p ps IH]; intros lobby r; [done|]. cbn [dealFirstHands].
  pose proof (dealWhiteCards_spec MAX_HAND_SIZE lobby (set_hand [] (set_score 0 p)) r) as Hd.
  destruct (dealWhiteCards lobby _ MAX_HAND_SIZE r) as [[lobby1 p1] r1].
  destruct Hd as (_ & Hp1 & _).
  specialize (IH lobby1 r1). destruct (dealFirstHands ps lobby1 r1) as [[[ps1 l2] r2] out].
  cbn in *. rewrite IH. f_equal. by rewrite Hp1.
Qed.

(** Whenever the host's [startGame] is accepted, the czar it leaves behind
    is the second member of the roster: [czarId] is set to the first
    member's id and [startNextRound] moves it on by one. *)
Lemma startGame_czar w socketId lobbyCode lobby :
  obj_get lobbyCode (lobbies w) = Some lobby ->
  hostId lobby = socketId ->
  gameState lobby = waiting ->
  3 <= length (players lobby) ->
  exists w' out lobby' second,
    startGame w socketId lobbyCode = Done w' out /\
    obj_get lobbyCode (lobbies w') = Some lobby' /\
    players lobby !! 1 = Some second /\
    czarId lobby' = Some (p_id second).
Proof.
  intros Hl Hhost Hstate Hlen. unfold startGame.
  rewrite Hl Hhost Hstate String.eqb_refl /=.
  destruct (length (players lobby) <? 3)%nat eqn:E; [apply Nat.ltb_lt in E; lia|].
  destruct (getPacks _ _) as [white black].
  destruct (shuffleArray white (rng w)) as [white' r1].
  destruct (shuffleArray black r1) as [black' r2].
  cbn [players set_whiteDeck set_blackDeck set_whiteDiscard set_blackDiscard].
  match goal with |- context [dealFirstHands (players lobby) ?l r2] =>
    pose proof (dealFirstHands_ids (players lobby) l r2) as Hids;
    destruct (dealFirstHands (players lobby) l r2) as [[[ps l1] r3] out1] end.
  cbn in Hids. cbn [players set_players].
  destruct (players lobby) as [|p0 [|p1 rest]] eqn:Hps; [simpl in Hlen; lia..|].
  destruct ps as [|q0 [|q1 qs]]; [done..|].
  injection Hids as Hq0 Hq1 Hqs.
  unfold startNextRound. rewrite lobbies_putLobby.
  set (l2 := set_czarId (Some (p_id q0)) (set_players (q0 :: q1 :: qs) l1)).
  assert (Hne : players l2 <> []) by done.
  destruct (startNextRoundIn_spec lobbyCode l2 (rng (set_rng r3 (putLobby lobbyCode l2 w))) Hne)
    as (lobby' & r' & out & czar & -> & Hczar & Hcz' & _).
  exists (set_rng r' (putLobby lobbyCode lobby' (set_rng r3 (putLobby lobbyCode l2 w)))).
  eexists _, lobby', p1. split_and!; [reflexivity | | done |].
  - cbn. by rewrite obj_get_set_eq.
  - rewrite Hcz'. f_equal.
    assert (Hidx : nextCzarIndex l2 = 1).
    { unfold nextCzarIndex, l2.
      cbn [players czarId set_czarId set_players findIndex idIs].
      rewrite String.eqb_refl. cbn [length].
      assert (Hq : length qs = length rest).
      { apply (f_equal length) in Hqs. by rewrite !length_fmap in Hqs. }
      assert (3 <= S (S (length qs))) by (simpl in Hlen; lia).
      rewrite Nat.mod_small; lia. }
    rewrite Hidx in Hczar. cbn in Hczar. by injection Hczar as <-.
Qed.

(** ** Runs on which the handlers go wrong *)

(** C4. Three players, the host starts the game: the first round is in
    [playing] and its czar is [s1], the second member of the roster, not
    the first. [startGame] sets [czarId] to the first member and then calls
    [startNextRound], which advances the czar by one. *)
Theorem startGame_first_czar_is_second_member :
  exists lobby,
    lobbyAfter (gameOfThree None) = Some lobby /\
    gameState lobby = playing /\
    p_id <$> players lobby = ["s0"; "s1"; "s2"] /\
    czarId lobby = Some "s1" /\
    czarId lobby <> (p_id <$> (players lobby !! 0)).
Proof.
  eexists. split; [by vm_compute|]. by split_and!.
Qed.

(** C1. Four players, czar [s1]; [s0] and [s2] submit, then [s3], who has
    not submitted, disconnects. Three members remain, two of them not the
    czar, and two submissions are recorded: the counts are equal, yet the
    lobby is still in [playing], and no [submitCards] from anyone changes
    that, since both remaining non-czar members have submitted. *)
Theorem disconnect_leaves_round_in_playing :
  exists w lobby,
    worldAfter (gameOfFour None ++
                [submits "s0" "w_0"; submits "s2" "w_25"; Sends "s3" Disconnect]) = Some w /\
    obj_get "00000" (lobbies w) = Some lobby /\
    gameState lobby = playing /\
    length (roundSubmissions lobby) = 2 /\
    length (nonCzars lobby) = 2 /\
    (forall socketId cardIds, submitCards w socketId "00000" cardIds = Done w []).
Proof.
  eexists _, _. split; [by vm_compute|]. split; [by vm_compute|].
  split_and!; [done..|].
  intros socketId cardIds. eapply submitCards_ignored; by vm_compute.
Qed.

(** C5. Four players, czar [s1]; [s0] submits the card [w_0]. Then the
    round is ended without a pick, by the host's [requestNextRound] or by
    the czar disconnecting. Before, [w_0] is held by the pending
    submission; after, in the new round, it is in neither pile, in no hand
    and in no submission: [startNextRound] empties [roundSubmissions]
    without discarding the cards. *)
Theorem forced_round_loses_submitted_cards :
  exists before forced czarLeft,
    lobbyAfter (gameOfFour None ++ [submits "s0" "w_0"]) = Some before /\
    lobbyAfter (gameOfFour None ++
                [submits "s0" "w_0"; Sends "s0" (RequestNextRound "00000")]) = Some forced /\
    lobbyAfter (gameOfFour None ++
                [submits "s0" "w_0"; Sends "s1" Disconnect]) = Some czarLeft /\
    "w_0" ∈ wc_id <$> concat (sub_cards <$> roundSubmissions before) /\
    gameState forced = playing /\ ("w_0" ∉ liveWhiteIds forced) /\
    gameState czarLeft = playing /\ ("w_0" ∉ liveWhiteIds czarLeft).
Proof.
  eexists _, _, _. split_and!; [by vm_compute..| | | | |].
  - by apply (bool_decide_unpack _).
  - done.
  - by apply (bool_decide_unpack _).
  - done.
  - by apply (bool_decide_unpack _).
Qed.

(** C10. Four players, czar [s1]; all three others submit, the lobby is in
    [judging]. Then [s3] disconnects: three members remain, the game goes
    on, and the submission of [s3] stays in [roundSubmissions]. When the
    czar picks it, [getLobbyPlayer] finds no player and [winner.score++]
    throws. *)
Theorem selectWinner_throws_for_departed_player :
  exists w lobby sub,
    worldAfter (gameOfFour None ++ allSubmit ++ [Sends "s3" Disconnect]) = Some w /\
    obj_get "00000" (lobbies w) = Some lobby /\
    gameState lobby = judging /\
    czarId lobby = Some "s1" /\
    is_Some (getLobbyPlayer lobby "s1") /\
    List.find (fun s => String.eqb (sub_playerId s) "s3") (roundSubmissions lobby) = Some sub /\
    getLobbyPlayer lobby "s3" = None /\
    selectWinner w "s1" "00000" "s3" = Throw.
Proof.
  eexists _, _, _. split; [by vm_compute|]. split; [by vm_compute|].
  split_and!; [done | done | by eexists | by vm_compute | done | by vm_compute].
Qed.

(** C3. The same game, but it is the host [s0] who leaves during
    [judging]. The czar's pick of the submission of [s0] meets every
    condition of the handler (state [judging], sender is the czar, the
    submission exists), and the run ends in a [TypeError]: no score is
    raised, nothing is discarded, and the lobby reaches neither [roundOver]
    nor [gameOver]. *)
Theorem selectWinner_accepted_pick_throws :
  exists w lobby sub,
    worldAfter (gameOfFour None ++ allSubmit ++ [Sends "s0" Disconnect]) = Some w /\
    obj_get "00000" (lobbies w) = Some lobby /\
    gameState lobby = judging /\
    czarId lobby = Some "s1" /\
    is_Some (getLobbyPlayer lobby "s1") /\
    List.find (fun s => String.eqb (sub_playerId s) "s0") (roundSubmissions lobby) = Some sub /\
    run world0 (gameOfFour None ++ allSubmit ++
                [Sends "s0" Disconnect; Sends "s1" (SelectWinner "00000" "s0")]) = Throw.
Proof.
  eexists _, _, _. split; [by vm_compute|]. split; [by vm_compute|].
  split_and!; [done | done | by eexists | by vm_compute | by vm_compute].
Qed.

(** ** What one input does to one lobby *)

Lemma generateLobbyCode_fresh attempts o r c r' :
  generateLobbyCode attempts o r = Some (c, r') -> obj_get c o = None.
Proof.
  revert r. induction attempts as [|n IH]; intros r; cbn [generateLobbyCode]; [done|].
  destruct (randomCode r) as [c0 r0].
  destruct (obj_get c0 o) eqn:E; [apply IH|]. by intros [= <- <-].
Qed.

Lemma findLobbyOf_Some socketId o lobbyCode lobby i :
  findLobbyOf socketId o = Some (lobbyCode, lobby, i) ->
  (lobbyCode, lobby) ∈ o /\
  findIndex (fun p => String.eqb (p_id p) socketId) (players lobby) = Some i.
Proof.
  induction o as [|[c l] o IH]; simpl; [done|].
  destruct (findIndex _ (players l)) as [j|] eqn:E.
  - intros [= <- <- <-]. split; [left | done].
  - intros H. destruct (IH H) as [Hin Hi]. split; [by right | done].
Qed.

Lemma findLobbyOf_lookup w socketId lobbyCode lobby i :
  wellKeyed w ->
  findLobbyOf socketId (lobbies w) = Some (lobbyCode, lobby, i) ->
  obj_get lobbyCode (lobbies w) = Some lobby.
Proof. intros Hnd [Hin _]%findLobbyOf_Some. by apply obj_get_NoDup. Qed.

(** The lobby that [startNextRound] found is replaced by the lobby of
    [startNextRoundIn]; every other lobby stays. *)
Lemma startNextRound_Done lobbyCode w w' out :
  startNextRound lobbyCode w = Done w' out ->
  (obj_get lobbyCode (lobbies w) = None /\ w' = w) \/
  (exists lobby lobby' r',
     obj_get lobbyCode (lobbies w) = Some lobby /\
     startNextRoundIn lobbyCode lobby (rng w) = Some (lobby', r', out) /\
     w' = set_rng r' (putLobby lobbyCode lobby' w)).
Proof.
  unfold startNextRound.
  destruct (obj_get lobbyCode (lobbies w)) as [lobby|]; [|intros [= <- <-]; by left].
  destruct (startNextRoundIn lobbyCode lobby (rng w)) as [[[lobby' r'] out']|] eqn:E; [|done].
  intros [= <- <-]. right. exists lobby, lobby', r'. by split_and!.
Qed.

Lemma startNextRoundIn_gameState lobbyCode lobby r lobby' r' out :
  startNextRoundIn lobbyCode lobby r = Some (lobby', r', out) ->
  gameState lobby' = playing \/ gameState lobby' = gameOver.
Proof.
  intros H. destruct (decide (players lobby = [])) as [Hnil|Hne].
  - unfold startNextRoundIn in H. cbn in H. by rewrite Hnil in H.
  - destruct (startNextRoundIn_spec lobbyCode lobby r Hne)
      as (l & r0 & o & cz & Heq & _ & _ & _ & _ & _ & _ & Hcase).
    rewrite H in Heq. injection Heq as <- <- <-.
    destruct Hcase as [(_ & -> & _)|(_ & -> & _)]; auto.
Qed.

(** The game state of lobby [c] after [startNextRound lobbyCode]. *)
Lemma startNextRound_gameState lobbyCode w w' out c lobby lobby' :
  startNextRound lobbyCode w = Done w' out ->
  obj_get c (lobbies w) = Some lobby ->
  obj_get c (lobbies w') = Some lobby' ->
  (c <> lobbyCode /\ lobby' = lobby) \/
  (c = lobbyCode /\ (gameState lobby' = playing \/ gameState lobby' = gameOver)).
Proof.
  intros [[Hnone ->]|(l & l' & r' & Hl & Hin & ->)]%startNextRound_Done Hc Hc'.
  - left. split; [|congruence]. intros ->. congruence.
  - cbn in Hc'. rewrite obj_get_set in Hc'.
    destruct (String.eqb lobbyCode c) eqn:E.
    + apply String.eqb_eq in E as <-. injection Hc' as <-. right. split; [done|].
      by eapply startNextRoundIn_gameState.
    + apply String.eqb_neq in E. left. split; [done | congruence].
Qed.

Lemma emitting_Done out res w' out' :
  emitting out res = Done w' out' -> exists out1, res = Done w' out1 /\ out' = out ++ out1.
Proof. destruct res; [|done..]. intros [= <- <-]. eauto. Qed.

Lemma GameState_eqb_eq s s' : GameState_eqb s s' = true <-> s = s'.
Proof. by destruct s, s'. Qed.

Lemma GameState_eqb_neq s s' : GameState_eqb s s' = false <-> s <> s'.
Proof. by destruct s, s'. Qed.

(** Reading lobby [c] after the handler wrote lobby [lobbyCode] back. *)
Lemma lookup_putLobby c lobbyCode l w lobby' :
  obj_get c (lobbies (putLobby lobbyCode l w)) = Some lobby' ->
  (c = lobbyCode /\ lobby' = l) \/ (c <> lobbyCode /\ obj_get c (lobbies w) = Some lobby').
Proof.
  cbn. rewrite obj_get_set. destruct (String.eqb lobbyCode c) eqn:E.
  - apply String.eqb_eq in E as ->. intros [= ->]. by left.
  - apply String.eqb_neq in E. intros H. by right.
Qed.











(** ** What a game start leaves behind *)

Lemma startNextRound_registered lobbyCode w lobby lobby' r' out :
  obj_get lobbyCode (lobbies w) = Some lobby ->
  startNextRoundIn lobbyCode lobby (rng w) = Some (lobby', r', out) ->
  startNextRound lobbyCode w = Done (set_rng r' (putLobby lobbyCode lobby' w)) out /\
  obj_get lobbyCode (lobbies (set_rng r' (putLobby lobbyCode lobby' w))) = Some lobby' /\
  (forall c, c <> lobbyCode ->
     obj_get c (lobbies (set_rng r' (putLobby lobbyCode lobby' w))) = obj_get c (lobbies w)).
Proof.
  intros Hl Hin. rewrite /startNextRound Hl Hin. split_and!; [done| |].
  - apply lobbies_putLobby.
  - intros c Hc. by apply lobbies_putLobby_other.
Qed.

Lemma dealFirstHands_spec ps : forall lobby r,
  let '(ps', lobby', r', out) := dealFirstHands ps lobby r in
  whiteFrame lobby lobby' /\
  Forall2 (fun p p' => p' = set_hand (p_hand p') (set_score 0 p)) ps ps' /\
  whiteSupply lobby' ++ concat (p_hand <$> ps') ≡ₚ whiteSupply lobby.
Proof.
  induction ps as [|p ps IH]; intros lobby r; cbn [dealFirstHands].
  - split_and!; [apply whiteFrame_refl | constructor | by rewrite /= app_nil_r].
  - pose proof (dealWhiteCards_spec MAX_HAND_SIZE lobby (set_hand [] (set_score 0 p)) r) as Hd.
    destruct (dealWhiteCards lobby _ MAX_HAND_SIZE r) as [[lobby1 p1] r1].
    destruct Hd as (Hfr1 & Hp1 & dealt & Hhand & _ & Hperm).
    specialize (IH lobby1 r1).
    destruct (dealFirstHands ps lobby1 r1) as [[[ps1 l2] r2] out].
    destruct IH as (Hfr2 & Hall & Hperm2).
    split_and!.
    + by eapply whiteFrame_trans.
    + constructor; [|done]. rewrite {1}Hp1. by destruct p.
    + simpl in Hhand. rewrite fmap_cons /= Hhand -Hperm -Hperm2.
      solve_Permutation.
Qed.

(** What an accepted [startGame] leaves behind. *)
Lemma startGame_spec w socketId lobbyCode lobby :
  obj_get lobbyCode (lobbies w) = Some lobby ->
  hostId lobby = socketId ->
  gameState lobby = waiting ->
  3 <= length (players lobby) ->
  exists w' out lobby',
    startGame w socketId lobbyCode = Done w' out /\
    obj_get lobbyCode (lobbies w') = Some lobby' /\
    (forall c, c <> lobbyCode -> obj_get c (lobbies w') = obj_get c (lobbies w)) /\
    sameSession lobby lobby' /\
    Forall2 (fun p p' => p_id p' = p_id p /\ p_name p' = p_name p /\ p_score p' = 0 /\
                         p_submittedCards p' = None)
            (players lobby) (players lobby') /\
    whiteSupply lobby' ++ concat (p_hand <$> players lobby') ≡ₚ
      (getPacks (globalCAHDeck w) (selectedPackIndexes (settings lobby))).1 /\
    option_list (currentBlackCard lobby') ++ blackSupply lobby' ≡ₚ
      option_list (currentBlackCard lobby) ++
      (getPacks (globalCAHDeck w) (selectedPackIndexes (settings lobby))).2 /\
    roundSubmissions lobby' = [] /\
    ((gameState lobby' = playing /\ is_Some (currentBlackCard lobby') /\
      (getPacks (globalCAHDeck w) (selectedPackIndexes (settings lobby))).2 <> []) \/
     (gameState lobby' = gameOver /\
      (getPacks (globalCAHDeck w) (selectedPackIndexes (settings lobby))).2 = [] /\
      blackSupply lobby' = [])).
Proof.
  intros Hl Hhost Hstate Hlen. unfold startGame.
  rewrite Hl Hhost Hstate String.eqb_refl /=.
  destruct (length (players lobby) <? 3)%nat eqn:E; [apply Nat.ltb_lt in E; lia|].
  destruct (getPacks _ _) as [white black].
  pose proof (shuffleArray_Permutation white (rng w)) as Hwhite.
  destruct (shuffleArray white (rng w)) as [white' r1].
  pose proof (shuffleArray_Permutation black r1) as Hblack.
  destruct (shuffleArray black r1) as [black' r2].
  cbn [players set_whiteDeck set_blackDeck set_whiteDiscard set_blackDiscard fst snd] in *.
  match goal with |- context [dealFirstHands (players lobby) ?l r2] =>
    set (l0 := l);
    pose proof (dealFirstHands_spec (players lobby) l0 r2) as Hdeal;
    destruct (dealFirstHands (players lobby) l0 r2) as [[[ps l1] r3] out1] end.
  destruct Hdeal as (Hfr & Hall & Hperm).
  apply whiteFrame_fields in Hfr
    as (Hcode & _ & Hhost1 & _ & Hset & Hbd & Hbdd & Hcur & _ & _ & _).
  cbn [players set_players].
  destruct ps as [|q0 qs] eqn:Hps.
  { apply Forall2_length in Hall. simpl in Hall. lia. }
  rewrite -Hps in Hall Hperm |- *.
  set (l2 := set_czarId (Some (p_id q0)) (set_players ps l1)).
  assert (Hne : players l2 <> []) by (by rewrite /l2 /= Hps).
  assert (Hl2 : obj_get lobbyCode (lobbies (set_rng r3 (putLobby lobbyCode l2 w))) = Some l2)
    by apply lobbies_putLobby.
  destruct (startNextRoundIn_spec lobbyCode l2 (rng (set_rng r3 (putLobby lobbyCode l2 w))) Hne)
    as (lobby' & r' & out & czar & Hin & _ & _ & Hsubs & _ & Hsess & Hgrown & Hcases).
  destruct (startNextRound_registered _ _ _ _ _ _ Hl2 Hin) as (Hrun & Hget & Hother).
  rewrite Hrun. eexists _, _, lobby'.
  split_and!; [reflexivity | exact Hget | | | | | | exact Hsubs |].
  - intros c Hc. rewrite Hother //. by apply lobbies_putLobby_other.
  - destruct Hsess as (Hc1 & Hh1 & Hs1). unfold sameSession.
    rewrite Hc1 Hh1 Hs1 /l2 /= Hcode Hhost1 Hset. done.
  - apply (proj1 (Forall2_fmap_l (set_submittedCards None) handGrown _ _)) in Hgrown.
    cbn [players l2 set_czarId set_players] in Hgrown.
    eapply Forall2_trans; [|exact Hall|exact Hgrown].
    intros p q q' Hq Hg. simpl in Hg.
    pose proof (handGrown_fields _ _ Hg) as (Hid & Hname & Hscore & Hsub).
    rewrite Hid Hname Hscore Hsub {1 2 3}Hq. by destruct p.
  - assert (Hbefore : whiteSupply l2 ++ concat (p_hand <$> players l2) ≡ₚ white).
    { rewrite -Hwhite. etrans; [exact Hperm|]. by rewrite /whiteSupply /l0 /= app_nil_r. }
    destruct Hcases as [(_ & _ & Hps' & Hwd & Hwdd & _)|(_ & _ & _ & _ & Hw & _)].
    + rewrite -Hbefore /whiteSupply Hps' Hwd Hwdd -list_fmap_compose. done.
    + by rewrite Hw.
  - assert (Hb2 : blackSupply l2 ≡ₚ black).
    { rewrite /blackSupply /l2 /= Hbd Hbdd /l0 /= app_nil_r. done. }
    assert (Hc2 : currentBlackCard l2 = currentBlackCard lobby).
    { by rewrite /l2 /= Hcur. }
    destruct Hcases as [(Hno & _ & _ & _ & _ & Hbd' & Hbdd' & Hc)|(_ & _ & (c & Hc & Hb) & _)].
    + rewrite Hc Hc2 /blackSupply Hbd' Hbdd' -Hb2 Hno. done.
    + rewrite Hc /= Hb Hc2 Hb2. solve_Permutation.
  - assert (Hb2 : blackSupply l2 ≡ₚ black).
    { rewrite /blackSupply /l2 /= Hbd Hbdd /l0 /= app_nil_r. done. }
    destruct Hcases as [(Hno & Hst & _ & _ & _ & Hbd' & Hbdd' & _)|
                        (Hsome & Hst & (c & Hc & _) & _)].
    + right. split_and!; [done | | by rewrite /blackSupply Hbd' Hbdd'].
      apply Permutation_nil_r. by rewrite -Hb2 Hno.
    + left. split_and!; [done | by rewrite Hc |].
      intros Hnil. apply Hsome. apply Permutation_nil_r. by rewrite Hb2 Hnil.
Qed.

(** ** The state machine *)


(** ** The czar disconnects *)

Lemma handGrown_ids ps ps' :
  Forall2 handGrown ps ps' -> p_id <$> ps' = p_id <$> ps.
Proof.
  induction 1 as [|p p' qs qs' Hg _ IH]; [done|].
  rewrite !fmap_cons IH. f_equal. by apply handGrown_fields in Hg as (-> & _).
Qed.








(** ** The registry keeps its keys distinct *)

Section RegistryKeys.
Context {V : Type}.
Implicit Types (o : list (string * V)) (k : string) (v : V).

Lemma obj_get_None_keys k o : obj_get k o = None -> k ∉ o.*1.
Proof.
  induction o as [|[k0 v0] o IH]; [intros _; apply not_elem_of_nil|].
  rewrite obj_get_cons. destruct (String.eqb k0 k) eqn:E; [done|].
  apply String.eqb_neq in E. intros H [->|Hin]%elem_of_cons; [done|]. by apply IH.
Qed.

Lemma obj_replace_keys k v o : (obj_replace k v o).*1 = o.*1.
Proof.
  induction o as [|[k0 v0] o IH]; [done|]. cbn [obj_replace].
  destruct (String.eqb k0 k); rewrite !fmap_cons; [done | by rewrite IH].
Qed.

Lemma obj_insert_index_keys n k v o : (obj_insert_index n k v o).*1 ≡ₚ k :: o.*1.
Proof.
  induction o as [|[k0 v0] o IH]; [done|]. cbn [obj_insert_index].
  destruct (arrayIndex k0) as [m|]; [destruct (m <? n)%N|]; rewrite !fmap_cons; [|done..].
  rewrite IH. apply Permutation_swap.
Qed.

Lemma obj_set_NoDup k v o : NoDup o.*1 -> NoDup (obj_set k v o).*1.
Proof.
  intros Hnd. unfold obj_set. destruct (obj_get k o) eqn:E.
  - by rewrite obj_replace_keys.
  - apply obj_get_None_keys in E. unfold obj_add. destruct (arrayIndex k).
    + rewrite obj_insert_index_keys. by constructor.
    + rewrite fmap_app /=. apply NoDup_app. split_and!; [done | | apply NoDup_singleton].
      intros x Hx ->%list_elem_of_singleton. done.
Qed.

Lemma obj_delete_NoDup k o : NoDup o.*1 -> NoDup (obj_delete k o).*1.
Proof.
  unfold obj_delete. induction o as [|[k0 v0] o IH]; [done|]. simpl.
  intros [Hnotin Hnd]%NoDup_cons. destruct (negb (String.eqb k0 k)); simpl; [|auto].
  constructor; [|auto]. intros Hin. apply Hnotin.
  apply list_elem_of_fmap in Hin as ([k1 v1] & -> & Hin).
  apply list_elem_of_In, filter_In in Hin as [Hin _]. apply list_elem_of_In in Hin.
  apply list_elem_of_fmap. by exists (k1, v1).
Qed.
End RegistryKeys.

Lemma wellKeyed_putLobby lobbyCode lobby w : wellKeyed w -> wellKeyed (putLobby lobbyCode lobby w).
Proof. apply obj_set_NoDup. Qed.

Lemma wellKeyed_lobbies w w' : lobbies w' = lobbies w -> wellKeyed w -> wellKeyed w'.
Proof. unfold wellKeyed. by intros ->. Qed.

Lemma startNextRound_wellKeyed lobbyCode w w' out :
  startNextRound lobbyCode w = Done w' out -> wellKeyed w -> wellKeyed w'.
Proof.
  intros [[_ ->]|(l & l' & r' & _ & _ & ->)]%startNextRound_Done Hw; [done|].
  by apply (wellKeyed_putLobby lobbyCode l').
Qed.

(** Closes a goal [wellKeyed w'] when [w'] is written from a well-keyed
    world with [putLobby], [obj_delete] and [startNextRound]. *)
Ltac solve_keys :=
  repeat match goal with
  | H : startNextRound _ _ = Done ?w' _ |- wellKeyed ?w' =>
      apply (startNextRound_wellKeyed _ _ _ _ H)
  | H : emitting _ (startNextRound _ _) = Done _ _ |- _ =>
      apply emitting_Done in H as (? & H & _)
  | |- wellKeyed (putLobby _ _ _) => apply wellKeyed_putLobby
  | |- wellKeyed (set_rng _ ?w) => change (wellKeyed w)
  | |- wellKeyed (set_timers _ ?w) => change (wellKeyed w)
  | |- wellKeyed (set_lobbies (obj_delete _ _) _) => apply obj_delete_NoDup
  | H : wellKeyed ?w |- wellKeyed ?w => exact H
  | H : wellKeyed ?w |- NoDup (lobbies ?w).*1 => exact H
  end.

Lemma step_wellKeyed w i w' out : wellKeyed w -> step w i = Done w' out -> wellKeyed w'.
Proof.
  intros Hw Hstep. destruct i as [socketId|socketId e|]; simpl in Hstep.
  - unfold connection in Hstep. by simplify_eq.
  - destruct e; simpl in Hstep.
    + unfold getPackList in Hstep. by simplify_eq.
    + unfold createLobby in Hstep. repeat case_match; simplify_eq; solve_keys.
    + unfold joinLobby in Hstep. repeat case_match; simplify_eq; solve_keys.
    + unfold getPublicLobbies in Hstep. by repeat case_match; simplify_eq.
    + unfold updateSettings in Hstep. repeat case_match; simplify_eq; solve_keys.
    + unfold startGame in Hstep. repeat case_match; simplify_eq; solve_keys.
    + unfold submitCards in Hstep. repeat case_match; simplify_eq; solve_keys.
    + unfold selectWinner in Hstep. cbv zeta in Hstep.
      repeat case_match; simplify_eq; solve_keys.
    + unfold requestNextRound in Hstep. repeat case_match; simplify_eq; solve_keys.
    + unfold disconnect in Hstep. cbv zeta in Hstep.
      repeat case_match; simplify_eq; solve_keys.
  - destruct (timers w) as [|lobbyCode pending]; [by simplify_eq|].
    unfold autoAdvance in Hstep. cbn [lobbies set_timers] in Hstep.
    repeat case_match; simplify_eq; solve_keys.
Qed.

(** Every world the server reaches has distinct registry keys. *)
Lemma reachable_wellKeyed w : reachable w -> wellKeyed w.
Proof.
  induction 1 as [w Hnil _|w i w' out _ IH Hstep].
  - unfold wellKeyed. rewrite Hnil. constructor.
  - by eapply step_wellKeyed.
Qed.

(** ** The round timer, when it fires *)

(** C8, as the callback has it. The callback of the five-second timer set
    by [selectWinner] looks the lobby up again when it fires. If the lobby
    is registered and in [roundOver] the callback starts the next round,
    whichever round set the timer: the check is on the state alone.
    Otherwise it changes nothing and emits nothing: the timer is only
    removed from the pending ones. So it is for a timer that fires in the
    world a manual [requestNextRound] has left, which took the lobby from
    [roundOver] to [playing] or [gameOver]; for a timer that fires after
    the game has ended; and for a timer whose lobby is deleted. *)
Theorem autoAdvance_revalidates (w : World) (lobbyCode : string) (pending : list string) :
  timers w = lobbyCode :: pending ->
  (forall lobby,
     obj_get lobbyCode (lobbies w) = Some lobby -> gameState lobby = roundOver ->
     step w TimerFires = startNextRound lobbyCode (set_timers pending w)) /\
  ((forall lobby, obj_get lobbyCode (lobbies w) = Some lobby -> gameState lobby <> roundOver) ->
   step w TimerFires = Done (set_timers pending w) []) /\
  (forall w0 socketId out0 lobby0,
     obj_get lobbyCode (lobbies w0) = Some lobby0 ->
     gameState lobby0 = roundOver ->
     requestNextRound w0 socketId lobbyCode = Done w out0 ->
     step w TimerFires = Done (set_timers pending w) []) /\
  (forall lobby,
     obj_get lobbyCode (lobbies w) = Some lobby -> gameState lobby = gameOver ->
     step w TimerFires = Done (set_timers pending w) []) /\
  (obj_get lobbyCode (lobbies w) = None ->
   step w TimerFires = Done (set_timers pending w) []).
Proof.
  intros Ht.
  assert (Hstep : step w TimerFires = autoAdvance lobbyCode (set_timers pending w))
    by (by rewrite /= Ht).
  assert (Hstale : (forall lobby, obj_get lobbyCode (lobbies w) = Some lobby ->
                                  gameState lobby <> roundOver) ->
                   step w TimerFires = Done (set_timers pending w) []).
  { intros Hnot. rewrite Hstep /autoAdvance. cbn [lobbies set_timers].
    destruct (obj_get lobbyCode (lobbies w)) as [lobby|] eqn:Hl; [|done].
    specialize (Hnot lobby eq_refl). by destruct (gameState lobby). }
  split_and!.
  - intros lobby Hl Hover. rewrite Hstep. by eapply autoAdvance_fires.
  - exact Hstale.
  - intros w0 socketId out0 lobby0 Hl0 Hover Hreq. apply Hstale.
    intros lobby Hl.
    unfold requestNextRound in Hreq. rewrite Hl0 Hover orb_true_r /= in Hreq.
    destruct (startNextRound_gameState _ _ _ _ _ _ _ Hreq Hl0 Hl) as [[Hne _]|[_ Hs]];
      [done|].
    destruct Hs as [-> | ->]; discriminate.
  - intros lobby Hl Hover. apply Hstale. intros lobby1 Hl1.
    rewrite Hl in Hl1. injection Hl1 as <-. by rewrite Hover.
  - intros Hnone. apply Hstale. intros lobby Hl. congruence.
Qed.

Lemma autoAdvance_revalidates_witness :
  timers staleTimerWorld = ["00000"] /\
  step staleTimerWorld TimerFires = Done (set_timers [] staleTimerWorld) [].
Proof.
  split; [by vm_compute|].
  destruct (autoAdvance_revalidates staleTimerWorld "00000" []) as (_ & _ & Hreq & _);
    [by vm_compute|].
  eapply (Hreq roundOverWorld "s0").
  - by vm_compute.
  - reflexivity.
  - by vm_compute.
Defined.

(** The claim C8 fails for a timer that waits until the lobby is in
    [roundOver] once more. The timer of the first round is pending when
    the host asks for the next round. The second round is played to its
    end before that timer fires; the lobby is in [roundOver] again with
    czar [s2], and two timers wait. The older one fires: it starts the
    third round, with czar [s3], and five messages go out. *)
Lemma stale_timer_counterexample :
  exists out2 before w' out after,
    timers staleTimerWorld = ["00000"] /\
    run staleTimerWorld secondRound = Done twoTimersWorld out2 /\
    timers twoTimersWorld = ["00000"; "00000"] /\
    obj_get "00000" (lobbies twoTimersWorld) = Some before /\
    gameState before = roundOver /\ czarId before = Some "s2" /\
    step twoTimersWorld TimerFires = Done w' out /\
    timers w' = ["00000"] /\
    obj_get "00000" (lobbies w') = Some after /\
    gameState after = playing /\ czarId after = Some "s3" /\
    length out = 5.
Proof.
  eexists _, _, _, _, _.
  split; [by vm_compute|]. split; [by vm_compute|]. split; [by vm_compute|].
  split; [by vm_compute|]. split; [reflexivity|]. split; [reflexivity|].
  split; [by vm_compute|]. split; [reflexivity|]. split; [by vm_compute|].
  by split_and!.
Qed.

(** ** The earlier timer callback *)

(** The callback of the second copy of the server does not look at
    [roundOver]: fired after the host's [requestNextRound]
    has put the lobby in [playing], it starts yet another round. *)
Lemma autoAdvanceLegacy_stale_timer :
  exists before w' out after,
    obj_get "00000" (lobbies staleTimerWorld) = Some before /\
    autoAdvanceLegacy "00000" staleTimerWorld = Done w' out /\
    obj_get "00000" (lobbies w') = Some after /\
    gameState before = playing /\ czarId before = Some "s2" /\
    gameState after = playing /\ czarId after = Some "s3".
Proof.
  eexists _, _, _, _.
  split; [by vm_compute|]. split; [by vm_compute|]. split; [by vm_compute|]. by split_and!.
Qed.

(** * Further properties of the server *)

(** ** Shuffling *)

Lemma shuffleFrom_rng {A} (i : nat) (array : list A) (r : Rng) (k : nat) :
  (shuffleFrom i array r).2 k = r (i + k).
Proof.
  revert array r k. induction i as [|i IH]; intros array r k; [done|].
  cbn [shuffleFrom]. unfold randomBelow. by rewrite IH.
Qed.

Lemma shuffleFrom_length {A} (i : nat) (array : list A) (r : Rng) :
  length (shuffleFrom i array r).1 = length array.
Proof. apply Permutation_length, shuffleFrom_Permutation. Qed.

(** X1. [shuffleArray] rearranges: for every random stream the result is a
    permutation of the array, and the shuffle draws exactly [length - 1]
    random numbers (none for an array of at most one element): the stream
    it leaves behind is the one it was given without its first
    [length - 1] numbers. *)
Theorem shuffleArray_rearranges {A} (array : list A) (r : Rng) :
  (shuffleArray array r).1 ≡ₚ array /\
  (forall k, (shuffleArray array r).2 k = rng_drop (length array - 1) r k).
Proof.
  split.
  - unfold shuffleArray. generalize (length array - 1) as i. intros i.
    revert array r. induction i as [|i IH]; intros array r; [done|].
    cbn [shuffleFrom]. unfold randomBelow. rewrite IH. apply swap_Permutation.
  - intros k. apply shuffleFrom_rng.
Qed.

Lemma swap_take {A} (n i j : nat) (l : list A) :
  i < n -> j < n -> take n (swap i j l) ≡ₚ take n l.
Proof.
  intros Hi Hj. unfold swap.
  destruct (l !! i) as [ai|] eqn:Ei; [|done].
  destruct (l !! j) as [aj|] eqn:Ej; [|done].
  rewrite !take_insert_lt //.
  apply Permutation_insert_swap; by rewrite lookup_take_lt.
Qed.

Lemma swap_drop {A} (n i j : nat) (l : list A) :
  i < n -> j < n -> drop n (swap i j l) = drop n l.
Proof.
  intros Hi Hj. unfold swap.
  destruct (l !! i) as [ai|] eqn:Ei; [|done].
  destruct (l !! j) as [aj|] eqn:Ej; [|done].
  rewrite !drop_insert_lt //.
Qed.

Lemma swap_lookup_l {A} (i j : nat) (l : list A) (x : A) :
  i < length l -> l !! j = Some x -> swap i j l !! i = Some x.
Proof.
  intros Hi Hj. unfold swap.
  destruct (lookup_lt_is_Some_2 l i Hi) as [ai Ei]. rewrite Ei Hj.
  destruct (decide (i = j)) as [->|Hne].
  - rewrite list_lookup_insert_eq ?length_insert //. congruence.
  - rewrite list_lookup_insert_ne // list_lookup_insert_eq //.
Qed.

Lemma swap_length {A} (i j : nat) (l : list A) : length (swap i j l) = length l.
Proof. apply Permutation_length, swap_Permutation. Qed.

(** The loop entered at [i] can arrange the first [i + 1] elements in any
    order. *)
Lemma shuffleFrom_reaches {A} (i : nat) : forall (array target : list A),
  S i <= length array ->
  length target = length array ->
  take (S i) target ≡ₚ take (S i) array ->
  drop (S i) target = drop (S i) array ->
  exists r, (shuffleFrom i array r).1 = target.
Proof.
  induction i as [|i IH]; intros array target Hlen Hlt Htake Hdrop.
  - exists (fun _ => 0). simpl.
    rewrite -(take_drop 1 target) -(take_drop 1 array) Hdrop. f_equal.
    destruct array as [|a array]; [simpl in Hlen; lia|].
    destruct target as [|t target]; [done|]. simpl in *.
    by apply Permutation_singleton_r in Htake.
  - destruct (lookup_lt_is_Some_2 target (S i)) as [x Hx]; [lia|].
    assert (Hin : x ∈ take (S (S i)) array).
    { rewrite -Htake. apply list_elem_of_lookup. exists (S i).
      rewrite lookup_take_lt //. lia. }
    apply list_elem_of_lookup in Hin as [j Hj].
    pose proof (lookup_lt_Some _ _ _ Hj) as Hjlt. rewrite length_take in Hjlt.
    rewrite lookup_take_lt in Hj; [lia|].
    set (array1 := swap (S i) j array).
    assert (Hx1 : array1 !! S i = Some x) by (apply swap_lookup_l; [lia | done]).
    destruct (IH array1 target) as [r Hr].
    + rewrite swap_length. lia.
    + by rewrite swap_length.
    + assert (Hp : take (S (S i)) target ≡ₚ take (S (S i)) array1).
      { rewrite Htake. symmetry. apply swap_take; lia. }
      rewrite (take_S_r target (S i) x) // (take_S_r array1 (S i) x) // in Hp.
      by apply Permutation_app_inv_r in Hp.
    + rewrite (drop_S target x (S i)) // (drop_S array1 x (S i)) //. f_equal.
      rewrite Hdrop. symmetry. apply swap_drop; lia.
    + exists (fun k => match k with 0 => j | S k' => r k' end).
      cbn [shuffleFrom]. unfold randomBelow, rng_tail.
      rewrite Nat.mod_small; [lia|]. exact Hr.
Qed.

(** X2. Every order can come out of [shuffleArray]: for each permutation of
    the array there is a random stream on which the shuffle returns it. *)
Theorem shuffleArray_reaches {A} (array target : list A) :
  target ≡ₚ array -> exists r, (shuffleArray array r).1 = target.
Proof.
  intros Hperm. pose proof (Permutation_length Hperm) as Hlen.
  destruct array as [|a array].
  - apply Permutation_nil_r in Hperm as ->. by exists (fun _ => 0).
  - unfold shuffleArray. apply shuffleFrom_reaches.
    + simpl. lia.
    + done.
    + rewrite !take_ge; [simpl in *; lia..|]. done.
    + rewrite !drop_ge; [simpl in *; lia..|]. done.
Qed.

Lemma shuffleArray_reaches_witness :
  exists r, (shuffleArray ["a"; "b"; "c"] r).1 = ["c"; "a"; "b"].
Proof. apply shuffleArray_reaches. solve_Permutation. Defined.

(** ** Dealing *)

(** X3. [dealWhiteCards] takes cards from the white supply and puts them at
    the end of the player's hand: as many as asked for, or all the supply
    has when it has fewer. No card is lost or made up, and nothing but the
    two white piles and that one hand changes. *)
Theorem dealWhiteCards_moves_cards (lobby : Lobby) (player : Player) (count : nat) (r : Rng) :
  exists dealt,
    p_hand (dealWhiteCards lobby player count r).1.2 = p_hand player ++ dealt /\
    length dealt = count `min` length (whiteSupply lobby) /\
    whiteSupply (dealWhiteCards lobby player count r).1.1 ++ dealt ≡ₚ whiteSupply lobby /\
    whiteFrame lobby (dealWhiteCards lobby player count r).1.1 /\
    (dealWhiteCards lobby player count r).1.2 =
      set_hand (p_hand (dealWhiteCards lobby player count r).1.2) player.
Proof.
  pose proof (dealWhiteCards_spec count lobby player r) as Hspec.
  destruct (dealWhiteCards lobby player count r) as [[lobby' player'] r'].
  destruct Hspec as (Hfr & Hpl & dealt & Hhand & Hlen & Hperm).
  exists dealt. by split_and!.
Qed.

(** While the draw pile holds as many cards as are asked for,
    [dealWhiteCards] takes exactly that many off its end, the last card
    first, and touches neither the discard pile nor the random stream. *)
Lemma dealWhiteCards_from_deck count : forall lobby player r,
  count <= length (whiteDeck lobby) ->
  dealWhiteCards lobby player count r =
    (set_whiteDeck (take (length (whiteDeck lobby) - count) (whiteDeck lobby)) lobby,
     set_hand (p_hand player ++ reverse (drop (length (whiteDeck lobby) - count) (whiteDeck lobby)))
              player,
     r).
Proof.
  induction count as [|count IH]; intros lobby player r Hle.
  - simpl. rewrite Nat.sub_0_r take_ge // drop_ge // app_nil_r.
    by destruct lobby, player.
  - cbn [dealWhiteCards].
    destruct (whiteDeck lobby) as [|c0 deck0] eqn:Hdeck; [simpl in Hle; lia|].
    rewrite refillWhiteDeck_idle; [by rewrite Hdeck|]. rewrite Hdeck.
    destruct (pop_nonempty (c0 :: deck0)) as (deck' & c & Hpop); [done|].
    rewrite Hpop. apply pop_Some in Hpop.
    assert (Hlen : length (deck' ++ [c]) = S (length deck')).
    { rewrite length_app /=. lia. }
    assert (Hle' : S count <= length (deck' ++ [c])) by (by rewrite -Hpop).
    rewrite IH; cbn [whiteDeck set_whiteDeck p_hand set_hand]; [lia|].
    rewrite Hpop Hlen.
    replace (S (length deck') - S count) with (length deck' - count) by lia.
    rewrite take_app_le; [lia|]. rewrite drop_app_le; [lia|].
    rewrite reverse_app /= -assoc /=.
    by destruct lobby, player.
Qed.

(** ** The card catalogue *)

Lemma numberWhite_spec cards : forall n,
  numberWhite cards n =
    (imap (fun k c => {| wc_text := dw_text c; wc_pack := dw_pack c;
                         wc_id := "w_" +:+ pretty (n + k) |}) cards,
     n + length cards).
Proof.
  induction cards as [|c cards IH]; intros n; cbn [numberWhite].
  - by rewrite Nat.add_0_r.
  - rewrite IH /= Nat.add_0_r. f_equal; [f_equal|lia].
    apply imap_ext => k c' _ /=. do 3 f_equal. lia.
Qed.

Lemma numberBlack_spec cards : forall n,
  numberBlack cards n =
    (imap (fun k c => {| bc_text := db_text c; bc_pick := db_pick c; bc_pack := db_pack c;
                         bc_id := "b_" +:+ pretty (n + k) |}) cards,
     n + length cards).
Proof.
  induction cards as [|c cards IH]; intros n; cbn [numberBlack].
  - by rewrite Nat.add_0_r.
  - rewrite IH /= Nat.add_0_r. f_equal; [f_equal|lia].
    apply imap_ext => k c' _ /=. do 4 f_equal. lia.
Qed.

Lemma getPacksFrom_counters deck indexes : forall n,
  exists ws bs : list nat,
    wc_id <$> (getPacksFrom deck indexes n).1 = (fun k => "w_" +:+ pretty k) <$> ws /\
    bc_id <$> (getPacksFrom deck indexes n).2 = (fun k => "b_" +:+ pretty k) <$> bs /\
    NoDup (ws ++ bs) /\
    Forall (fun k => n <= k) (ws ++ bs).
Proof.
  induction indexes as [|packNum indexes IH]; intros n; cbn [getPacksFrom].
  - exists [], []. split_and!; [done..|constructor|constructor].
  - destruct (deck !! packNum) as [pk|]; [|apply IH].
    rewrite numberWhite_spec numberBlack_spec.
    destruct (IH (n + length (pk_white pk) + length (pk_black pk)))
      as (ws & bs & Hw & Hb & Hnd & Hge).
    destruct (getPacksFrom deck indexes _) as [white black]; simpl in *.
    exists (seq n (length (pk_white pk)) ++ ws),
           (seq (n + length (pk_white pk)) (length (pk_black pk)) ++ bs).
    split_and!.
    + rewrite !fmap_app Hw. f_equal.
      apply list_eq => i. rewrite !list_lookup_fmap list_lookup_imap.
      destruct (pk_white pk !! i) as [c|] eqn:Hc; simpl.
      * by rewrite (lookup_seq_lt _ _ _ (lookup_lt_Some _ _ _ Hc)).
      * by rewrite lookup_seq_ge; [by apply lookup_ge_None|].
    + rewrite !fmap_app Hb. f_equal.
      apply list_eq => i. rewrite !list_lookup_fmap list_lookup_imap.
      destruct (pk_black pk !! i) as [c|] eqn:Hc; simpl.
      * by rewrite (lookup_seq_lt _ _ _ (lookup_lt_Some _ _ _ Hc)).
      * by rewrite lookup_seq_ge; [by apply lookup_ge_None|].
    + assert (Hperm : (seq n (length (pk_white pk)) ++ ws) ++
                      seq (n + length (pk_white pk)) (length (pk_black pk)) ++ bs
                      ≡ₚ seq n (length (pk_white pk) + length (pk_black pk)) ++ (ws ++ bs)).
      { rewrite seq_app. solve_Permutation. }
      rewrite Hperm.
      apply NoDup_app. split_and!; [apply NoDup_seq| |done].
      intros k Hk%elem_of_seq Hin. rewrite ->Forall_forall in Hge.
      apply Hge in Hin. lia.
    + rewrite ->!Forall_app in *. destruct Hge as [Hgw Hgb].
      split_and!.
      * apply Forall_forall => k /elem_of_seq. lia.
      * eapply Forall_impl; [exact Hgw|]. simpl. lia.
      * apply Forall_forall => k /elem_of_seq. lia.
      * eapply Forall_impl; [exact Hgb|]. simpl. lia.
Qed.

(** X4. The ids [getPacks] hands out are pairwise distinct over the white
    and the black cards together, whatever the index list: also when it
    names a pack twice or names packs that do not exist. *)
Theorem getPacks_ids_distinct (deck : list Pack) (indexes : list nat) :
  NoDup ((wc_id <$> (getPacks deck indexes).1) ++ (bc_id <$> (getPacks deck indexes).2)).
Proof.
  rewrite /getPacks.
  destruct (getPacksFrom_counters deck
              (match indexes with [] => seq 0 (length deck) | _ => indexes end) 0)
    as (ws & bs & -> & -> & Hnd & _).
  apply NoDup_app in Hnd as (Hws & Hdisj & Hbs).
  apply NoDup_app. split_and!.
  - apply NoDup_fmap_2; [|done]. intros x y [=]. by apply (inj pretty).
  - intros id (k & -> & _)%list_elem_of_fmap (k' & Heq & _)%list_elem_of_fmap.
    discriminate Heq.
  - apply NoDup_fmap_2; [|done]. intros x y [=]. by apply (inj pretty).
Qed.

Lemma getPacksFrom_faces deck indexes : forall n,
  whiteFace <$> (getPacksFrom deck indexes n).1 = omap (fun i => deck !! i) indexes ≫= pk_white /\
  blackFace <$> (getPacksFrom deck indexes n).2 = omap (fun i => deck !! i) indexes ≫= pk_black.
Proof.
  induction indexes as [|packNum indexes IH]; intros n; cbn [getPacksFrom omap list_omap]; [done|].
  destruct (deck !! packNum) as [pk|]; [|apply IH].
  rewrite numberWhite_spec numberBlack_spec.
  destruct (IH (n + length (pk_white pk) + length (pk_black pk))) as [Hw Hb].
  destruct (getPacksFrom deck indexes _) as [white black]; simpl in *.
  rewrite !fmap_app Hw Hb. split; f_equal.
  - apply list_eq => i. rewrite list_lookup_fmap list_lookup_imap.
    by destruct (pk_white pk !! i) as [[]|].
  - apply list_eq => i. rewrite list_lookup_fmap list_lookup_imap.
    by destruct (pk_black pk !! i) as [[]|].
Qed.

Lemma omap_lookup_seq {A} (l : list A) : forall pre,
  omap (fun i => (pre ++ l) !! i) (seq (length pre) (length l)) = l.
Proof.
  induction l as [|x l IH]; intros pre; [done|].
  cbn [length seq omap list_omap].
  rewrite list_lookup_middle //. f_equal.
  specialize (IH (pre ++ [x])). rewrite -assoc length_app /= Nat.add_1_r in IH.
  exact IH.
Qed.

Lemma getPacks_lengths_one deck i pk :
  deck !! i = Some pk ->
  length (getPacks deck [i]).1 = length (pk_white pk) /\
  length (getPacks deck [i]).2 = length (pk_black pk).
Proof.
  intros Hpk.
  destruct (getPacksFrom_faces deck [i] 0) as [Hw Hb].
  apply (f_equal length) in Hw, Hb. rewrite length_fmap in Hw. rewrite length_fmap in Hb.
  rewrite /getPacks Hw Hb /= Hpk /= !app_nil_r. done.
Qed.

Lemma getPacks_faces_eq deck indexes :
  whiteFace <$> (getPacks deck indexes).1 = selectedPacks deck indexes ≫= pk_white /\
  blackFace <$> (getPacks deck indexes).2 = selectedPacks deck indexes ≫= pk_black.
Proof. apply getPacksFrom_faces. Qed.

(** X5. For indexes that [parseInt] gives back unchanged ([plainIndex]:
    whole numbers below 10^21), [getPacks] returns, apart from the ids,
    the cards of the selected packs unchanged and in order: pack by pack
    in the order the indexes name them, each pack's cards in catalogue
    order. Indexes of packs that do not exist contribute nothing, a pack
    named twice contributes twice, and the empty index list selects the
    whole catalogue. *)
Theorem getPacks_faces (deck : list Pack) (indexes : list nat) :
  Forall plainIndex indexes ->
  whiteFace <$> (getPacks deck indexes).1 = selectedPacks deck indexes ≫= pk_white /\
  blackFace <$> (getPacks deck indexes).2 = selectedPacks deck indexes ≫= pk_black /\
  selectedPacks deck [] = deck.
Proof.
  intros _.
  split_and!; [apply getPacksFrom_faces..|].
  exact (omap_lookup_seq deck []).
Qed.

Lemma getPacks_faces_witness :
  Forall plainIndex [2; 7; 2] /\
  whiteFace <$> (getPacks (globalCAHDeck world0) [2; 7; 2]).1 =
    pk_white shortPack ++ pk_white shortPack.
Proof.
  assert (Hplain : Forall plainIndex [2; 7; 2]).
  { repeat (apply List.Forall_cons; [reflexivity|]). apply List.Forall_nil. }
  split; [exact Hplain|].
  destruct (getPacks_faces (globalCAHDeck world0) [2; 7; 2] Hplain) as (-> & _).
  by vm_compute.
Defined.

(** X6. The pack list and the deal agree: the entry [listPacks] shows at
    position [i] carries the id [i], and the white and black counts it
    reports are the numbers of cards [getPacks] deals when that pack alone
    is selected. *)
Theorem listPacks_counts_dealt (deck : list Pack) (i : nat) (info : PackInfo) :
  listPacks deck !! i = Some info ->
  pi_id info = i /\
  length (getPacks deck [i]).1 = cnt_white (pi_counts info) /\
  length (getPacks deck [i]).2 = cnt_black (pi_counts info) /\
  cnt_total (pi_counts info) = length (getPacks deck [i]).1 + length (getPacks deck [i]).2.
Proof.
  rewrite /listPacks list_lookup_imap => Hinfo.
  destruct (deck !! i) as [pk|] eqn:Hpk; [|done].
  injection Hinfo as <-. cbn [pi_id pi_counts cnt_white cnt_black cnt_total].
  destruct (getPacks_lengths_one deck i pk Hpk) as [-> ->]. done.
Qed.

Lemma listPacks_counts_dealt_witness :
  length (getPacks (globalCAHDeck world0) [2]).1 = 30.
Proof.
  by destruct (listPacks_counts_dealt (globalCAHDeck world0) 2 _ eq_refl) as (_ & -> & _).
Defined.

(** ** Round start *)

(** X7. A round start keeps the cards of the piles and the hands. In a
    registered lobby with at least one member [startNextRound] returns
    normally, and afterwards the white cards of the two white piles and
    the hands are those of before, the black cards of the prompt and the
    two black piles are those of before, every member keeps id, name and
    score and has the old hand with cards added at its end; every other
    lobby is untouched. The cards of pending submissions are not among
    the cards kept: the list of submissions is emptied and every
    member's submission slot cleared, and no card is put back for them. *)
Theorem startNextRound_conserves_cards (w : World) (lobbyCode : string) (lobby : Lobby) :
  obj_get lobbyCode (lobbies w) = Some lobby ->
  players lobby <> [] ->
  exists w' out lobby',
    startNextRound lobbyCode w = Done w' out /\
    obj_get lobbyCode (lobbies w') = Some lobby' /\
    whiteSupply lobby' ++ concat (p_hand <$> players lobby') ≡ₚ
      whiteSupply lobby ++ concat (p_hand <$> players lobby) /\
    option_list (currentBlackCard lobby') ++ blackSupply lobby' ≡ₚ
      option_list (currentBlackCard lobby) ++ blackSupply lobby /\
    Forall2 (fun p p' =>
               p_id p' = p_id p /\ p_name p' = p_name p /\ p_score p' = p_score p /\
               p_submittedCards p' = None /\
               exists dealt, p_hand p' = p_hand p ++ dealt)
            (players lobby) (players lobby') /\
    (forall c, c <> lobbyCode -> obj_get c (lobbies w') = obj_get c (lobbies w)) /\
    roundSubmissions lobby' = [].
Proof.
  intros Hl Hne.
  destruct (startNextRoundIn_spec lobbyCode lobby (rng w) Hne)
    as (lobby' & r' & out & czar & Hin & _ & _ & Hsubs & _ & _ & Hgrown & Hcases).
  destruct (startNextRound_registered _ _ _ _ _ _ Hl Hin) as (Hrun & Hget & Hother).
  eexists _, out, lobby'.
  split_and!; [exact Hrun | exact Hget | | | | exact Hother | exact Hsubs].
  - destruct Hcases as [(_ & _ & Hps & Hwd & Hwdd & _)|(_ & _ & _ & _ & Hw & _)]; [|done].
    rewrite /whiteSupply Hps Hwd Hwdd -list_fmap_compose. done.
  - destruct Hcases as [(Hno & _ & _ & _ & _ & Hbd & Hbdd & Hc)|(_ & _ & (c & Hc & Hb) & _)].
    + rewrite Hc Hno /blackSupply Hbd Hbdd. done.
    + rewrite Hc /= Hb. solve_Permutation.
  - apply (proj1 (Forall2_fmap_l (set_submittedCards None) handGrown _ _)) in Hgrown.
    eapply Forall2_impl; [exact Hgrown|]. intros p p' Hg. simpl in Hg.
    pose proof (handGrown_fields _ _ Hg) as (Hid & Hname & Hscore & Hsub).
    destruct Hg as [_ Hdealt]. by destruct p.
Qed.

Lemma startNextRound_conserves_cards_witness :
  exists w' out lobby',
    startNextRound "00000" playingWorld = Done w' out /\
    obj_get "00000" (lobbies w') = Some lobby' /\
    length (whiteSupply lobby' ++ concat (p_hand <$> players lobby')) = 45.
Proof.
  edestruct (startNextRound_conserves_cards playingWorld "00000")
    as (w' & out & lobby' & Hrun & Hget & Hwhite & _).
  - by vm_compute.
  - by vm_compute.
  - exists w', out, lobby'. split_and!; [done..|].
    by rewrite Hwhite.
Defined.

Lemma findIndex_first {A} (f : A -> bool) (l : list A) (i : nat) (x : A) :
  l !! i = Some x -> f x = true ->
  (forall j y, j < i -> l !! j = Some y -> f y = false) ->
  findIndex f l = Some i.
Proof.
  revert i. induction l as [|a l IH]; intros i Hx Hf Hfirst; [done|].
  destruct i as [|i]; simpl in *.
  - injection Hx as ->. by rewrite Hf.
  - rewrite (Hfirst 0 a); [lia|done|].
    rewrite (IH i Hx Hf); [|done].
    intros j y Hj Hy. apply (Hfirst (S j) y); [lia|done].
Qed.

(** X8. The czar's seat moves on by one. When the current czar sits at
    position [i] of the roster (the first position with that id),
    [startNextRound] makes the member at position [(i + 1) mod n] the czar,
    [n] the number of members: the one after the czar, or the first member
    when the czar is the last. *)
Theorem startNextRound_rotates_czar (w : World) (lobbyCode : string) (lobby : Lobby)
  (i : nat) (czar : Player) :
  obj_get lobbyCode (lobbies w) = Some lobby ->
  players lobby !! i = Some czar ->
  czarId lobby = Some (p_id czar) ->
  (forall j p, j < i -> players lobby !! j = Some p -> p_id p <> p_id czar) ->
  exists w' out lobby' next,
    startNextRound lobbyCode w = Done w' out /\
    obj_get lobbyCode (lobbies w') = Some lobby' /\
    players lobby !! ((i + 1) mod length (players lobby)) = Some next /\
    czarId lobby' = Some (p_id next).
Proof.
  intros Hl Hi Hczar Hfirst.
  assert (Hne : players lobby <> []) by (intros Hnil; by rewrite Hnil in Hi).
  destruct (startNextRoundIn_spec lobbyCode lobby (rng w) Hne)
    as (lobby' & r' & out & next & Hin & Hnext & Hid & _).
  destruct (startNextRound_registered _ _ _ _ _ _ Hl Hin) as (Hrun & Hget & _).
  eexists _, out, lobby', next. split_and!; [exact Hrun | exact Hget | | exact Hid].
  rewrite -Hnext /nextCzarIndex.
  rewrite (findIndex_first _ _ i czar Hi); [by rewrite Hczar /= String.eqb_refl| |done].
  intros j p Hj Hp. rewrite Hczar /=. apply String.eqb_neq. by eapply Hfirst.
Qed.

Lemma startNextRound_rotates_czar_witness :
  exists w' out lobby',
    startNextRound "00000" playingWorld = Done w' out /\
    obj_get "00000" (lobbies w') = Some lobby' /\
    czarId lobby' = Some "s2".
Proof.
  odestruct (startNextRound_rotates_czar playingWorld "00000" _ 1)
    as (w' & out & lobby' & next & Hrun & Hget & Hnext & Hid).
  - by vm_compute.
  - by vm_compute.
  - by vm_compute.
  - intros [|j] p Hj; [|lia]. vm_compute. by intros [= <-].
  - exists w', out, lobby'. split_and!; [done..|].
    vm_compute in Hnext. injection Hnext as <-. exact Hid.
Defined.

(** X9. When no member carries the czar id (no czar was ever named, or
    the czar has left the lobby), [startNextRound] makes the first member
    of the roster the czar. *)
Theorem startNextRound_czar_absent (w : World) (lobbyCode : string) (lobby : Lobby)
  (first : Player) :
  obj_get lobbyCode (lobbies w) = Some lobby ->
  players lobby !! 0 = Some first ->
  Forall (fun p => czarId lobby <> Some (p_id p)) (players lobby) ->
  exists w' out lobby',
    startNextRound lobbyCode w = Done w' out /\
    obj_get lobbyCode (lobbies w') = Some lobby' /\
    czarId lobby' = Some (p_id first).
Proof.
  intros Hl Hfirst Habsent.
  assert (Hne : players lobby <> []) by (intros Hnil; by rewrite Hnil in Hfirst).
  destruct (startNextRoundIn_spec lobbyCode lobby (rng w) Hne)
    as (lobby' & r' & out & next & Hin & Hnext & Hid & _).
  destruct (startNextRound_registered _ _ _ _ _ _ Hl Hin) as (Hrun & Hget & _).
  eexists _, out, lobby'. split_and!; [exact Hrun | exact Hget |].
  rewrite Hid. do 2 f_equal.
  assert (Hidx : nextCzarIndex lobby = 0).
  { rewrite /nextCzarIndex.
    assert (findIndex (fun p => idIs (czarId lobby) (p_id p)) (players lobby) = None) as ->;
      [|done].
    apply findIndex_None. eapply Forall_impl; [exact Habsent|].
    intros p Hp. simpl in *. destruct (czarId lobby) as [c|]; [|done].
    simpl. apply String.eqb_neq. congruence. }
  rewrite Hidx Hfirst in Hnext. by injection Hnext.
Qed.

Lemma startNextRound_czar_absent_witness :
  exists w' out lobby',
    startNextRound "00000" (default world0 (worldAfter (lobbyOfThree None))) = Done w' out /\
    obj_get "00000" (lobbies w') = Some lobby' /\
    czarId lobby' = Some "s0".
Proof.
  odestruct (startNextRound_czar_absent (default world0 (worldAfter (lobbyOfThree None)))
               "00000")
    as (w' & out & lobby' & Hrun & Hget & Hid).
  - by vm_compute.
  - by vm_compute.
  - vm_compute. by repeat constructor.
  - by exists w', out, lobby'.
Defined.

(** The black piles are empty: the round start ends the game. *)
Lemma startNextRoundIn_exhausted lobbyCode lobby r :
  players lobby <> [] ->
  blackSupply lobby = [] ->
  exists lobby',
    startNextRoundIn lobbyCode lobby r =
      Some (lobby', r,
            [ toRoom lobbyCode (GameOverMessage "No more black cards!" (players lobby'));
              lobbyUpdate lobbyCode lobby' ]) /\
    gameState lobby' = gameOver /\
    players lobby' = set_submittedCards None <$> players lobby /\
    whiteDeck lobby' = whiteDeck lobby /\ whiteDiscard lobby' = whiteDiscard lobby /\
    blackSupply lobby' = [] /\ currentBlackCard lobby' = currentBlackCard lobby /\
    roundSubmissions lobby' = [] /\
    sameSession lobby lobby' /\
    czarId lobby' = p_id <$> players lobby !! nextCzarIndex lobby.
Proof.
  intros Hne Hno.
  apply app_eq_nil in Hno as [Hdeck Hdiscard].
  pose proof (nextCzarIndex_lt lobby Hne) as Hlt.
  destruct (lookup_lt_is_Some_2 (players lobby) _ Hlt) as [czar Hczar].
  unfold startNextRoundIn. rewrite nextCzarIndex_cleared. cbn [players set_players].
  rewrite list_lookup_fmap Hczar /=.
  rewrite /refillBlackDeck /= Hdeck Hdiscard.
  exists (set_gameState gameOver
            (set_czarId (Some (p_id czar))
               (set_players (set_submittedCards None <$> players lobby)
                  (set_roundWinnerInfo None
                     (set_roundSubmissions [] (set_gameState playing lobby)))))).
  split; [reflexivity|]. rewrite /blackSupply /sameSession /= Hdeck Hdiscard. done.
Qed.

(** X10. Without a black card left, in the draw pile and in the discard
    pile, [startNextRound] ends the game: the lobby is in [gameOver], the
    room is told that no black cards are left, and no card moves: piles,
    prompt and hands are as before. The czar has been moved on and the
    submissions cleared all the same. *)
Theorem startNextRound_out_of_prompts (w : World) (lobbyCode : string) (lobby : Lobby) :
  obj_get lobbyCode (lobbies w) = Some lobby ->
  players lobby <> [] ->
  blackSupply lobby = [] ->
  exists w' out lobby',
    startNextRound lobbyCode w = Done w' out /\
    obj_get lobbyCode (lobbies w') = Some lobby' /\
    gameState lobby' = gameOver /\
    out = [ toRoom lobbyCode (GameOverMessage "No more black cards!" (players lobby'));
            lobbyUpdate lobbyCode lobby' ] /\
    players lobby' = set_submittedCards None <$> players lobby /\
    whiteDeck lobby' = whiteDeck lobby /\ whiteDiscard lobby' = whiteDiscard lobby /\
    blackSupply lobby' = [] /\ currentBlackCard lobby' = currentBlackCard lobby /\
    roundSubmissions lobby' = [] /\
    czarId lobby' = p_id <$> players lobby !! nextCzarIndex lobby /\
    rng w' = rng w.
Proof.
  intros Hl Hne Hno.
  destruct (startNextRoundIn_exhausted lobbyCode lobby (rng w) Hne Hno)
    as (lobby' & Hin & Hstate & Hps & Hwd & Hwdd & Hb & Hc & Hsubs & _ & Hczar).
  destruct (startNextRound_registered _ _ _ _ _ _ Hl Hin) as (Hrun & Hget & _).
  eexists _, _, lobby'. split_and!; [exact Hrun | exact Hget | done..].
Qed.

Lemma startNextRound_out_of_prompts_witness :
  exists w' out lobby',
    startNextRound "00000" (default world0 (worldAfter (lobbyOfThree None))) = Done w' out /\
    obj_get "00000" (lobbies w') = Some lobby' /\
    gameState lobby' = gameOver.
Proof.
  odestruct (startNextRound_out_of_prompts (default world0 (worldAfter (lobbyOfThree None)))
               "00000")
    as (w' & out & lobby' & Hrun & Hget & Hstate & _).
  - by vm_compute.
  - by vm_compute.
  - by vm_compute.
  - by exists w', out, lobby'.
Defined.

(** X11. With a black card left, [startNextRound] opens a round, whatever
    the white supply holds: the lobby is in [playing] with a prompt taken
    from the black supply, the prompt of the round before lies at the end
    of the black discard pile, and no submission and no winner are
    recorded. When the white supply covers what the hands are short of,
    every member holds at least [MAX_HAND_SIZE] cards. *)
Theorem startNextRound_opens_round (w : World) (lobbyCode : string) (lobby : Lobby) :
  obj_get lobbyCode (lobbies w) = Some lobby ->
  players lobby <> [] ->
  blackSupply lobby <> [] ->
  exists w' out lobby' prompt,
    startNextRound lobbyCode w = Done w' out /\
    obj_get lobbyCode (lobbies w') = Some lobby' /\
    gameState lobby' = playing /\
    currentBlackCard lobby' = Some prompt /\
    prompt ∈ blackSupply lobby /\
    prompt :: blackSupply lobby' ≡ₚ blackSupply lobby ++ option_list (currentBlackCard lobby) /\
    (forall c, currentBlackCard lobby = Some c -> last (blackDiscard lobby') = Some c) /\
    roundSubmissions lobby' = [] /\ roundWinnerInfo lobby' = None /\
    (totalNeeded (players lobby) <= length (whiteSupply lobby) ->
     Forall (fun p => MAX_HAND_SIZE <= length (p_hand p)) (players lobby')).
Proof.
  intros Hl Hne Hsome.
  destruct (startNextRoundIn_spec lobbyCode lobby (rng w) Hne)
    as (lobby' & r' & out & czar & Hin & _ & _ & Hsubs & Hinfo & _ & _ & Hcases).
  destruct (startNextRound_registered _ _ _ _ _ _ Hl Hin) as (Hrun & Hget & _).
  destruct Hcases as [(Hno & _)|(_ & Hstate & (c & Hc & Hb) & Hlast & _ & Hfull)]; [done|].
  destruct (startNextRoundIn_draws lobbyCode lobby (rng w) Hne Hsome)
    as (l' & r1 & out1 & prompt & Hin' & Hprompt & Hfrom & _).
  rewrite Hin in Hin'. injection Hin' as <- <- <-.
  rewrite Hc in Hprompt. injection Hprompt as <-.
  eexists _, out, lobby', c.
  split_and!; [exact Hrun | exact Hget | done..].
Qed.

Lemma startNextRound_opens_round_witness :
  exists w' out lobby',
    startNextRound "00000" playingWorld = Done w' out /\
    obj_get "00000" (lobbies w') = Some lobby' /\
    gameState lobby' = playing /\
    Forall (fun p => MAX_HAND_SIZE <= length (p_hand p)) (players lobby').
Proof.
  odestruct (startNextRound_opens_round playingWorld "00000")
    as (w' & out & lobby' & prompt & Hrun & Hget & Hstate & _ & _ & _ & _ & _ & _ & Hfull).
  - by vm_compute.
  - by vm_compute.
  - by vm_compute.
  - exists w', out, lobby'.
    split; [exact Hrun|]. split; [exact Hget|]. split; [exact Hstate|].
    apply Hfull. vm_compute. lia.
Defined.

(** ** Lobby codes *)

Lemma nthCode_tail k r : nthCode k (rng_tail r) = nthCode (S k) r.
Proof. reflexivity. Qed.

Lemma nthCode_0 r : nthCode 0 r = (randomCode r).1.
Proof. reflexivity. Qed.

Lemma generateLobbyCode_first_free attempts o : forall r c r',
  generateLobbyCode attempts o r = Some (c, r') ->
  exists k, k < attempts /\ c = nthCode k r /\ obj_get c o = None /\
            (forall j, j < k -> obj_get (nthCode j r) o <> None) /\
            (forall n, r' n = rng_drop (S k) r n).
Proof.
  induction attempts as [|attempts IH]; intros r c r' Hgen; [done|].
  cbn [generateLobbyCode] in Hgen.
  destruct (randomCode r) as [c0 r0] eqn:Hcode.
  assert (Hc0 : c0 = nthCode 0 r) by (by rewrite nthCode_0 Hcode).
  assert (Hr0 : r0 = rng_tail r) by (by injection Hcode).
  destruct (obj_get c0 o) as [taken|] eqn:Hget.
  - apply IH in Hgen as (k & Hk & -> & Hfree & Hbefore & Hrng).
    rewrite Hr0 in Hfree Hbefore Hrng. rewrite Hr0.
    exists (S k). split_and!; [lia | apply nthCode_tail | exact Hfree | |].
    + intros [|j] Hj; [by rewrite -Hc0 Hget|].
      rewrite -nthCode_tail. apply (Hbefore j). lia.
    + intros n. by rewrite Hrng.
  - injection Hgen as <- <-. exists 0.
    split_and!; [lia | done | done | intros j Hj; lia | by rewrite Hr0].
Qed.

Lemma generateLobbyCode_enough attempts o : forall r k,
  k < attempts ->
  obj_get (nthCode k r) o = None ->
  is_Some (generateLobbyCode attempts o r).
Proof.
  induction attempts as [|attempts IH]; intros r k Hk Hfree; [lia|].
  cbn [generateLobbyCode].
  destruct (randomCode r) as [c0 r0] eqn:Hcode.
  assert (Hr0 : r0 = rng_tail r) by (by injection Hcode).
  destruct (obj_get c0 o) as [taken|] eqn:Hget; [|by eexists].
  destruct k as [|k].
  - rewrite nthCode_0 Hcode /= Hget in Hfree. done.
  - apply (IH r0 k); [lia|]. by rewrite Hr0 nthCode_tail.
Qed.

(** X12. [generateLobbyCode] returns the first code it draws that is not
    registered, and has then taken one random number per draw. The loop
    ends as soon as the random stream yields a free code: the run of
    [attempts] draws fails only when all those draws hit registered
    codes. *)
Theorem generateLobbyCode_first_free_code (attempts : nat) (o : list (string * Lobby))
  (r : Rng) :
  match generateLobbyCode attempts o r with
  | Some (c, r') =>
      exists k, k < attempts /\ c = nthCode k r /\ obj_get c o = None /\
                (forall j, j < k -> obj_get (nthCode j r) o <> None) /\
                (forall n, r' n = rng_drop (S k) r n)
  | None => forall k, k < attempts -> obj_get (nthCode k r) o <> None
  end.
Proof.
  destruct (generateLobbyCode attempts o r) as [[c r']|] eqn:Hgen.
  - by apply generateLobbyCode_first_free.
  - intros k Hk Hfree.
    destruct (generateLobbyCode_enough attempts o r k Hk) as [x Hx]; [|congruence].
    by destruct (obj_get (nthCode k r) o).
Qed.

(** ** Handlers: lobby set-up *)

(** X13. [createLobby] never throws, and when it returns it has registered
    one new lobby under a code that was free: the caller is its host and
    only member, with no score and no cards, the lobby waits, holds no
    cards, and has a score to win and a player limit different from zero
    (a zero sent by the client is replaced by the default). With the rooms
    feature off the lobby is private whatever the client asked for. All
    lobbies registered before are as they were. *)
Theorem createLobby_registers (attempts : nat) (w : World) (socketId playerName : string)
  (st : option SettingsPatch) :
  match createLobby attempts w socketId playerName st with
  | Done w' out =>
      exists lobbyCode lobby,
        obj_get lobbyCode (lobbies w) = None /\
        obj_get lobbyCode (lobbies w') = Some lobby /\
        (forall c, c <> lobbyCode -> obj_get c (lobbies w') = obj_get c (lobbies w)) /\
        out = [reply socketId (CreateReply lobbyCode); lobbyUpdate lobbyCode lobby] /\
        code lobby = lobbyCode /\
        players lobby = [newPlayer socketId playerName] /\
        hostId lobby = socketId /\
        gameState lobby = waiting /\
        whiteSupply lobby = [] /\ blackSupply lobby = [] /\
        currentBlackCard lobby = None /\ czarId lobby = None /\
        scoreToWin (settings lobby) <> 0%Z /\
        maxPlayers (settings lobby) <> 0%Z /\
        (if roomsFunctionality (config w) then
           isPrivate (settings lobby) = default false (st ≫= sp_isPrivate)
         else isPrivate (settings lobby) = true)
  | Throw => False
  | Spin => forall k, k < attempts -> obj_get (nthCode k (rng w)) (lobbies w) <> None
  end.
Proof.
  unfold createLobby.
  destruct (generateLobbyCode attempts (lobbies w) (rng w)) as [[lobbyCode r']|] eqn:Hgen.
  - eexists lobbyCode, _.
    split_and!; [by eapply generateLobbyCode_fresh | apply lobbies_putLobby | | reflexivity..| | |].
    + intros c Hc. by apply lobbies_putLobby_other.
    + cbn [settings scoreToWin]. unfold orDefault.
      destruct (st ≫= sp_scoreToWin) as [v|]; [|done].
      destruct (Z.eqb_spec v 0); done.
    + cbn [settings maxPlayers]. unfold orDefault.
      destruct (st ≫= sp_maxPlayers) as [v|]; [|done].
      destruct (Z.eqb_spec v 0); done.
    + cbn [settings isPrivate]. by destruct (roomsFunctionality (config w)).
  - intros k Hk Hfree.
    destruct (generateLobbyCode_enough attempts (lobbies w) (rng w) k Hk) as [x Hx];
      [|congruence].
    by destruct (obj_get (nthCode k (rng w)) (lobbies w)).
Qed.

(** X14. [joinLobby] either refuses and changes nothing, or seats the
    caller. A refusal is one message, to the caller alone. An admission
    happens only in a registered lobby that waits and has fewer members
    than its limit; the caller is then added at the end of the roster with
    no score and no cards, and nothing else changes in this lobby or any
    other. *)
Theorem joinLobby_outcomes (w w' : World) (socketId lobbyCode playerName : string)
  (out : list Emit) :
  joinLobby w socketId lobbyCode playerName = Done w' out ->
  (w' = w /\ exists msg, out = [reply socketId (FailReply msg)]) \/
  (exists lobby,
     obj_get lobbyCode (lobbies w) = Some lobby /\
     gameState lobby = waiting /\
     (Z.of_nat (length (players lobby)) < maxPlayers (settings lobby))%Z /\
     obj_get lobbyCode (lobbies w') =
       Some (set_players (players lobby ++ [newPlayer socketId playerName]) lobby) /\
     (forall c, c <> lobbyCode -> obj_get c (lobbies w') = obj_get c (lobbies w)) /\
     rng w' = rng w /\ timers w' = timers w /\
     out = [ reply socketId (JoinReply lobbyCode (settings lobby)
                               (listPacks (globalCAHDeck w)));
             lobbyUpdate lobbyCode
               (set_players (players lobby ++ [newPlayer socketId playerName]) lobby);
             toSocket socketId (HandUpdate []) ]).
Proof.
  unfold joinLobby. intros Hjoin.
  destruct (obj_get lobbyCode (lobbies w)) as [lobby|] eqn:Hl.
  - destruct (Z.of_nat (length (players lobby)) >=? maxPlayers (settings lobby))%Z eqn:Hfull.
    { injection Hjoin as <- <-. left. eauto. }
    destruct (GameState_eqb (gameState lobby) waiting) eqn:Hstate; simpl in Hjoin;
      [|injection Hjoin as <- <-; left; eauto].
    destruct (negb (allowSameNames (config w)) && _) eqn:Hname;
      [injection Hjoin as <- <-; left; eauto|].
    injection Hjoin as <- <-. right. exists lobby.
    split_and!; [done | by apply GameState_eqb_eq | lia | apply lobbies_putLobby | | done..].
    intros c Hc. by apply lobbies_putLobby_other.
  - destruct (isInheritedKey lobbyCode); [done|].
    injection Hjoin as <- <-. left. eauto.
Qed.

Lemma joinLobby_outcomes_witness :
  exists w' out,
    joinLobby (default world0 (worldAfter (lobbyOfThree None))) "s3" "00000" "Di" = Done w' out /\
    length out = 3.
Proof.
  eexists _, _. split; [by vm_compute|].
  odestruct (joinLobby_outcomes (default world0 (worldAfter (lobbyOfThree None))) _
               "s3" "00000" "Di")
    as [[_ [msg Hout]]|(lobby & _ & _ & _ & _ & _ & _ & _ & Hout)].
  - by vm_compute.
  - by vm_compute in Hout.
  - by vm_compute in Hout.
Defined.

(** X15. With [allowSameNames] off, [joinLobby] keeps the ASCII names of a
    lobby distinct up to letter case: when the members of the lobby and
    the caller have ASCII names and no two members have the same name up
    to letter case before the call, no two have after it, and the names
    are ASCII still. *)
Theorem joinLobby_keeps_names_distinct (w w' : World) (socketId lobbyCode playerName : string)
  (out : list Emit) (lobby lobby' : Lobby) :
  allowSameNames (config w) = false ->
  joinLobby w socketId lobbyCode playerName = Done w' out ->
  obj_get lobbyCode (lobbies w) = Some lobby ->
  obj_get lobbyCode (lobbies w') = Some lobby' ->
  isAscii playerName = true ->
  Forall (fun p => isAscii (p_name p) = true) (players lobby) ->
  NoDup ((fun p => toLowerCase (p_name p)) <$> players lobby) ->
  NoDup ((fun p => toLowerCase (p_name p)) <$> players lobby') /\
  Forall (fun p => isAscii (p_name p) = true) (players lobby').
Proof.
  unfold joinLobby. intros Hcfg Hjoin Hc Hc' Hname Hnames Hnd.
  assert (Hsame : w' = w ->
            NoDup ((fun p => toLowerCase (p_name p)) <$> players lobby') /\
            Forall (fun p => isAscii (p_name p) = true) (players lobby')).
  { intros ->. rewrite Hc in Hc'. by injection Hc' as <-. }
  rewrite Hc in Hjoin.
  destruct (Z.of_nat (length (players lobby)) >=? maxPlayers (settings lobby))%Z.
  { injection Hjoin as <- <-. by apply Hsame. }
  destruct (GameState_eqb (gameState lobby) waiting); simpl in Hjoin;
    [|injection Hjoin as <- <-; by apply Hsame].
  rewrite Hcfg /= in Hjoin.
  destruct (existsb _ (players lobby)) eqn:Htaken;
    [injection Hjoin as <- <-; by apply Hsame|].
  injection Hjoin as <- <-.
  rewrite lobbies_putLobby in Hc'. injection Hc' as <-.
  cbn [players set_players]. split.
  - rewrite fmap_app. apply NoDup_app.
    split_and!; [done | | apply NoDup_singleton].
    intros name (p & -> & Hp)%list_elem_of_fmap Hin. simpl in Hin.
    apply list_elem_of_singleton in Hin.
    assert (Hex : existsb (fun p => String.eqb (toLowerCase (p_name p)) (toLowerCase playerName))
                          (players lobby) = true).
    { apply existsb_exists. exists p. split; [by apply list_elem_of_In|].
      by apply String.eqb_eq. }
    congruence.
  - apply Forall_app. split; [done|]. by apply Forall_singleton.
Qed.

Lemma joinLobby_keeps_names_distinct_witness :
  exists lobby',
    lobbyAfter (lobbyOfFour None) = Some lobby' /\
    NoDup ((fun p => toLowerCase (p_name p)) <$> players lobby').
Proof.
  eexists. split; [by vm_compute|].
  eapply proj1.
  eapply (joinLobby_keeps_names_distinct (default world0 (worldAfter (lobbyOfThree None)))
            _ "s3" "00000" "Di").
  - reflexivity.
  - by vm_compute.
  - by vm_compute.
  - by vm_compute.
  - reflexivity.
  - vm_compute. by repeat constructor.
  - apply (bool_decide_unpack _). by vm_compute.
Defined.

(** X16. [joinLobby] does not look at who is calling: a socket that is
    already a member of the lobby is seated a second time when it asks
    under a name that is free, and the roster then holds two entries with
    its id. The names, of the members and the one asked for, are ASCII,
    and free means different from every member's name up to letter
    case. *)
Theorem joinLobby_seats_member_again (w : World) (socketId lobbyCode playerName : string)
  (lobby : Lobby) (member : Player) :
  obj_get lobbyCode (lobbies w) = Some lobby ->
  getLobbyPlayer lobby socketId = Some member ->
  gameState lobby = waiting ->
  (Z.of_nat (length (players lobby)) < maxPlayers (settings lobby))%Z ->
  isAscii playerName = true ->
  Forall (fun p => isAscii (p_name p) = true) (players lobby) ->
  Forall (fun p => toLowerCase (p_name p) <> toLowerCase playerName) (players lobby) ->
  exists w' out lobby',
    joinLobby w socketId lobbyCode playerName = Done w' out /\
    obj_get lobbyCode (lobbies w') = Some lobby' /\
    players lobby' = players lobby ++ [newPlayer socketId playerName] /\
    ~ NoDup (p_id <$> players lobby').
Proof.
  intros Hl Hmember Hstate Hroom _ _ Hfree. unfold joinLobby. rewrite Hl.
  assert ((Z.of_nat (length (players lobby)) >=? maxPlayers (settings lobby))%Z = false)
    as -> by lia.
  rewrite Hstate /=.
  assert (existsb (fun p => String.eqb (toLowerCase (p_name p)) (toLowerCase playerName))
                  (players lobby) = false) as ->.
  { apply not_true_is_false. intros (p & Hp & Heq)%existsb_exists.
    rewrite ->Forall_forall in Hfree. apply list_elem_of_In in Hp.
    apply String.eqb_eq in Heq. by apply (Hfree p Hp). }
  rewrite andb_false_r.
  eexists _, _, _. split_and!; [reflexivity | apply lobbies_putLobby | reflexivity |].
  cbn [players set_players]. rewrite fmap_app /=.
  intros Hnd. apply NoDup_app in Hnd as (_ & Hdisj & _).
  apply (Hdisj socketId); [|by apply list_elem_of_singleton].
  apply list_elem_of_fmap. exists member.
  apply getLobbyPlayer_id in Hmember as Hid.
  split; [done|].
  unfold getLobbyPlayer in Hmember. apply find_some in Hmember as [Hin _].
  by apply list_elem_of_In.
Qed.

Lemma joinLobby_seats_member_again_witness :
  exists w' out lobby',
    joinLobby (default world0 (worldAfter (lobbyOfThree None))) "s0" "00000" "Zed" = Done w' out /\
    obj_get "00000" (lobbies w') = Some lobby' /\
    p_id <$> players lobby' = ["s0"; "s1"; "s2"; "s0"].
Proof.
  odestruct (joinLobby_seats_member_again (default world0 (worldAfter (lobbyOfThree None)))
               "s0" "00000" "Zed")
    as (w' & out & lobby' & Hrun & Hget & Hps & _).
  - by vm_compute.
  - by vm_compute.
  - by vm_compute.
  - by vm_compute.
  - reflexivity.
  - vm_compute. by repeat constructor.
  - vm_compute. by repeat constructor.
  - exists w', out, lobby'. split; [exact Hrun|]. split; [exact Hget|]. by rewrite Hps.
Defined.

(** X17. [getPublicLobbies] answers the caller and changes nothing. What it
    lists are the open lobbies and only those: every entry stands for a
    registered lobby that is not private, waits and has a free seat, and
    every such lobby has an entry, provided the rooms feature is on. With
    the feature off the list is empty. *)
Theorem getPublicLobbies_lists_open (w : World) (socketId : string) :
  exists ls,
    getPublicLobbies w socketId = Done w [reply socketId (PublicLobbiesReply ls)] /\
    (forall info, info ∈ ls ->
       roomsFunctionality (config w) = true /\
       exists c lobby,
         (c, lobby) ∈ lobbies w /\
         li_code info = code lobby /\
         isPrivate (settings lobby) = false /\
         gameState lobby = waiting /\
         li_playerCount info = length (players lobby) /\
         li_maxPlayers info = maxPlayers (settings lobby) /\
         (Z.of_nat (li_playerCount info) < li_maxPlayers info)%Z) /\
    (forall c lobby,
       roomsFunctionality (config w) = true ->
       (c, lobby) ∈ lobbies w ->
       isPrivate (settings lobby) = false ->
       gameState lobby = waiting ->
       (Z.of_nat (length (players lobby)) < maxPlayers (settings lobby))%Z ->
       exists info, info ∈ ls /\ li_code info = code lobby /\
                    li_playerCount info = length (players lobby)).
Proof.
  unfold getPublicLobbies.
  destruct (roomsFunctionality (config w)) eqn:Hrooms; simpl.
  - eexists. split; [reflexivity|]. split.
    + intros info (lobby & <- & Hin)%list_elem_of_In%in_map_iff.
      apply filter_In in Hin as [Hin Hopen].
      apply in_map_iff in Hin as ([c lobby0] & <- & Hin).
      apply andb_prop in Hopen as [Hopen Hroom]. apply andb_prop in Hopen as [Hpub Hwait].
      split; [done|]. exists c, lobby0. simpl.
      split_and!; [by apply list_elem_of_In | done | by destruct (isPrivate _) |
                   by apply GameState_eqb_eq | done | done | by apply Z.ltb_lt].
    + intros c lobby _ Hin Hpub Hwait Hroom.
      eexists. split.
      * apply list_elem_of_In, in_map_iff. exists lobby. split; [reflexivity|].
        apply filter_In. split.
        -- apply in_map_iff. exists (c, lobby). split; [done|]. by apply list_elem_of_In.
        -- rewrite Hpub Hwait /=. by apply Z.ltb_lt.
      * done.
  - exists []. split; [done|]. split; [by intros info Hin%elem_of_nil|done].
Qed.

(** X18. [updateSettings] acts for the host of a waiting lobby only; from
    anyone else, or once the game has started, it does nothing and says
    nothing. When it acts it replaces the settings by the old ones
    overwritten with the fields sent, leaves every other field of the
    lobby and every other lobby alone, and sending the same fields again
    changes nothing more. *)
Theorem updateSettings_outcomes (w w' : World) (socketId lobbyCode : string)
  (patch : SettingsPatch) (out : list Emit) :
  updateSettings w socketId lobbyCode patch = Done w' out ->
  (w' = w /\ out = []) \/
  (exists lobby,
     obj_get lobbyCode (lobbies w) = Some lobby /\
     hostId lobby = socketId /\
     gameState lobby = waiting /\
     obj_get lobbyCode (lobbies w') =
       Some (set_settings (mergeSettings (settings lobby) patch) lobby) /\
     (forall c, c <> lobbyCode -> obj_get c (lobbies w') = obj_get c (lobbies w)) /\
     mergeSettings (mergeSettings (settings lobby) patch) patch =
       mergeSettings (settings lobby) patch /\
     rng w' = rng w /\ timers w' = timers w).
Proof.
  unfold updateSettings. intros Hrun.
  destruct (obj_get lobbyCode (lobbies w)) as [lobby|] eqn:Hl;
    [|injection Hrun as <- <-; by left].
  destruct (String.eqb_spec (hostId lobby) socketId) as [Hhost|Hhost]; simpl in Hrun;
    [|injection Hrun as <- <-; by left].
  destruct (GameState_eqb (gameState lobby) waiting) eqn:Hstate;
    [|injection Hrun as <- <-; by left].
  injection Hrun as <- <-. right. exists lobby.
  split_and!; [done | done | by apply GameState_eqb_eq | apply lobbies_putLobby | | | done..].
  - intros c Hc. by apply lobbies_putLobby_other.
  - unfold mergeSettings. simpl.
    by destruct (sp_scoreToWin patch), (sp_maxPlayers patch),
               (sp_selectedPackIndexes patch), (sp_isPrivate patch).
Qed.

Lemma updateSettings_outcomes_witness :
  exists w' out lobby',
    updateSettings (default world0 (worldAfter (lobbyOfThree None))) "s0" "00000" (usePacks [2])
      = Done w' out /\
    obj_get "00000" (lobbies w') = Some lobby' /\
    selectedPackIndexes (settings lobby') = [2].
Proof.
  eexists _, _, _. split; [by vm_compute|].
  odestruct (updateSettings_outcomes (default world0 (worldAfter (lobbyOfThree None))) _
               "s0" "00000" (usePacks [2]))
    as [[_ Hout]|(lobby & Hl & _ & _ & Hl' & _)].
  - by vm_compute.
  - by vm_compute in Hout.
  - vm_compute in Hl. injection Hl as <-. split; [exact Hl' | reflexivity].
Defined.

(** ** Handlers: the game *)

Lemma getPacks_white_ids deck indexes : NoDup (wc_id <$> (getPacks deck indexes).1).
Proof.
  rewrite /getPacks.
  destruct (getPacksFrom_counters deck
              (match indexes with [] => seq 0 (length deck) | _ => indexes end) 0)
    as (ws & bs & -> & _ & Hnd & _).
  apply NoDup_app in Hnd as (Hws & _ & _).
  apply NoDup_fmap_2; [|done]. intros x y [=]. by apply (inj pretty).
Qed.

(** X19. An accepted [startGame] puts exactly the selected packs into play.
    For the host of a waiting lobby with at least three members, whose
    selected pack indexes are numbers that [parseInt] gives back unchanged
    ([plainIndex]), the handler returns, and afterwards the white cards of
    the two piles and the hands are, apart from their ids, the white cards
    of the selected packs, no two of them with the same id; the prompt and
    the black piles hold the black cards of the selected packs (and the
    prompt the lobby had before, if any); every member has score zero and
    no submission recorded, and the roster is the same. The lobby is in
    [playing] with a prompt, or in [gameOver] when the selected packs have
    no black card. *)
Theorem startGame_deals_selected_packs (w : World) (socketId lobbyCode : string)
  (lobby : Lobby) :
  obj_get lobbyCode (lobbies w) = Some lobby ->
  hostId lobby = socketId ->
  gameState lobby = waiting ->
  3 <= length (players lobby) ->
  Forall plainIndex (selectedPackIndexes (settings lobby)) ->
  exists w' out lobby',
    startGame w socketId lobbyCode = Done w' out /\
    obj_get lobbyCode (lobbies w') = Some lobby' /\
    whiteFace <$> (whiteSupply lobby' ++ concat (p_hand <$> players lobby')) ≡ₚ
      selectedPacks (globalCAHDeck w) (selectedPackIndexes (settings lobby)) ≫= pk_white /\
    NoDup (wc_id <$> (whiteSupply lobby' ++ concat (p_hand <$> players lobby'))) /\
    blackFace <$> (option_list (currentBlackCard lobby') ++ blackSupply lobby') ≡ₚ
      (blackFace <$> option_list (currentBlackCard lobby)) ++
      (selectedPacks (globalCAHDeck w) (selectedPackIndexes (settings lobby)) ≫= pk_black) /\
    p_id <$> players lobby' = p_id <$> players lobby /\
    Forall (fun p => p_score p = 0 /\ p_submittedCards p = None) (players lobby') /\
    ((gameState lobby' = playing /\ is_Some (currentBlackCard lobby')) \/
     (gameState lobby' = gameOver /\
      selectedPacks (globalCAHDeck w) (selectedPackIndexes (settings lobby)) ≫= pk_black = [])).
Proof.
  intros Hl Hhost Hstate Hlen _.
  destruct (startGame_spec w socketId lobbyCode lobby Hl Hhost Hstate Hlen)
    as (w' & out & lobby' & Hrun & Hget & _ & _ & Hps & Hwhite & Hblack & _ & Hcases).
  pose proof (getPacks_faces_eq (globalCAHDeck w) (selectedPackIndexes (settings lobby)))
    as [Hwf Hbf].
  exists w', out, lobby'. split_and!; [done | done | | | | | |].
  - by rewrite Hwhite Hwf.
  - rewrite Hwhite. apply getPacks_white_ids.
  - by rewrite Hblack fmap_app Hbf.
  - apply list_eq => i. rewrite !list_lookup_fmap.
    destruct (players lobby !! i) as [p|] eqn:Hp.
    + destruct (Forall2_lookup_l _ _ _ _ _ Hps Hp) as (p' & -> & Hid & _). simpl. by f_equal.
    + apply Forall2_length in Hps. apply lookup_ge_None in Hp.
      rewrite (proj2 (lookup_ge_None (players lobby') i)); [lia|done].
  - eapply Forall2_Forall_r; [exact Hps|]. apply Forall_forall.
    intros p _ p' (_ & _ & Hscore & Hsub). done.
  - destruct Hcases as [(Hplay & Hprompt & _)|(Hover & Hnone & _)]; [by left|right].
    split; [done|]. by rewrite -Hbf Hnone.
Qed.

Lemma startGame_deals_selected_packs_witness :
  exists w' out lobby',
    startGame (default world0 (worldAfter (lobbyOfThree None))) "s0" "00000" = Done w' out /\
    obj_get "00000" (lobbies w') = Some lobby' /\
    length (whiteSupply lobby' ++ concat (p_hand <$> players lobby')) = 45.
Proof.
  odestruct (startGame_deals_selected_packs (default world0 (worldAfter (lobbyOfThree None)))
               "s0" "00000")
    as (w' & out & lobby' & Hrun & Hget & Hwhite & _).
  - by vm_compute.
  - reflexivity.
  - reflexivity.
  - vm_compute. lia.
  - cbn. repeat (apply List.Forall_cons; [reflexivity|]). apply List.Forall_nil.
  - exists w', out, lobby'. split; [exact Hrun|]. split; [exact Hget|].
    apply Permutation_length in Hwhite. rewrite length_fmap in Hwhite.
    rewrite Hwhite. by vm_compute.
Defined.

(** X20. [startGame] never throws. It starts a game only for the host of a
    waiting lobby with at least three members: any other call leaves the
    world as it is, silently, or with the one error message to the caller
    when the host is short of players. *)
Theorem startGame_outcomes (w : World) (socketId lobbyCode : string) :
  exists w' out,
    startGame w socketId lobbyCode = Done w' out /\
    ((w' = w /\ out = []) \/
     (w' = w /\ out = [toSocket socketId (GameError "Need at least 3 players to start.")] /\
      exists lobby, obj_get lobbyCode (lobbies w) = Some lobby /\
                    hostId lobby = socketId /\ gameState lobby = waiting /\
                    length (players lobby) < 3) \/
     (exists lobby, obj_get lobbyCode (lobbies w) = Some lobby /\
                    hostId lobby = socketId /\ gameState lobby = waiting /\
                    3 <= length (players lobby))).
Proof.
  destruct (obj_get lobbyCode (lobbies w)) as [lobby|] eqn:Hl.
  - destruct (String.eqb_spec (hostId lobby) socketId) as [Hhost|Hhost].
    + destruct (GameState_eqb (gameState lobby) waiting) eqn:Hstate.
      * apply GameState_eqb_eq in Hstate.
        destruct (le_lt_dec 3 (length (players lobby))) as [Hlen|Hlen].
        -- destruct (startGame_spec w socketId lobbyCode lobby Hl Hhost Hstate Hlen)
             as (w' & out & lobby' & Hrun & _).
           exists w', out. split; [done|]. right. right. by exists lobby.
        -- exists w, [toSocket socketId (GameError "Need at least 3 players to start.")].
           split.
           ++ rewrite /startGame Hl Hhost Hstate String.eqb_refl /=.
              by apply Nat.ltb_lt in Hlen as ->.
           ++ right. left. split_and!; [done..|]. by exists lobby.
      * exists w, []. split; [|by left].
        by rewrite /startGame Hl Hstate orb_true_r.
    + exists w, []. split; [|by left].
      rewrite /startGame Hl. by apply String.eqb_neq in Hhost as ->.
  - exists w, []. split; [|by left]. by rewrite /startGame Hl.
Qed.

Lemma resolveCards_Some hand ids cards :
  resolveCards hand ids = Some cards ->
  Forall2 (fun id c => List.find (fun c => String.eqb (wc_id c) id) hand = Some c) ids cards.
Proof.
  revert cards. induction ids as [|id ids IH]; intros cards Hres; simpl in Hres.
  - injection Hres as <-. constructor.
  - destruct (List.find _ hand) as [c|] eqn:Hfind; [|done].
    destruct (resolveCards hand ids) as [cs|]; [|done].
    injection Hres as <-. constructor; [done|]. by apply IH.
Qed.

Lemma resolveCards_ids hand ids cards :
  resolveCards hand ids = Some cards -> wc_id <$> cards = ids /\ Forall (fun c => c ∈ hand) cards.
Proof.
  intros Hres%resolveCards_Some. induction Hres as [|id c ids cards Hfind _ [IH1 IH2]]; [done|].
  apply find_some in Hfind as [Hin Hid]. apply String.eqb_eq in Hid.
  split; [by rewrite fmap_cons Hid IH1|]. constructor; [by apply list_elem_of_In|done].
Qed.

Lemma existsb_eqb_elem (x : string) (ids : list string) :
  existsb (String.eqb x) ids = true <-> x ∈ ids.
Proof.
  rewrite existsb_exists. split.
  - intros (y & Hin & ->%String.eqb_eq). by apply list_elem_of_In.
  - intros Hin. exists x. split; [by apply list_elem_of_In | apply String.eqb_refl].
Qed.

(** With distinct ids in the hand and in the request, the cards found and
    the cards left make up the hand. *)
Lemma resolveCards_partition hand ids cards :
  NoDup (wc_id <$> hand) -> NoDup ids ->
  resolveCards hand ids = Some cards ->
  List.filter (fun card => negb (existsb (String.eqb (wc_id card)) ids)) hand ++ cards ≡ₚ hand.
Proof.
  intros Hhand Hids Hres.
  destruct (resolveCards_ids _ _ _ Hres) as [Hcids Hcin].
  assert (Hndh : NoDup hand) by (by apply (NoDup_fmap_1 wc_id)).
  apply NoDup_Permutation.
  - apply NoDup_app. split_and!.
    + apply NoDup_ListNoDup, List.NoDup_filter, NoDup_ListNoDup, Hndh.
    + intros c [_ Hout]%list_elem_of_In%filter_In Hc.
      apply negb_true_iff, not_true_iff_false in Hout. apply Hout.
      apply existsb_eqb_elem. rewrite -Hcids. apply list_elem_of_fmap. by exists c.
    + apply (NoDup_fmap_1 wc_id). by rewrite Hcids.
  - done.
  - intros c. rewrite elem_of_app. split.
    + intros [[Hin _]%list_elem_of_In%filter_In|Hc]; [by apply list_elem_of_In|].
      rewrite ->Forall_forall in Hcin. by apply Hcin.
    + intros Hin.
      destruct (existsb (String.eqb (wc_id c)) ids) eqn:Hex.
      * right. apply existsb_eqb_elem in Hex. rewrite -Hcids in Hex.
        apply list_elem_of_fmap in Hex as (c' & Hid & Hc').
        assert (c = c') as ->; [|done].
        rewrite ->Forall_forall in Hcin.
        apply (list_elem_of_lookup_1 _ _) in Hin as [i Hi].
        apply Hcin in Hc'. apply (list_elem_of_lookup_1 _ _) in Hc' as [j Hj].
        assert (i = j) as ->; [|congruence].
        eapply NoDup_lookup; [exact Hhand| |];
          rewrite list_lookup_fmap ?Hi ?Hj /= ?Hid //.
      * left. apply list_elem_of_In, filter_In. split; [by apply list_elem_of_In|].
        by rewrite Hex.
Qed.



(** X22. [submitCards] does not ask for different cards. When the prompt
    asks for two cards and a member sends the id of one card of the hand
    twice, the submission is accepted: that card is recorded twice, and
    the hand loses it once. *)
Theorem submitCards_same_card_twice (w : World) (socketId lobbyCode cardId : string)
  (lobby : Lobby) (player : Player) (prompt : BlackCard) (card : WhiteCard) :
  obj_get lobbyCode (lobbies w) = Some lobby ->
  gameState lobby = playing ->
  getLobbyPlayer lobby socketId = Some player ->
  czarId lobby <> Some socketId ->
  p_submittedCards player = None ->
  currentBlackCard lobby = Some prompt ->
  pickCount prompt = 2%Z ->
  List.find (fun c => String.eqb (wc_id c) cardId) (p_hand player) = Some card ->
  NoDup (wc_id <$> p_hand player) ->
  exists w' out lobby' player',
    submitCards w socketId lobbyCode (Some [cardId; cardId]) = Done w' out /\
    obj_get lobbyCode (lobbies w') = Some lobby' /\
    getLobbyPlayer lobby' socketId = Some player' /\
    p_submittedCards player' = Some [card; card] /\
    p_hand player' ++ [card] ≡ₚ p_hand player /\
    (exists sub, sub ∈ roundSubmissions lobby' /\ sub_playerId sub = socketId /\
                 sub_cards sub = [card; card]).
Proof.
  intros Hl Hstate Hplayer Hczar Hsub Hprompt Hpick Hfind Hhand.
  assert (Hres : resolveCards (p_hand player) [cardId; cardId] = Some [card; card])
    by (by rewrite /= Hfind).
  destruct (submitCards_accepted w socketId lobbyCode [cardId; cardId] lobby player prompt
              [card; card] Hl Hstate Hplayer Hczar Hsub Hprompt)
    as (w' & out & lobby' & Hrun & Hget & Hsubs & Hplayer' & _); [by rewrite Hpick | done |].
  eexists w', out, lobby', _.
  split_and!; [exact Hrun | exact Hget | exact Hplayer' | done | |].
  - cbn [p_hand set_hand].
    assert (Hone : resolveCards (p_hand player) [cardId] = Some [card]) by (by rewrite /= Hfind).
    rewrite -{2}(resolveCards_partition _ _ _ Hhand (NoDup_singleton cardId) Hone).
    apply Permutation_app_tail.
    assert (Hsame : forall hand,
      List.filter (fun c => negb (existsb (String.eqb (wc_id c)) [cardId; cardId])) hand =
      List.filter (fun c => negb (existsb (String.eqb (wc_id c)) [cardId])) hand).
    { intros hand. induction hand as [|c hand IH]; [done|]. simpl.
      destruct (String.eqb (wc_id c) cardId); simpl; by rewrite IH. }
    by rewrite Hsame.
  - exists {| sub_playerId := socketId; sub_playerName := p_name player;
              sub_cards := [card; card] |}.
    split; [|done]. rewrite Hsubs. apply elem_of_app. right. by apply list_elem_of_singleton.
Qed.

Lemma submitCards_same_card_twice_witness :
  exists w' out lobby' player',
    submitCards pickTwoWorld "s0" "00000" (Some ["w_0"; "w_0"]) = Done w' out /\
    obj_get "00000" (lobbies w') = Some lobby' /\
    getLobbyPlayer lobby' "s0" = Some player' /\
    (wc_id <$> default [] (p_submittedCards player')) = ["w_0"; "w_0"].
Proof.
  odestruct (submitCards_same_card_twice pickTwoWorld "s0" "00000" "w_0")
    as (w' & out & lobby' & player' & Hrun & Hget & Hplayer & Hsub & _).
  - by vm_compute.
  - reflexivity.
  - by vm_compute.
  - by vm_compute.
  - reflexivity.
  - by vm_compute.
  - reflexivity.
  - by vm_compute.
  - apply (bool_decide_unpack _). by vm_compute.
  - exists w', out, lobby', player'.
    split; [exact Hrun|]. split; [exact Hget|]. split; [exact Hplayer|].
    by rewrite Hsub.
Defined.






(** X24. [selectWinner] acts for the czar alone. A call that returns has
    changed nothing and sent nothing, unless the caller is a member of a
    judging lobby, is its czar, and names a player whose submission is
    recorded and who is still a member. *)
Theorem selectWinner_czar_only (w w' : World) (socketId lobbyCode winningPlayerId : string)
  (out : list Emit) :
  selectWinner w socketId lobbyCode winningPlayerId = Done w' out ->
  (w' = w /\ out = []) \/
  (exists lobby czar sub winner,
     obj_get lobbyCode (lobbies w) = Some lobby /\
     gameState lobby = judging /\
     getLobbyPlayer lobby socketId = Some czar /\
     czarId lobby = Some socketId /\
     List.find (fun s => String.eqb (sub_playerId s) winningPlayerId) (roundSubmissions lobby)
       = Some sub /\
     getLobbyPlayer lobby winningPlayerId = Some winner /\
     is_Some (currentBlackCard lobby)).
Proof.
  unfold selectWinner. intros Hrun.
  destruct (obj_get lobbyCode (lobbies w)) as [lobby|] eqn:Hl; [|done].
  destruct (getLobbyPlayer lobby socketId) as [czar|] eqn:Hczar;
    [|injection Hrun as <- <-; by left].
  destruct (GameState_eqb (gameState lobby) judging) eqn:Hstate; simpl in Hrun;
    [|injection Hrun as <- <-; by left].
  destruct (idIs (czarId lobby) (p_id czar)) eqn:Hcz; simpl in Hrun;
    [|injection Hrun as <- <-; by left].
  destruct (List.find _ (roundSubmissions lobby)) as [sub|] eqn:Hsub;
    [|injection Hrun as <- <-; by left].
  destruct (getLobbyPlayer lobby winningPlayerId) as [winner|] eqn:Hwin; [|done].
  cbn [currentBlackCard set_players] in Hrun.
  destruct (currentBlackCard lobby) as [prompt|] eqn:Hprompt; [|done].
  right. exists lobby, czar, sub, winner.
  split_and!; [done | by apply GameState_eqb_eq | done | | done | done | done].
  apply idIs_Some in Hcz. by rewrite (getLobbyPlayer_id _ _ _ Hczar) in Hcz.
Qed.

Lemma selectWinner_czar_only_witness :
  exists w' out,
    selectWinner judgingWorld "s0" "00000" "s2" = Done w' out /\ out = [].
Proof.
  eexists _, _. split; [by vm_compute|].
  odestruct (selectWinner_czar_only judgingWorld _ "s0" "00000" "s2")
    as [[_ Hout]|(lobby & czar & sub & winner & Hl & _ & _ & Hcz & _)].
  - by vm_compute.
  - reflexivity.
  - reflexivity.
Defined.

(** X25. [requestNextRound] does not ask whether the game has started. When
    the host of a waiting lobby sends it, a round start is run on a lobby
    that holds no cards: the lobby goes to [gameOver], the room is told
    that no black cards are left, and from then on nobody can join the
    lobby and the host cannot start the game. *)
Theorem requestNextRound_ends_unstarted_lobby (w : World) (socketId lobbyCode : string)
  (lobby : Lobby) :
  obj_get lobbyCode (lobbies w) = Some lobby ->
  hostId lobby = socketId ->
  gameState lobby = waiting ->
  players lobby <> [] ->
  blackSupply lobby = [] ->
  exists w' lobby',
    requestNextRound w socketId lobbyCode =
      Done w' [ toRoom lobbyCode (GameOverMessage "No more black cards!" (players lobby'));
                lobbyUpdate lobbyCode lobby' ] /\
    obj_get lobbyCode (lobbies w') = Some lobby' /\
    gameState lobby' = gameOver /\
    p_id <$> players lobby' = p_id <$> players lobby /\
    (forall s name, exists msg,
       joinLobby w' s lobbyCode name = Done w' [reply s (FailReply msg)]) /\
    (forall s, startGame w' s lobbyCode = Done w' []).
Proof.
  intros Hl Hhost Hstate Hne Hno.
  destruct (startNextRoundIn_exhausted lobbyCode lobby (rng w) Hne Hno)
    as (lobby' & Hin & Hover & Hps & _).
  destruct (startNextRound_registered _ _ _ _ _ _ Hl Hin) as (Hrun & Hget & _).
  eexists _, lobby'. split_and!.
  - by rewrite /requestNextRound Hl Hhost Hstate String.eqb_refl /= Hrun.
  - exact Hget.
  - exact Hover.
  - by rewrite Hps -list_fmap_compose.
  - intros s name. rewrite /joinLobby Hget Hover /=.
    destruct (Z.of_nat (length (players lobby')) >=? maxPlayers (settings lobby'))%Z; eauto.
  - intros s. by rewrite /startGame Hget Hover /= orb_true_r.
Qed.

Lemma requestNextRound_ends_unstarted_lobby_witness :
  exists w' lobby',
    obj_get "00000" (lobbies w') = Some lobby' /\
    gameState lobby' = gameOver /\
    startGame w' "s0" "00000" = Done w' [].
Proof.
  odestruct (requestNextRound_ends_unstarted_lobby
               (default world0 (worldAfter (lobbyOfThree None))) "s0" "00000")
    as (w' & lobby' & _ & Hget & Hover & _ & _ & Hstart).
  - by vm_compute.
  - reflexivity.
  - reflexivity.
  - by vm_compute.
  - reflexivity.
  - exists w', lobby'. split; [exact Hget|]. split; [exact Hover | apply Hstart].
Defined.

(** ** Handlers: leaving *)

(** The handler [disconnect] case by case. *)
Lemma disconnect_spec w socketId :
  match findLobbyOf socketId (lobbies w) with
  | None => disconnect w socketId = Done w []
  | Some (lobbyCode, lobby, k) =>
      match delete k (players lobby) with
      | [] => disconnect w socketId = Done (set_lobbies (obj_delete lobbyCode (lobbies w)) w) []
      | first :: rest =>
          let remaining :=
            set_hostId (if String.eqb (hostId lobby) socketId then p_id first else hostId lobby)
                       (set_players (first :: rest) lobby) in
          if negb (GameState_eqb (gameState lobby) waiting) &&
             negb (GameState_eqb (gameState lobby) gameOver) then
            if idIs (czarId lobby) socketId then
              exists lobby' r' out,
                startNextRoundIn lobbyCode remaining (rng w) = Some (lobby', r', out) /\
                disconnect w socketId =
                  Done (set_rng r' (putLobby lobbyCode lobby' (putLobby lobbyCode remaining w)))
                       (toRoom lobbyCode
                          (GameMessage (default "" (p_name <$> players lobby !! k) +:+
                                        " (Czar) disconnected. Starting new round."))
                        :: out ++ [lobbyUpdate lobbyCode lobby'])
            else if (length (first :: rest) <? 3)%nat then
              disconnect w socketId =
                Done (putLobby lobbyCode (set_gameState gameOver remaining) w)
                     [ toRoom lobbyCode
                         (GameOverMessage "Not enough players to continue." (first :: rest));
                       lobbyUpdate lobbyCode (set_gameState gameOver remaining) ]
            else
              disconnect w socketId =
                Done (putLobby lobbyCode remaining w) [lobbyUpdate lobbyCode remaining]
          else
            disconnect w socketId =
              Done (putLobby lobbyCode remaining w) [lobbyUpdate lobbyCode remaining]
      end
  end.
Proof.
  unfold disconnect.
  destruct (findLobbyOf socketId (lobbies w)) as [[[lobbyCode lobby] k]|]; [|done].
  cbv zeta. cbn [players set_players]. unfold splice1.
  destruct (delete k (players lobby)) as [|first rest] eqn:Hrest; [done|].
  cbn [hostId set_players].
  set (remaining := set_hostId _ _).
  assert (Hrem : (if String.eqb (hostId lobby) socketId
                  then set_hostId (p_id first) (set_players (first :: rest) lobby)
                  else set_players (first :: rest) lobby) = remaining).
  { unfold remaining. destruct (String.eqb (hostId lobby) socketId); by destruct lobby. }
  rewrite Hrem.
  assert (Hfields : gameState remaining = gameState lobby /\ czarId remaining = czarId lobby /\
                    players remaining = first :: rest) by done.
  destruct Hfields as (-> & -> & ->).
  destruct (negb (GameState_eqb (gameState lobby) waiting) &&
            negb (GameState_eqb (gameState lobby) gameOver)) eqn:Hactive; [|done].
  destruct (idIs (czarId lobby) socketId).
  - assert (Hne : players remaining <> []) by done.
    destruct (startNextRoundIn_spec lobbyCode remaining (rng w) Hne)
      as (lobby' & r' & out & czar & Hin & _).
    assert (Hl : obj_get lobbyCode (lobbies (putLobby lobbyCode remaining w)) = Some remaining)
      by apply lobbies_putLobby.
    destruct (startNextRound_registered _ _ _ _ _ _ Hl Hin) as (Hrun & Hget & _).
    exists lobby', r', out. split; [exact Hin|].
    rewrite Hrun. by rewrite /broadcastLobbyState Hget.
  - apply andb_prop in Hactive as [Hwait _]. rewrite Hwait andb_true_r.
    by destruct (length (first :: rest) <? 3)%nat.
Qed.

(** X26. [disconnect] never throws and touches one lobby at most: the
    first lobby, in the order of the registry, that has a member with the
    socket's id. A socket that sits in no lobby changes nothing. Otherwise
    every other lobby stays as it is, also one the socket sits in as well;
    the lobby found is deleted, silently, when the socket was its last
    member, and else stays registered with the roster it had, less the
    first seat of that socket. *)
Theorem disconnect_leaves_one_lobby (w : World) (socketId : string) :
  exists w' out,
    disconnect w socketId = Done w' out /\
    match findLobbyOf socketId (lobbies w) with
    | None => w' = w /\ out = []
    | Some (lobbyCode, lobby, k) =>
        (forall c, c <> lobbyCode -> obj_get c (lobbies w') = obj_get c (lobbies w)) /\
        (exists leaver, players lobby !! k = Some leaver /\ p_id leaver = socketId /\
                        Forall (fun p => p_id p <> socketId) (take k (players lobby))) /\
        match obj_get lobbyCode (lobbies w') with
        | None => delete k (players lobby) = [] /\ out = []
        | Some lobby' =>
            delete k (players lobby) <> [] /\
            p_id <$> players lobby' = p_id <$> delete k (players lobby)
        end
    end.
Proof.
  pose proof (disconnect_spec w socketId) as Hspec.
  destruct (findLobbyOf socketId (lobbies w)) as [[[lobbyCode lobby] k]|] eqn:Hfind;
    [|by exists w, []].
  assert (Hleaver : exists leaver, players lobby !! k = Some leaver /\ p_id leaver = socketId /\
                      Forall (fun p => p_id p <> socketId) (take k (players lobby))).
  { apply findLobbyOf_Some in Hfind as [_ Hidx].
    apply findIndex_Some in Hidx as (leaver & Hk & Hid & Hbefore).
    exists leaver. split_and!; [done | by apply String.eqb_eq|].
    eapply Forall_impl; [exact Hbefore|]. intros p Hp. by apply String.eqb_neq. }
  assert (Hother : forall l1 w1 c, lobbies w1 = lobbies w -> c <> lobbyCode ->
            obj_get c (lobbies (putLobby lobbyCode l1 w1)) = obj_get c (lobbies w)).
  { intros l1 w1 c Hw1 Hc. by rewrite lobbies_putLobby_other // Hw1. }
  destruct (delete k (players lobby)) as [|first rest] eqn:Hrest.
  - eexists _, _. split; [exact Hspec|]. split_and!; [|done|].
    + intros c Hc. cbn. rewrite obj_get_delete.
      by destruct (String.eqb_spec lobbyCode c); [congruence|].
    + cbn. by rewrite obj_get_delete String.eqb_refl.
  - cbv zeta in Hspec.
    destruct (negb (GameState_eqb (gameState lobby) waiting) &&
              negb (GameState_eqb (gameState lobby) gameOver)).
    + destruct (idIs (czarId lobby) socketId).
      * destruct Hspec as (lobby' & r' & out & Hin & Hrun).
        eexists _, _. split; [exact Hrun|]. split_and!; [|done|].
        -- intros c Hc. cbn [lobbies set_rng]. by rewrite !lobbies_putLobby_other.
        -- cbn [lobbies set_rng]. rewrite lobbies_putLobby. split; [done|].
           match type of Hin with startNextRoundIn _ ?l _ = _ =>
             assert (Hne : players l <> []) by done;
             destruct (startNextRoundIn_spec lobbyCode l (rng w) Hne)
               as (l' & r1 & out1 & czar & Hin' & _ & _ & _ & _ & _ & Hgrown & _) end.
           rewrite Hin in Hin'. injection Hin' as <- <- <-.
           apply handGrown_ids in Hgrown. rewrite Hgrown -list_fmap_compose. done.
      * destruct (length (first :: rest) <? 3)%nat;
          (eexists _, _; split; [exact Hspec|]; split_and!; [|done|]);
          [intros c Hc; by apply Hother | by rewrite lobbies_putLobby
          |intros c Hc; by apply Hother | by rewrite lobbies_putLobby].
    + eexists _, _. split; [exact Hspec|]. split_and!; [|done|].
      * intros c Hc. by apply Hother.
      * by rewrite lobbies_putLobby.
Qed.

(** X27. When a member leaves and others stay, the lobby keeps a host from
    the roster: if the leaver was the host, the first of the remaining
    members is the host from then on (and sits first in the roster), and
    otherwise the host is who it was. *)
Theorem disconnect_host_migrates (w : World) (socketId lobbyCode : string) (lobby : Lobby)
  (k : nat) (first : Player) (rest : list Player) :
  findLobbyOf socketId (lobbies w) = Some (lobbyCode, lobby, k) ->
  delete k (players lobby) = first :: rest ->
  exists w' out lobby',
    disconnect w socketId = Done w' out /\
    obj_get lobbyCode (lobbies w') = Some lobby' /\
    hostId lobby' = (if String.eqb (hostId lobby) socketId then p_id first else hostId lobby) /\
    p_id <$> players lobby' !! 0 = Some (p_id first).
Proof.
  intros Hfind Hrest.
  pose proof (disconnect_spec w socketId) as Hspec.
  rewrite Hfind Hrest in Hspec. cbv zeta in Hspec.
  destruct (negb (GameState_eqb (gameState lobby) waiting) &&
            negb (GameState_eqb (gameState lobby) gameOver)).
  - destruct (idIs (czarId lobby) socketId).
    + destruct Hspec as (lobby' & r' & out & Hin & Hrun).
      eexists _, _, lobby'. split; [exact Hrun|]. split; [apply lobbies_putLobby|].
      match type of Hin with startNextRoundIn _ ?l _ = _ =>
        assert (Hne : players l <> []) by done;
        destruct (startNextRoundIn_spec lobbyCode l (rng w) Hne)
          as (l' & r1 & out1 & czar & Hin' & _ & _ & _ & _ & Hsess & Hgrown & _) end.
      rewrite Hin in Hin'. injection Hin' as <- <- <-.
      destruct Hsess as (_ & -> & _). split; [done|].
      apply handGrown_ids in Hgrown.
      rewrite -list_lookup_fmap Hgrown -list_fmap_compose. done.
    + destruct (length (first :: rest) <? 3)%nat;
        (eexists _, _, _; split; [exact Hspec|]; split; [apply lobbies_putLobby|done]).
  - eexists _, _, _. split; [exact Hspec|]. split; [apply lobbies_putLobby|done].
Qed.

Lemma disconnect_host_migrates_witness :
  exists w' out lobby',
    disconnect playingWorld "s0" = Done w' out /\
    obj_get "00000" (lobbies w') = Some lobby' /\
    hostId lobby' = "s1".
Proof.
  odestruct (disconnect_host_migrates playingWorld "s0")
    as (w' & out & lobby' & Hrun & Hget & Hhost & _).
  - by vm_compute.
  - by vm_compute.
  - exists w', out, lobby'. split; [exact Hrun|]. split; [exact Hget|exact Hhost].
Defined.

(** X28. When a member who is not the czar leaves a running game (the
    lobby plays, judges or shows a round's result) and others stay, no
    round is started and no card moves: piles, prompt, czar and recorded
    submissions stay as they are, also a submission of the leaver, while
    the cards of the leaver's hand leave the game with the seat. With
    fewer than three members left the lobby goes to [gameOver] and the
    room is told so; with three or more the state stays. *)
Theorem disconnect_of_player_in_round (w : World) (socketId lobbyCode : string) (lobby : Lobby)
  (k : nat) (first : Player) (rest : list Player) :
  findLobbyOf socketId (lobbies w) = Some (lobbyCode, lobby, k) ->
  delete k (players lobby) = first :: rest ->
  gameState lobby <> waiting ->
  gameState lobby <> gameOver ->
  czarId lobby <> Some socketId ->
  exists w' out lobby',
    disconnect w socketId = Done w' out /\
    obj_get lobbyCode (lobbies w') = Some lobby' /\
    players lobby' = first :: rest /\
    whiteDeck lobby' = whiteDeck lobby /\ whiteDiscard lobby' = whiteDiscard lobby /\
    blackDeck lobby' = blackDeck lobby /\ blackDiscard lobby' = blackDiscard lobby /\
    currentBlackCard lobby' = currentBlackCard lobby /\
    czarId lobby' = czarId lobby /\
    roundSubmissions lobby' = roundSubmissions lobby /\
    rng w' = rng w /\ timers w' = timers w /\
    (if (length (first :: rest) <? 3)%nat then
       gameState lobby' = gameOver /\
       out = [ toRoom lobbyCode
                 (GameOverMessage "Not enough players to continue." (first :: rest));
               lobbyUpdate lobbyCode lobby' ]
     else
       gameState lobby' = gameState lobby /\ out = [lobbyUpdate lobbyCode lobby']).
Proof.
  intros Hfind Hrest Hwait Hover Hczar.
  pose proof (disconnect_spec w socketId) as Hspec.
  rewrite Hfind Hrest in Hspec. cbv zeta in Hspec.
  apply GameState_eqb_neq in Hwait, Hover. rewrite Hwait Hover in Hspec.
  cbn [negb andb] in Hspec.
  assert (idIs (czarId lobby) socketId = false) as Hcz.
  { apply not_true_is_false. by intros ?%idIs_Some. }
  rewrite Hcz in Hspec.
  destruct (length (first :: rest) <? 3)%nat eqn:Hfew;
    (eexists _, _, _; split; [exact Hspec|]; split; [apply lobbies_putLobby|]);
    split_and!; done.
Qed.

Lemma disconnect_of_player_in_round_witness :
  exists w' out lobby',
    disconnect playingWorld "s3" = Done w' out /\
    obj_get "00000" (lobbies w') = Some lobby' /\
    p_id <$> players lobby' = ["s0"; "s1"; "s2"] /\
    gameState lobby' = playing.
Proof.
  odestruct (disconnect_of_player_in_round playingWorld "s3")
    as (w' & out & lobby' & Hrun & Hget & Hps & _ & _ & _ & _ & _ & _ & _ & _ & _ & Hcase).
  - by vm_compute.
  - by vm_compute.
  - by vm_compute.
  - by vm_compute.
  - by vm_compute.
  - exists w', out, lobby'. split; [exact Hrun|]. split; [exact Hget|].
    split; [by rewrite Hps|]. simpl in Hcase. by destruct Hcase as [-> _].
Defined.

(** ** What holds of every world the server reaches *)

Lemma startNextRoundIn_sound c lobby r lobby' r' out :
  code lobby = c ->
  players lobby <> [] ->
  hostId lobby ∈ p_id <$> players lobby ->
  startNextRoundIn c lobby r = Some (lobby', r', out) ->
  lobbySound c lobby'.
Proof.
  intros Hcode Hne Hhost Hin.
  destruct (startNextRoundIn_spec c lobby r Hne)
    as (l' & r1 & out1 & czar & Hin' & Hczar & Hcz & _ & _ & Hsess & Hgrown & Hcases).
  rewrite Hin in Hin'. injection Hin' as <- <- <-.
  destruct Hsess as (Hc' & Hh' & _).
  apply handGrown_ids in Hgrown. rewrite -list_fmap_compose in Hgrown.
  change (p_id ∘ set_submittedCards None) with p_id in Hgrown.
  assert (Hne' : players lobby' <> []).
  { intros Hnil. rewrite Hnil in Hgrown. by destruct (players lobby). }
  split_and!; [congruence | done | by rewrite Hh' Hgrown | |].
  - intros Hround. split.
    + destruct Hcases as [(_ & Hover & _)|(_ & _ & (p & -> & _) & _)]; [|done].
      rewrite Hover in Hround. by destruct Hround as [|[|]].
    + exists (p_id czar). split; [done|]. rewrite Hgrown.
      apply list_elem_of_fmap. exists czar. split; [done|]. by eapply list_elem_of_lookup_2.
  - intros Hwait. destruct Hcases as [(_ & Hover & _)|(_ & Hplay & _)]; congruence.
Qed.

Lemma worldSound_putLobby c l w :
  worldSound w -> lobbySound c l -> worldSound (putLobby c l w).
Proof.
  intros Hw Hl c' l' Hget.
  apply lookup_putLobby in Hget as [[-> ->]|[_ Hget]]; [done|by apply Hw].
Qed.

Lemma worldSound_lobbies w w' : lobbies w' = lobbies w -> worldSound w -> worldSound w'.
Proof. intros Heq Hw c l. rewrite Heq. apply Hw. Qed.

Lemma worldSound_set_rng r w : worldSound w -> worldSound (set_rng r w).
Proof. by apply worldSound_lobbies. Qed.

Lemma worldSound_set_timers t w : worldSound w -> worldSound (set_timers t w).
Proof. by apply worldSound_lobbies. Qed.

Lemma startNextRound_sound c w w' out :
  worldSound w -> startNextRound c w = Done w' out -> worldSound w'.
Proof.
  intros Hw Hrun.
  apply startNextRound_Done in Hrun as [[_ ->]|(lobby & lobby' & r' & Hl & Hin & ->)]; [done|].
  apply (worldSound_lobbies (putLobby c lobby' w)); [done|].
  apply worldSound_putLobby; [done|].
  destruct (Hw c lobby Hl) as (Hcode & Hne & Hhost & _).
  by eapply startNextRoundIn_sound.
Qed.

(** A handler that keeps code, roster ids, host, prompt and czar of a lobby
    in a round, and does not send it back to waiting. *)
Lemma lobbySound_next c l l' :
  lobbySound c l ->
  code l' = code l ->
  p_id <$> players l' = p_id <$> players l ->
  hostId l' = hostId l ->
  currentBlackCard l' = currentBlackCard l ->
  czarId l' = czarId l ->
  inRound (gameState l) ->
  gameState l' <> waiting ->
  lobbySound c l'.
Proof.
  intros (Hcode & Hne & Hhost & Hround & _) Hc Hids Hh Hprompt Hcz Hin Hnot.
  split_and!; [congruence | | by rewrite Hh Hids | | done].
  - intros Hnil. rewrite Hnil in Hids. by destruct (players l).
  - intros _. rewrite Hprompt Hcz Hids. by apply Hround.
Qed.

Lemma createLobby_sound attempts w socketId playerName st w' out :
  worldSound w -> createLobby attempts w socketId playerName st = Done w' out -> worldSound w'.
Proof.
  unfold createLobby. intros Hw Hrun.
  destruct (generateLobbyCode _ _ _) as [[c r']|]; [|done].
  injection Hrun as <- <-.
  apply (worldSound_lobbies (putLobby c
    {| code := c; players := [newPlayer socketId playerName]; hostId := socketId;
       gameState := waiting;
       settings :=
         {| scoreToWin := orDefault (st ≫= sp_scoreToWin) 7;
            maxPlayers := orDefault (st ≫= sp_maxPlayers) 10;
            selectedPackIndexes := default [0] (st ≫= sp_selectedPackIndexes);
            isPrivate := if roomsFunctionality (config w)
                         then default false (st ≫= sp_isPrivate) else true |};
       whiteDeck := []; blackDeck := []; whiteDiscard := []; blackDiscard := [];
       currentBlackCard := None; czarId := None;
       roundSubmissions := []; roundWinnerInfo := None |} w)); [done|].
  apply worldSound_putLobby; [done|].
  split_and!; [done | done | by apply list_elem_of_singleton | | done].
  by intros [|[|]].
Qed.

Lemma joinLobby_sound w socketId lobbyCode playerName w' out :
  worldSound w -> joinLobby w socketId lobbyCode playerName = Done w' out -> worldSound w'.
Proof.
  unfold joinLobby. intros Hw Hrun.
  destruct (obj_get lobbyCode (lobbies w)) as [lobby|] eqn:Hl.
  - destruct (Z.of_nat (length (players lobby)) >=? maxPlayers (settings lobby))%Z;
      [by injection Hrun as <- <-|].
    destruct (negb (GameState_eqb (gameState lobby) waiting)); [by injection Hrun as <- <-|].
    destruct (negb (allowSameNames (config w)) && _); [by injection Hrun as <- <-|].
    injection Hrun as <- <-.
    apply worldSound_putLobby; [done|].
    destruct (Hw lobbyCode lobby Hl) as (Hcode & Hne & Hhost & Hround & Hwait).
    split_and!; [done | by destruct (players lobby) | | | done].
    + cbn [hostId players set_players]. rewrite fmap_app. apply elem_of_app. by left.
    + intros Hin. destruct (Hround Hin) as (Hprompt & czar & Hcz & Hmem).
      split; [done|]. exists czar. split; [done|].
      cbn [players set_players]. rewrite fmap_app. apply elem_of_app. by left.
  - destruct (isInheritedKey lobbyCode); [done|]. by injection Hrun as <- <-.
Qed.

Lemma updateSettings_sound w socketId lobbyCode patch w' out :
  worldSound w -> updateSettings w socketId lobbyCode patch = Done w' out -> worldSound w'.
Proof.
  unfold updateSettings. intros Hw Hrun.
  destruct (obj_get lobbyCode (lobbies w)) as [lobby|] eqn:Hl; [|by injection Hrun as <- <-].
  destruct (_ && _); [|by injection Hrun as <- <-].
  injection Hrun as <- <-. apply worldSound_putLobby; [done|].
  by destruct (Hw lobbyCode lobby Hl) as (Hcode & Hne & Hhost & Hround & Hwait).
Qed.

(** A round start on a lobby just written back. *)
Lemma startNextRound_over_sound c l w0 w w' out :
  worldSound w0 ->
  lobbies w = lobbies (putLobby c l w0) ->
  code l = c ->
  players l <> [] ->
  hostId l ∈ p_id <$> players l ->
  startNextRound c w = Done w' out ->
  worldSound w'.
Proof.
  intros Hw Hlobbies Hcode Hne Hhost Hrun.
  assert (Hl : obj_get c (lobbies w) = Some l) by (rewrite Hlobbies; apply lobbies_putLobby).
  apply startNextRound_Done in Hrun as [[Hnone _]|(lobby & lobby' & r' & Hl' & Hin & ->)];
    [congruence|].
  rewrite Hl in Hl'. injection Hl' as <-.
  intros c0 lobby0 Hget. cbn [lobbies set_rng] in Hget.
  apply lookup_putLobby in Hget as [[-> ->]|[Hne0 Hget]].
  - by eapply startNextRoundIn_sound.
  - rewrite Hlobbies in Hget.
    apply lookup_putLobby in Hget as [[-> _]|[_ Hget]]; [done|by apply Hw].
Qed.

Lemma startGame_sound w socketId lobbyCode w' out :
  worldSound w -> startGame w socketId lobbyCode = Done w' out -> worldSound w'.
Proof.
  intros Hw Hrun. unfold startGame in Hrun.
  destruct (obj_get lobbyCode (lobbies w)) as [lobby|] eqn:Hl; [|by injection Hrun as <- <-].
  destruct (negb (String.eqb (hostId lobby) socketId) || _); [by injection Hrun as <- <-|].
  destruct (length (players lobby) <? 3)%nat; [by injection Hrun as <- <-|].
  destruct (getPacks _ _) as [white black].
  destruct (shuffleArray white (rng w)) as [white' r1].
  destruct (shuffleArray black r1) as [black' r2].
  cbn [players set_whiteDeck set_blackDeck set_whiteDiscard set_blackDiscard] in Hrun.
  match type of Hrun with context [dealFirstHands (players lobby) ?l r2] =>
    set (l0 := l) in *;
    pose proof (dealFirstHands_spec (players lobby) l0 r2) as Hdeal;
    pose proof (dealFirstHands_ids (players lobby) l0 r2) as Hids;
    destruct (dealFirstHands (players lobby) l0 r2) as [[[ps l1] r3] out1] end.
  destruct Hdeal as (Hfr & _ & _). simpl in Hids.
  apply whiteFrame_fields in Hfr as (Hcode & _ & Hhost1 & _).
  cbn [players set_players] in Hrun.
  destruct ps as [|q0 qs] eqn:Hps; [done|]. rewrite -Hps in Hrun Hids.
  destruct (startNextRound _ _) as [w1 out2| |] eqn:Hround; [|done..].
  injection Hrun as <- <-.
  destruct (Hw lobbyCode lobby Hl) as (Hc & Hne & Hhost & _).
  eapply (startNextRound_over_sound lobbyCode _ w); [done | | | | | exact Hround].
  - reflexivity.
  - by rewrite /= Hcode.
  - by rewrite /= Hps.
  - by rewrite /= Hhost1 Hids.
Qed.

Lemma submitCards_sound w socketId lobbyCode cardIds w' out :
  worldSound w -> submitCards w socketId lobbyCode cardIds = Done w' out -> worldSound w'.
Proof.
  intros Hw Hrun. unfold submitCards in Hrun.
  destruct (obj_get lobbyCode (lobbies w)) as [lobby|] eqn:Hl; [|done].
  destruct (getLobbyPlayer lobby socketId) as [player|]; [|by injection Hrun as <- <-].
  destruct (GameState_eqb (gameState lobby) playing) eqn:Hstate; simpl in Hrun;
    [|by injection Hrun as <- <-].
  apply GameState_eqb_eq in Hstate.
  destruct (idIs (czarId lobby) (p_id player) || hasSubmitted player);
    [by injection Hrun as <- <-|].
  destruct (currentBlackCard lobby) as [prompt|] eqn:Hprompt; [|done].
  destruct cardIds as [ids|]; [|by injection Hrun as <- <-].
  destruct (negb (Z.of_nat (length ids) =? pickCount prompt)%Z); [by injection Hrun as <- <-|].
  destruct (resolveCards (p_hand player) ids) as [cards|]; [|by injection Hrun as <- <-].
  cbv zeta in Hrun.
  assert (Hids : forall f, (forall p, p_id (f p) = p_id p) ->
            p_id <$> updatePlayer socketId f (players lobby) = p_id <$> players lobby).
  { intros f Hf. by apply updatePlayer_ids. }
  pose proof (Hw lobbyCode lobby Hl) as Hsound.
  destruct (_ =? _)%nat.
  - destruct (shuffleArray _ (rng w)) as [subs r'].
    injection Hrun as <- <-.
    apply worldSound_set_rng, worldSound_putLobby; [done|].
    eapply lobbySound_next; [exact Hsound | done | by apply Hids | done | done | done | |done].
    rewrite Hstate. by left.
  - injection Hrun as <- <-.
    apply worldSound_putLobby; [done|].
    eapply lobbySound_next; [exact Hsound | done | by apply Hids | done | done | done | |].
    + rewrite Hstate. by left.
    + simpl. by rewrite Hstate.
Qed.

Lemma selectWinner_sound w socketId lobbyCode winningPlayerId w' out :
  worldSound w -> selectWinner w socketId lobbyCode winningPlayerId = Done w' out -> worldSound w'.
Proof.
  intros Hw Hrun. unfold selectWinner in Hrun.
  destruct (obj_get lobbyCode (lobbies w)) as [lobby|] eqn:Hl; [|done].
  destruct (getLobbyPlayer lobby socketId) as [czar|]; [|by injection Hrun as <- <-].
  destruct (GameState_eqb (gameState lobby) judging) eqn:Hstate; simpl in Hrun;
    [|by injection Hrun as <- <-].
  apply GameState_eqb_eq in Hstate.
  destruct (idIs (czarId lobby) (p_id czar)); simpl in Hrun; [|by injection Hrun as <- <-].
  destruct (List.find _ (roundSubmissions lobby)) as [sub|]; [|by injection Hrun as <- <-].
  destruct (getLobbyPlayer lobby winningPlayerId) as [winner|]; [|done].
  cbn [currentBlackCard set_players] in Hrun.
  destruct (currentBlackCard lobby) as [prompt|] eqn:Hprompt; [|done].
  cbv zeta in Hrun.
  pose proof (Hw lobbyCode lobby Hl) as Hsound.
  assert (Hids : p_id <$> updatePlayer winningPlayerId (set_score (S (p_score winner)))
                            (players lobby) = p_id <$> players lobby)
    by (by apply updatePlayer_ids).
  destruct (_ >=? _)%Z; injection Hrun as <- <-.
  - apply worldSound_putLobby; [done|].
    eapply lobbySound_next; [exact Hsound | done | exact Hids | done | done | done | |done].
    rewrite Hstate. right. by left.
  - apply worldSound_set_timers, worldSound_putLobby; [done|].
    eapply lobbySound_next; [exact Hsound | done | exact Hids | done | done | done | |done].
    rewrite Hstate. right. by left.
Qed.

Lemma requestNextRound_sound w socketId lobbyCode w' out :
  worldSound w -> requestNextRound w socketId lobbyCode = Done w' out -> worldSound w'.
Proof.
  intros Hw Hrun. unfold requestNextRound in Hrun.
  destruct (obj_get lobbyCode (lobbies w)) as [lobby|]; [|by injection Hrun as <- <-].
  destruct (_ && _); [|by injection Hrun as <- <-].
  by eapply startNextRound_sound.
Qed.

Lemma autoAdvance_sound lobbyCode w w' out :
  worldSound w -> autoAdvance lobbyCode w = Done w' out -> worldSound w'.
Proof.
  intros Hw Hrun. unfold autoAdvance in Hrun.
  destruct (obj_get lobbyCode (lobbies w)) as [lobby|]; [|by injection Hrun as <- <-].
  destruct (_ && _); [|by injection Hrun as <- <-].
  by eapply startNextRound_sound.
Qed.

Lemma elem_of_fmap_delete {A B} (f : A -> B) (l : list A) (k : nat) (x : A) (y : B) :
  l !! k = Some x -> f x <> y -> y ∈ f <$> l -> y ∈ f <$> delete k l.
Proof.
  intros Hk Hne (z & -> & Hz)%list_elem_of_fmap.
  apply list_elem_of_fmap. exists z. split; [done|].
  apply (list_elem_of_lookup_1 _ _) in Hz as [i Hi].
  destruct (decide (i = k)) as [->|Hik]; [congruence|].
  destruct (decide (i < k)) as [Hlt|Hge].
  - apply (list_elem_of_lookup_2 _ i). by rewrite list_lookup_delete_lt.
  - apply (list_elem_of_lookup_2 _ (pred i)).
    rewrite list_lookup_delete_ge; [lia|]. replace (S (pred i)) with i by lia. done.
Qed.

Lemma disconnect_sound w socketId w' out :
  wellKeyed w -> worldSound w -> disconnect w socketId = Done w' out -> worldSound w'.
Proof.
  intros Hkeys Hw Hrun.
  pose proof (disconnect_spec w socketId) as Hspec.
  destruct (findLobbyOf socketId (lobbies w)) as [[[lobbyCode lobby] k]|] eqn:Hfind;
    [|rewrite Hspec in Hrun; by injection Hrun as <- <-].
  pose proof (findLobbyOf_lookup _ _ _ _ _ Hkeys Hfind) as Hl.
  destruct (Hw lobbyCode lobby Hl) as (Hcode & _ & Hhost & Hround & Hwait).
  apply findLobbyOf_Some in Hfind as [_ Hidx].
  apply findIndex_Some in Hidx as (leaver & Hk & Hid%String.eqb_eq & _).
  destruct (delete k (players lobby)) as [|first rest] eqn:Hrest.
  { rewrite Hspec in Hrun. injection Hrun as <- <-.
    intros c l. cbn. rewrite obj_get_delete.
    destruct (String.eqb lobbyCode c); [done|apply Hw]. }
  cbv zeta in Hspec.
  set (remaining := set_hostId _ _) in Hspec.
  assert (Hhost' : hostId remaining ∈ p_id <$> players remaining).
  { unfold remaining. cbn [hostId players set_hostId set_players].
    destruct (String.eqb_spec (hostId lobby) socketId) as [Heq|Hneq].
    - rewrite fmap_cons. by left.
    - rewrite -Hrest. eapply elem_of_fmap_delete; [exact Hk | congruence | done]. }
  assert (Hfields : code remaining = code lobby /\ gameState remaining = gameState lobby /\
                    currentBlackCard remaining = currentBlackCard lobby /\
                    czarId remaining = czarId lobby /\
                    whiteSupply remaining = whiteSupply lobby /\
                    blackSupply remaining = blackSupply lobby /\
                    players remaining = first :: rest) by done.
  destruct Hfields as (Hc1 & Hs1 & Hp1 & Hz1 & Hw1 & Hb1 & Hps1).
  clearbody remaining.
  assert (Hne1 : players remaining <> []) by (by rewrite Hps1).
  assert (Hsound : idIs (czarId lobby) socketId = false -> lobbySound lobbyCode remaining).
  { intros Hcz. split_and!; [congruence | done | done | |].
    - rewrite Hs1 Hp1 Hz1 Hps1. intros Hin.
      destruct (Hround Hin) as (Hprompt & czar & Hczar & Hmem).
      split; [done|]. exists czar. split; [done|].
      rewrite -Hrest. eapply elem_of_fmap_delete; [exact Hk| |done].
      intros Heq. rewrite Hczar /= in Hcz. apply String.eqb_neq in Hcz. congruence.
    - rewrite Hs1 Hw1 Hb1 Hp1. exact Hwait. }
  assert (Hover : lobbySound lobbyCode (set_gameState gameOver remaining)).
  { split_and!; [by rewrite /= Hc1 | done | done | |done].
    by intros [|[|]]. }
  destruct (negb (GameState_eqb (gameState lobby) waiting) &&
            negb (GameState_eqb (gameState lobby) gameOver)) eqn:Hactive.
  - destruct (idIs (czarId lobby) socketId) eqn:Hcz.
    + destruct Hspec as (lobby' & r' & out0 & Hin & Hrun').
      rewrite Hrun' in Hrun. injection Hrun as <- <-.
      apply worldSound_set_rng.
      intros c0 l0 Hget.
      apply lookup_putLobby in Hget as [[-> ->]|[Hne0 Hget]].
      * eapply startNextRoundIn_sound; [| | |exact Hin]; [congruence|done..].
      * apply lookup_putLobby in Hget as [[-> _]|[_ Hget]]; [done|by apply Hw].
    + destruct (length (first :: rest) <? 3)%nat;
        rewrite Hspec in Hrun; injection Hrun as <- <-;
        (apply worldSound_putLobby; [done|]); [done|by apply Hsound].
  - rewrite Hspec in Hrun. injection Hrun as <- <-.
    apply worldSound_putLobby; [done|].
    split_and!; [congruence | done | done | |].
    + rewrite Hs1. intros Hin. exfalso.
      destruct (gameState lobby); simpl in Hactive; try done; by destruct Hin as [|[|]].
    + rewrite Hs1 Hw1 Hb1 Hp1. exact Hwait.
Qed.

Lemma step_sound w i w' out :
  wellKeyed w -> worldSound w -> step w i = Done w' out -> worldSound w'.
Proof.
  intros Hkeys Hw Hstep. destruct i as [socketId|socketId e|]; simpl in Hstep.
  - by injection Hstep as <- <-.
  - destruct e; simpl in Hstep.
    + by injection Hstep as <- <-.
    + by eapply createLobby_sound.
    + by eapply joinLobby_sound.
    + unfold getPublicLobbies in Hstep.
      destruct (negb _); by injection Hstep as <- <-.
    + by eapply updateSettings_sound.
    + by eapply startGame_sound.
    + by eapply submitCards_sound.
    + by eapply selectWinner_sound.
    + by eapply requestNextRound_sound.
    + by eapply disconnect_sound.
  - destruct (timers w) as [|c pending]; [by injection Hstep as <- <-|].
    eapply autoAdvance_sound; [|exact Hstep]. by apply worldSound_set_timers.
Qed.

Lemma reachable_worldSound w : reachable w -> worldSound w.
Proof.
  induction 1 as [w Hnone _|w i w' out Hreach IH Hstep].
  - intros c lobby. by rewrite Hnone.
  - eapply step_sound; [|exact IH|exact Hstep]. by apply reachable_wellKeyed.
Qed.

Lemma run_reachable inputs : forall w w' out,
  reachable w -> run w inputs = Done w' out -> reachable w'.
Proof.
  induction inputs as [|i inputs IH]; intros w w' out Hreach Hrun; simpl in Hrun.
  - by injection Hrun as <- <-.
  - destruct (step w i) as [w1 out1| |] eqn:Hstep; [|done..].
    destruct (run w1 inputs) as [w2 out2| |] eqn:Hrest; [|done..].
    injection Hrun as <- <-.
    eapply IH; [|exact Hrest]. by eapply reach_step.
Qed.

(** X29. Every world the server reaches is sound. Whatever the clients
    have sent since the start, every registered lobby knows the code it is
    registered under and has at least one member, its host is one of its
    members, while a round is on (the lobby plays, judges or shows a
    result) it has a prompt and its czar is one of its members, and while
    it waits for the game to start it holds no card in any pile. *)
Theorem reachable_sound (w : World) (c : string) (lobby : Lobby) :
  reachable w ->
  obj_get c (lobbies w) = Some lobby ->
  code lobby = c /\
  players lobby <> [] /\
  hostId lobby ∈ p_id <$> players lobby /\
  (inRound (gameState lobby) ->
   is_Some (currentBlackCard lobby) /\
   exists czar, czarId lobby = Some czar /\ czar ∈ p_id <$> players lobby) /\
  (gameState lobby = waiting ->
   whiteSupply lobby = [] /\ blackSupply lobby = [] /\ currentBlackCard lobby = None).
Proof.
  intros Hreach Hget. change (lobbySound c lobby). revert c lobby Hget.
  induction Hreach as [w Hnone _|w i w' out Hreach IH Hstep]; intros c lobby Hget.
  - by rewrite Hnone in Hget.
  - apply reachable_wellKeyed in Hreach.
    exact (step_sound w i w' out Hreach IH Hstep c lobby Hget).
Qed.

Lemma reachable_sound_witness :
  exists lobby,
    obj_get "00000" (lobbies judgingWorld) = Some lobby /\
    hostId lobby ∈ p_id <$> players lobby.
Proof.
  eexists. split; [by vm_compute|].
  eapply (reachable_sound judgingWorld "00000").
  - eapply (run_reachable (gameOfFour None ++ allSubmit) world0).
    + by apply reach_boot.
    + by vm_compute.
  - by vm_compute.
Defined.

Lemma startNextRound_returns c w :
  worldSound w -> exists w' out, startNextRound c w = Done w' out.
Proof.
  intros Hw. unfold startNextRound.
  destruct (obj_get c (lobbies w)) as [lobby|] eqn:Hl; [|by eexists _, _].
  destruct (Hw c lobby Hl) as (_ & Hne & _).
  destruct (startNextRoundIn_spec c lobby (rng w) Hne) as (lobby' & r' & out & czar & -> & _).
  by eexists _, _.
Qed.

Lemma startGame_returns w socketId lobbyCode :
  exists w' out, startGame w socketId lobbyCode = Done w' out.
Proof.
  destruct (obj_get lobbyCode (lobbies w)) as [lobby|] eqn:Hl;
    [|exists w, []; by rewrite /startGame Hl].
  destruct (String.eqb_spec (hostId lobby) socketId) as [Hhost|Hhost]; cycle 1.
  { exists w, []. rewrite /startGame Hl. by apply String.eqb_neq in Hhost as ->. }
  destruct (GameState_eqb (gameState lobby) waiting) eqn:Hstate; cycle 1.
  { exists w, []. by rewrite /startGame Hl Hstate orb_true_r. }
  apply GameState_eqb_eq in Hstate.
  destruct (le_lt_dec 3 (length (players lobby))) as [Hlen|Hlen].
  - destruct (startGame_spec w socketId lobbyCode lobby Hl Hhost Hstate Hlen)
      as (w' & out & lobby' & Hrun & _). by exists w', out.
  - eexists w, _. rewrite /startGame Hl Hhost Hstate String.eqb_refl /=.
    by apply Nat.ltb_lt in Hlen as ->.
Qed.

Lemma disconnect_returns w socketId : exists w' out, disconnect w socketId = Done w' out.
Proof.
  pose proof (disconnect_spec w socketId) as Hspec.
  destruct (findLobbyOf socketId (lobbies w)) as [[[lobbyCode lobby] k]|]; [|by eexists _, _].
  destruct (delete k (players lobby)) as [|first rest]; [by eexists _, _|].
  cbv zeta in Hspec.
  destruct (_ && _); [|by eexists _, _].
  destruct (idIs (czarId lobby) socketId).
  - destruct Hspec as (lobby' & r' & out & _ & Hrun). by eexists _, _.
  - destruct (_ <? _)%nat; by eexists _, _.
Qed.

(** X30. The only calls, with payloads of the shape the handlers expect,
    that throw in a world the server has reached:
    [submitCards] or [selectWinner] with a lobby code that is not
    registered, [joinLobby] with a lobby code that is a property every
    object inherits, and [selectWinner] by the czar for a submission whose
    player has left the lobby. Every other input runs to its end;
    [createLobby] alone can fail to, and only by drawing nothing but
    registered codes. *)
Theorem reachable_throws_only (w : World) (i : Input) :
  reachable w ->
  match step w i with
  | Done _ _ => True
  | Throw =>
      (exists socketId lobbyCode cardIds,
         i = Sends socketId (SubmitCards lobbyCode cardIds) /\
         obj_get lobbyCode (lobbies w) = None) \/
      (exists socketId lobbyCode winningPlayerId,
         i = Sends socketId (SelectWinner lobbyCode winningPlayerId) /\
         obj_get lobbyCode (lobbies w) = None) \/
      (exists socketId lobbyCode playerName,
         i = Sends socketId (JoinLobby lobbyCode playerName) /\
         obj_get lobbyCode (lobbies w) = None /\ isInheritedKey lobbyCode = true) \/
      (exists socketId lobbyCode winningPlayerId lobby sub,
         i = Sends socketId (SelectWinner lobbyCode winningPlayerId) /\
         obj_get lobbyCode (lobbies w) = Some lobby /\
         gameState lobby = judging /\
         czarId lobby = Some socketId /\
         List.find (fun s => String.eqb (sub_playerId s) winningPlayerId)
                   (roundSubmissions lobby) = Some sub /\
         getLobbyPlayer lobby winningPlayerId = None)
  | Spin =>
      exists socketId attempts playerName st,
        i = Sends socketId (CreateLobby attempts playerName st) /\
        forall k, k < attempts -> obj_get (nthCode k (rng w)) (lobbies w) <> None
  end.
Proof.
  intros Hreach. apply reachable_worldSound in Hreach as Hw.
  destruct i as [socketId|socketId e|]; simpl.
  - done.
  - destruct e; simpl.
    + done.
    + unfold createLobby.
      destruct (generateLobbyCode attempts (lobbies w) (rng w)) as [[c r']|] eqn:Hgen; [done|].
      exists socketId, attempts, playerName, st. split; [done|].
      intros k Hk Hfree.
      destruct (generateLobbyCode_enough attempts (lobbies w) (rng w) k Hk) as [x Hx];
        [|congruence].
      by destruct (obj_get (nthCode k (rng w)) (lobbies w)).
    + unfold joinLobby.
      destruct (obj_get lobbyCode (lobbies w)) as [lobby|] eqn:Hl.
      * by repeat case_match.
      * destruct (isInheritedKey lobbyCode) eqn:Hkey; [|done].
        right. right. left. by exists socketId, lobbyCode, playerName.
    + unfold getPublicLobbies. by destruct (negb _).
    + unfold updateSettings. by repeat case_match.
    + by destruct (startGame_returns w socketId lobbyCode) as (w' & out & ->).
    + unfold submitCards.
      destruct (obj_get lobbyCode (lobbies w)) as [lobby|] eqn:Hl;
        [|left; by exists socketId, lobbyCode, cardIds].
      destruct (getLobbyPlayer lobby socketId) as [player|]; [|done].
      destruct (GameState_eqb (gameState lobby) playing) eqn:Hstate; [|done].
      apply GameState_eqb_eq in Hstate. simpl.
      destruct (idIs (czarId lobby) (p_id player) || hasSubmitted player); [done|].
      destruct (Hw lobbyCode lobby Hl) as (_ & _ & _ & Hround & _).
      destruct Hround as [[prompt ->] _]; [rewrite Hstate; by left|].
      by repeat case_match.
    + unfold selectWinner.
      destruct (obj_get lobbyCode (lobbies w)) as [lobby|] eqn:Hl;
        [|right; left; by exists socketId, lobbyCode, winningPlayerId].
      destruct (getLobbyPlayer lobby socketId) as [czar|] eqn:Hczar; [|done].
      destruct (GameState_eqb (gameState lobby) judging) eqn:Hstate; [|done].
      apply GameState_eqb_eq in Hstate. simpl.
      destruct (idIs (czarId lobby) (p_id czar)) eqn:Hcz; [|done]. simpl.
      destruct (List.find _ (roundSubmissions lobby)) as [sub|] eqn:Hsub; [|done].
      destruct (getLobbyPlayer lobby winningPlayerId) as [winner|] eqn:Hwin.
      * cbn [currentBlackCard set_players].
        destruct (Hw lobbyCode lobby Hl) as (_ & _ & _ & Hround & _).
        destruct Hround as [[prompt ->] _]; [rewrite Hstate; right; by left|].
        by repeat case_match.
      * right. right. right. exists socketId, lobbyCode, winningPlayerId, lobby, sub.
        split_and!; [done..| |done|done].
        apply idIs_Some in Hcz. by rewrite (getLobbyPlayer_id _ _ _ Hczar) in Hcz.
    + unfold requestNextRound.
      destruct (obj_get lobbyCode (lobbies w)) as [lobby|]; [|done].
      destruct (_ && _); [|done].
      by destruct (startNextRound_returns lobbyCode w Hw) as (w' & out & ->).
    + by destruct (disconnect_returns w socketId) as (w' & out & ->).
  - destruct (timers w) as [|c pending]; [done|].
    unfold autoAdvance. cbn [lobbies set_timers].
    destruct (obj_get c (lobbies w)) as [lobby|]; [|done].
    destruct (_ && _); [|done].
    assert (Hw' : worldSound (set_timers pending w)) by (by apply worldSound_set_timers).
    by destruct (startNextRound_returns c _ Hw') as (w' & out & ->).
Qed.

Lemma reachable_throws_only_witness :
  reachable judgingWorld /\
  step judgingWorld (Sends "s0" (RequestNextRound "00000")) <> Throw.
Proof.
  assert (Hreach : reachable judgingWorld).
  { eapply (run_reachable (gameOfFour None ++ allSubmit) world0).
    - by apply reach_boot.
    - by vm_compute. }
  split; [exact Hreach|]. intros Hthrow.
  pose proof (reachable_throws_only judgingWorld (Sends "s0" (RequestNextRound "00000")) Hreach)
    as Hcases.
  rewrite Hthrow in Hcases.
  destruct Hcases as [(s & c & ids & Heq & _)|[(s & c & p & Heq & _)|
                      [(s & c & n & Heq & _)|(s & c & p & l & sub & Heq & _)]]];
    discriminate Heq.
Defined.
